(** * exodus-gw: the commit engine ([exodus_gw/worker/publish.py]) and the
    cache-flush rules ([exodus_gw/settings.py])

    A shallow embedding of the commit worker: the item classifier, the
    [_BatchWriter] producer/consumer pipeline, the [CommitBase] /
    [CommitPhase1] / [CommitPhase2] classes and the [commit] actor, together
    with [CacheFlushRule.matches].

    Conventions.
    - Python exceptions are values of [exc]; a computation that can raise
      returns [Res A], and the state it mutated before raising is kept.
    - The worker threads of a [_BatchWriter] are interleaved with the thread
      that owns the writer by an explicit schedule (a list of [tick]s): every
      theorem quantifies over all schedules.
    - The collaborators that live outside [publish.py] (DynamoDB, the
      autoindex enricher, the cache flusher, the clock) are the fields of a
      [World].
    - The embedding starts once the commit object has been constructed: the
      task row, the publish row and the environment were found. Database
      statements themselves do not raise. *)

From Stdlib Require Import ZArith String Ascii List Lia Permutation Bool.
From stdpp Require Import base list relations.
Import ListNotations.
Local Open Scope Z_scope.

(* ===================================================================== *)
(** * Python values *)
(* ===================================================================== *)

Module Py.

(** The exception classes that the commit engine raises or catches.
    [OtherError] stands for any class that is not one of the four named
    ones, nor a subclass of them. *)
Inductive exc_class := RuntimeError | ValueError | Empty | Full | OtherError.

Definition exc_class_eqb (a b : exc_class) : bool :=
  match a, b with
  | RuntimeError, RuntimeError | ValueError, ValueError
  | Empty, Empty | Full, Full | OtherError, OtherError => true
  | _, _ => false
  end.

(** An exception instance: what [raise] produces and [except ... as err]
    binds. *)
Record exc := Exc { exc_cls : exc_class; exc_msg : string }.

(** The objects that the worker's [is] test compares: a class object, or an
    instance of a class. *)
Inductive pyobj :=
| ClassObj (c : exc_class)
| Instance (e : exc).

(** [x is cls], for [cls] a class object: object identity. An instance is
    never identical to a class object. *)
Definition is_ (x : pyobj) (cls : exc_class) : bool :=
  match x with
  | ClassObj c => exc_class_eqb c cls
  | Instance _ => false
  end.

(** [isinstance(e, classes)], as an [except (A, B, ...)] clause tests it. *)
Definition isinstance (e : exc) (classes : list exc_class) : bool :=
  existsb (exc_class_eqb (exc_cls e)) classes.

(** The outcome of a call: a value, or a raised exception. *)
Inductive Res (A : Type) :=
| Ret (a : A)
| Raise (e : exc).
Arguments Ret {A} a.
Arguments Raise {A} e.

(** [str.removeprefix("/")] *)
Definition removeprefix_slash (s : string) : string :=
  match s with
  | String c rest => if Ascii.eqb c "/" then rest else s
  | EmptyString => s
  end.

(** [p.rfind("/")], scanning from the left and remembering the last hit;
    -1 when there is none. *)
Fixpoint rfind_slash_from (p : string) (pos last : Z) : Z :=
  match p with
  | EmptyString => last
  | String c rest =>
      rfind_slash_from rest (pos + 1) (if Ascii.eqb c "/" then pos else last)
  end.

Definition rfind_slash (p : string) : Z := rfind_slash_from p 0 (-1).

(** [p[i:]] and [p[:i]] for [0 <= i]. *)
Definition str_from (i : nat) (p : string) : string :=
  substring i (String.length p - i) p.

Definition str_upto (i : nat) (p : string) : string := substring 0 i p.

(** [posixpath.basename]: [i = p.rfind("/") + 1; return p[i:]]. *)
Definition basename (p : string) : string :=
  str_from (Z.to_nat (rfind_slash p + 1)) p.

(** [head.rstrip("/")] *)
Fixpoint rstrip_slash (s : string) : string :=
  match s with
  | EmptyString => EmptyString
  | String c rest =>
      match rstrip_slash rest with
      | EmptyString => if Ascii.eqb c "/" then EmptyString else String c EmptyString
      | r => String c r
      end
  end.

(** [posixpath.dirname]: the head up to the last slash, with trailing
    slashes removed unless the head consists of slashes only. *)
Definition dirname (p : string) : string :=
  let head := str_upto (Z.to_nat (rfind_slash p + 1)) p in
  match rstrip_slash head with
  | EmptyString => head
  | stripped => stripped
  end.

(** [s.endswith("/")] *)
Fixpoint endswith_slash (s : string) : bool :=
  match s with
  | EmptyString => false
  | String c EmptyString => Ascii.eqb c "/"
  | String _ rest => endswith_slash rest
  end.

(** [x in l] for a list of strings. *)
Definition str_in (x : string) (l : list string) : bool :=
  existsb (String.eqb x) l.

(** A compiled regular expression ([re.Pattern]): its source text and its
    unanchored [search], as a test. The regex engine is Python's; a pattern
    is given by what it accepts. *)
Record Pattern := {
  pattern_source : string;
  search : string -> bool
}.

(** [needle in s] *)
Fixpoint contains (needle s : string) : bool :=
  if String.prefix needle s then true
  else match s with
       | EmptyString => false
       | String _ rest => contains needle rest
       end.

(** [re.compile(lit)] for a text [lit] without metacharacters: [search]
    finds [lit] anywhere in the subject. *)
Definition literal (lit : string) : Pattern :=
  {| pattern_source := lit; search := contains lit |}.

End Py.
Export Py.

(* ===================================================================== *)
(** * settings.py *)
(* ===================================================================== *)

(** The fields of [Settings] that the commit engine reads. Integer settings
    are Python [int]s: nothing constrains their sign. *)
Record Settings := {
  item_yield_size : Z;
  write_batch_size : Z;
  write_max_workers : Z;
  write_queue_size : Z;
  entry_point_files : list string;
  phase2_patterns : list Pattern;
  autoindex_filename : string;
  cdn_flush_on_commit : bool;
  mirror_writes_enabled : bool
}.

Record CacheFlushRule := {
  rule_name : string;
  templates : list string;
  includes : list Pattern;
  excludes : list Pattern
}.

(** [for pattern in patterns: if pattern.search(path): <leave the loop>] :
    whether the loop is left early. *)
Fixpoint search_any (patterns : list Pattern) (path : string) : bool :=
  match patterns with
  | [] => false
  | pattern :: rest =>
      if search pattern path then true else search_any rest path
  end.

Module CacheFlushRule.

(** The path every pattern of a rule is matched against. *)
Definition normalized (path : string) : string :=
  ("/" ++ removeprefix_slash path)%string.

(** [CacheFlushRule.matches] *)
Definition matches (rule : CacheFlushRule) (path : string) : bool :=
  let path := normalized path in
  if search_any (includes rule) path
  then (if search_any (excludes rule) path then false else true)
  else false.

End CacheFlushRule.

(* ===================================================================== *)
(** * The data model *)
(* ===================================================================== *)

Inductive TaskStates := ts_not_started | ts_in_progress | ts_complete | ts_failed.
Inductive PublishStates := ps_pending | ps_committing | ps_committed | ps_failed.
Inductive CommitModes := phase1 | phase2.

Definition PublishStates_eqb (a b : PublishStates) : bool :=
  match a, b with
  | ps_pending, ps_pending | ps_committing, ps_committing
  | ps_committed, ps_committed | ps_failed, ps_failed => true
  | _, _ => false
  end.

(** A row of [items]. [object_key] is nullable. *)
Record Item := {
  item_id : string;
  item_publish_id : string;
  web_uri : string;
  object_key : option string;
  dirty : bool
}.

(** A row of [tasks] ([models/service.py]); [deadline] is nullable and, like
    the clock, counted in microseconds. *)
Record CommitTask := {
  task_id : string;
  task_state : TaskStates;
  deadline : option Z
}.

Record Publish := {
  publish_id : string;
  publish_state : PublishStates
}.

Record PublishedPath := {
  pp_web_uri : string;
  pp_updated : Z
}.

(** What lies outside [publish.py]. *)
Record World := {
  (** [datetime.utcnow()] at the readiness check *)
  utcnow : Z;
  (** [datetime.now(tz=utc)] when published paths are recorded *)
  now_utc : Z;
  (** [DynamoDB.write_batch(batch, delete)]: [None] when it returns, the
      exception when it raises *)
  write_batch : bool -> list Item -> option exc;
  (** [Flusher(paths, ...).run()] *)
  flusher_run : list string -> option exc;
  (** [AutoindexEnricher.run()]: its outcome and the rows it inserted *)
  enricher_run : option exc;
  enricher_items : list Item;
  (** [uris_with_aliases(paths, aliases_for_flush)] *)
  uris_with_aliases : list string -> list string
}.

(* ===================================================================== *)
(** * _BatchWriter *)
(* ===================================================================== *)

(** What travels through the queue: a batch of items, or the writer's
    sentinel object. *)
Inductive entry :=
| Sentinel
| Batch (batch : list Item).

(** Where a worker thread stands in [write_batches]. *)
Inductive thread :=
| AtLoopHead                    (* about to test [while not self.errors] *)
| InGet                         (* inside [self.queue.get(timeout=...)] *)
| InWrite (got : list Item)     (* holds a batch, [write_batch] not yet called *)
| Exited.

(** What a writer did, oldest first: the entries it put on its queue and the
    calls it made to [DynamoDB.write_batch], with their outcome. *)
Inductive bw_event :=
| Put (e : entry)
| Request (delete : bool) (batch : list Item) (outcome : option exc).

(** The progress message a writer is created with tells its three uses
    apart. *)
Inductive scope := WritingPhase1 | WritingPhase2 | RollingBack.

Record BatchWriter := {
  bw_settings : Settings;
  bw_message : scope;
  bw_delete : bool;
  queue : list entry;
  threads : list thread;
  errors : list exc;
  items_total : Z;
  items_done : Z;
  bw_log : list bw_event
}.

(** The scheduler: which worker runs next, which worker's [queue.get] times
    out, or that the thread owning the writer goes on. *)
Inductive tick :=
| Step (i : nat)
| GetTimeout (i : nat)
| Proceed.

Module BW.

Definition with_queue (q : list entry) (bw : BatchWriter) : BatchWriter :=
  {| bw_settings := bw_settings bw; bw_message := bw_message bw;
     bw_delete := bw_delete bw; queue := q; threads := threads bw;
     errors := errors bw; items_total := items_total bw;
     items_done := items_done bw; bw_log := bw_log bw |}.

Definition with_thread (i : nat) (t : thread) (bw : BatchWriter) : BatchWriter :=
  {| bw_settings := bw_settings bw; bw_message := bw_message bw;
     bw_delete := bw_delete bw; queue := queue bw;
     threads := <[i:=t]> (threads bw);
     errors := errors bw; items_total := items_total bw;
     items_done := items_done bw; bw_log := bw_log bw |}.

Definition with_threads (ts : list thread) (bw : BatchWriter) : BatchWriter :=
  {| bw_settings := bw_settings bw; bw_message := bw_message bw;
     bw_delete := bw_delete bw; queue := queue bw; threads := ts;
     errors := errors bw; items_total := items_total bw;
     items_done := items_done bw; bw_log := bw_log bw |}.

Definition logged (ev : bw_event) (bw : BatchWriter) : BatchWriter :=
  {| bw_settings := bw_settings bw; bw_message := bw_message bw;
     bw_delete := bw_delete bw; queue := queue bw; threads := threads bw;
     errors := errors bw; items_total := items_total bw;
     items_done := items_done bw; bw_log := bw_log bw ++ [ev] |}.

(** [_BatchWriter.__init__] *)
Definition init (settings : Settings) (item_count : Z) (message : scope)
    (delete : bool) : BatchWriter :=
  {| bw_settings := settings; bw_message := message; bw_delete := delete;
     queue := []; threads := []; errors := [];
     items_total := item_count; items_done := 0; bw_log := [] |}.

(** [adjust_total] *)
Definition adjust_total (increment : Z) (bw : BatchWriter) : BatchWriter :=
  {| bw_settings := bw_settings bw; bw_message := bw_message bw;
     bw_delete := bw_delete bw; queue := queue bw; threads := threads bw;
     errors := errors bw; items_total := items_total bw + increment;
     items_done := items_done bw; bw_log := bw_log bw |}.

(** [progress_logger.update] *)
Definition progress_update (n : Z) (bw : BatchWriter) : BatchWriter :=
  {| bw_settings := bw_settings bw; bw_message := bw_message bw;
     bw_delete := bw_delete bw; queue := queue bw; threads := threads bw;
     errors := errors bw; items_total := items_total bw;
     items_done := items_done bw + n; bw_log := bw_log bw |}.

(** [append_error] *)
Definition append_error (err : exc) (bw : BatchWriter) : BatchWriter :=
  {| bw_settings := bw_settings bw; bw_message := bw_message bw;
     bw_delete := bw_delete bw; queue := queue bw; threads := threads bw;
     errors := errors bw ++ [err]; items_total := items_total bw;
     items_done := items_done bw; bw_log := bw_log bw |}.

(** [start]: [range(write_max_workers)] threads, each entering
    [write_batches]. *)
Definition start (bw : BatchWriter) : BatchWriter :=
  with_threads
    (threads bw ++ repeat AtLoopHead (Z.to_nat (write_max_workers (bw_settings bw))))
    bw.

(** [Queue(maxsize)]: bounded only when [maxsize] is positive. *)
Definition queue_full (bw : BatchWriter) : bool :=
  let maxsize := write_queue_size (bw_settings bw) in
  (0 <? maxsize) && (maxsize <=? Z.of_nat (length (queue bw))).

(** The handler of [write_batches]:
    [except (RuntimeError, ValueError, Empty) as err:
       if err is not Empty: self.append_error(err)
       break]
    [err] is the instance that was raised; [Empty] is the class. *)
Definition worker_caught : list exc_class := [RuntimeError; ValueError; Empty].

Definition worker_except (err : exc) (bw : BatchWriter) : BatchWriter :=
  if negb (is_ (Instance err) Empty) then append_error err bw else bw.

(** An exception [err] leaves the body of the worker's [try]: the handler
    runs when its clause matches, otherwise the thread dies of it; the
    thread is over in both cases. *)
Definition worker_raise (i : nat) (err : exc) (bw : BatchWriter) : BatchWriter :=
  with_thread i Exited
    (if isinstance err worker_caught then worker_except err bw else bw).

(** One step of worker [i] in [write_batches]. A worker inside
    [queue.get] on an empty queue does not move. *)
Definition worker_step (w : World) (i : nat) (bw : BatchWriter) : BatchWriter :=
  match threads bw !! i with
  | Some AtLoopHead =>
      match errors bw with
      | [] => with_thread i InGet bw
      | _ :: _ => with_thread i Exited bw
      end
  | Some InGet =>
      match queue bw with
      | [] => bw
      | Sentinel :: q => with_thread i Exited (with_queue q bw)
      | Batch got :: q => with_thread i (InWrite got) (with_queue q bw)
      end
  | Some (InWrite got) =>
      match write_batch w (bw_delete bw) got with
      | None =>
          with_thread i AtLoopHead
            (progress_update (Z.of_nat (length got))
               (logged (Request (bw_delete bw) got None) bw))
      | Some err =>
          worker_raise i err (logged (Request (bw_delete bw) got (Some err)) bw)
      end
  | Some Exited | None => bw
  end.

(** [queue.get] of worker [i] times out: it raises [Empty()] inside the
    worker's [try]. Only a worker waiting on an empty queue can time out. *)
Definition worker_timeout (i : nat) (bw : BatchWriter) : BatchWriter :=
  match threads bw !! i, queue bw with
  | Some InGet, [] => worker_raise i (Exc Empty "") bw
  | _, _ => bw
  end.

(** The workers run, as the schedule says, until the owning thread is let
    through. *)
Fixpoint run_ticks (w : World) (bw : BatchWriter) (sched : list tick)
    : BatchWriter * list tick :=
  match sched with
  | [] => (bw, [])
  | Proceed :: rest => (bw, rest)
  | Step i :: rest => run_ticks w (worker_step w i bw) rest
  | GetTimeout i :: rest => run_ticks w (worker_timeout i bw) rest
  end.

(** [x] joins the queue at its tail. *)
Definition push (x : entry) (bw : BatchWriter) : BatchWriter :=
  logged (Put x) (with_queue (queue bw ++ [x]) bw).

(** [self.queue.put(x, timeout=...)]: [Full()] is raised when the queue is
    (still) full as the wait ends. *)
Definition put (w : World) (x : entry) (bw : BatchWriter) (sched : list tick)
    : option exc * BatchWriter * list tick :=
  let '(bw, sched) := run_ticks w bw sched in
  if queue_full bw then (Some (Exc Full ""), bw, sched)
  else (None, push x bw, sched).

(** A list cut into chunks of [n] elements, the last one possibly shorter;
    [fuel] bounds the number of chunks. *)
Fixpoint chunks_fuel {A} (fuel n : nat) (l : list A) : list (list A) :=
  match fuel with
  | O => []
  | S fuel =>
      match l with
      | [] => []
      | _ :: _ => take n l :: chunks_fuel fuel n (drop n l)
      end
  end.

(** No chunk at all for a chunk size of zero. *)
Definition chunks {A} (n : nat) (l : list A) : list (list A) :=
  match n with
  | O => []
  | S _ => chunks_fuel (length l) n l
  end.

(** Modelled from the spec: [DynamoDB.get_batches] lives in
    [exodus_gw/aws/dynamodb.py], which is not among the sources at hand; the
    spec has it split the items into chunks of [write_batch_size]. *)
Definition get_batches (settings : Settings) (items : list Item) : list (list Item) :=
  chunks (Z.to_nat (write_batch_size settings)) items.

(** The loop of [queue_batches]. *)
Fixpoint queue_batches_loop (w : World) (batches : list (list Item))
    (queued_item_ids : list string) (bw : BatchWriter) (sched : list tick)
    : list string * BatchWriter * list tick :=
  match batches with
  | [] => (queued_item_ids, bw, sched)
  | batch :: rest =>
      let '(bw, sched) := run_ticks w bw sched in
      match errors bw with
      | [] =>
          match put w (Batch batch) bw sched with
          | (None, bw, sched) =>
              queue_batches_loop w rest
                (queued_item_ids ++ map item_id batch) bw sched
          | (Some err, bw, sched) =>
              queue_batches_loop w rest queued_item_ids (append_error err bw) sched
          end
      | _ :: _ => queue_batches_loop w rest queued_item_ids bw sched
      end
  end.

(** [queue_batches] *)
Definition queue_batches (w : World) (items : list Item) (bw : BatchWriter)
    (sched : list tick) : list string * BatchWriter * list tick :=
  queue_batches_loop w (get_batches (bw_settings bw) items) [] bw sched.

(** The first loop of [stop]: one [put] of the sentinel per thread. *)
Fixpoint put_sentinels (w : World) (n : nat) (bw : BatchWriter)
    (sched : list tick) : BatchWriter * list tick :=
  match n with
  | O => (bw, sched)
  | S n =>
      match put w Sentinel bw sched with
      | (None, bw, sched) => put_sentinels w n bw sched
      | (Some err, bw, sched) => put_sentinels w n (append_error err bw) sched
      end
  end.

(** Worker [i] runs until it is over. Nothing is put on the queue any more,
    so a [queue.get] on an empty queue can only time out. *)
Fixpoint run_to_exit (w : World) (fuel i : nat) (bw : BatchWriter) : BatchWriter :=
  match fuel with
  | O => bw
  | S fuel =>
      match threads bw !! i with
      | Some Exited | None => bw
      | Some InGet =>
          match queue bw with
          | [] => worker_timeout i bw
          | _ :: _ => run_to_exit w fuel i (worker_step w i bw)
          end
      | Some _ => run_to_exit w fuel i (worker_step w i bw)
      end
  end.

Definition exit_fuel (bw : BatchWriter) : nat := 3 * length (queue bw) + 3.

(** The second loop of [stop]: [thread.join()] for every thread. The
    workers first run as scheduled, then each one that is still alive is
    waited for. *)
Definition join (w : World) (bw : BatchWriter) (sched : list tick)
    : BatchWriter * list tick :=
  let '(bw, sched) := run_ticks w bw sched in
  (fold_left (fun bw i => run_to_exit w (exit_fuel bw) i bw)
     (seq 0 (length (threads bw))) bw, sched).

(** The queue test of [stop]:
    [if self.queue.qsize() > 0:
       if not self.queue.get_nowait() is self.sentinel: self.append_error(...)] *)
Definition incomplete : exc := Exc RuntimeError "Commit incomplete, queue not empty".

Definition check_queue (bw : BatchWriter) : BatchWriter :=
  match queue bw with
  | [] => bw
  | Sentinel :: q => with_queue q bw
  | Batch _ :: q => append_error incomplete (with_queue q bw)
  end.

(** [if self.errors: raise self.errors[0]] *)
Definition raise_first (bw : BatchWriter) : option exc := head (errors bw).

(** [stop] *)
Definition stop (w : World) (bw : BatchWriter) (sched : list tick)
    : option exc * BatchWriter * list tick :=
  let '(bw, sched) := put_sentinels w (length (threads bw)) bw sched in
  let '(bw, sched) := join w bw sched in
  let bw := check_queue bw in
  (raise_first bw, bw, sched).

(** [__enter__] on a fresh writer. *)
Definition enter (settings : Settings) (item_count : Z) (message : scope)
    (delete : bool) : BatchWriter :=
  start (init settings item_count message delete).

End BW.

(* ===================================================================== *)
(** * CommitBase, CommitPhase1, CommitPhase2 *)
(* ===================================================================== *)

(** The relational store, as far as a commit touches it. *)
Record Db := {
  task : CommitTask;
  publish : Publish;
  items : list Item;
  published_paths : list PublishedPath
}.

(** What a run leaves behind, oldest first. *)
Inductive event :=
| LogTaskError                 (* LOG.exception("Task %s encountered an error") *)
| LogRollingBack (n : nat)     (* LOG.warning("Rolling back %d item(s) due to error") *)
| DbCommit                     (* self.db.commit() *)
| Enrich                       (* AutoindexEnricher(...).run() *)
| Flush (paths : list string)  (* Flusher(paths, ...).run() *)
| Writer (bw : BatchWriter).   (* a [with _BatchWriter(...)] block, as [stop] left the writer *)

(** A commit object and its run. [mode] tells the class: [phase1] for
    [CommitPhase1], [phase2] for [CommitPhase2]. [db] is the session, the
    rows as this commit sees and changes them; [stored] is what the last
    [db.commit()] made durable. [sched] is what is left of the schedule and
    [trace] what has happened so far. *)
Record Commit := {
  mode : CommitModes;
  settings : Settings;
  db : Db;
  stored : Db;
  written_item_ids : list string;
  flush_paths : list string;
  sched : list tick;
  trace : list event
}.

(** Computations over a state [S] that may raise. *)
Definition M (S A : Type) : Type := S -> Res A * S.

Definition ret {S A} (a : A) : M S A := fun s => (Ret a, s).

Definition bind {S A B} (m : M S A) (k : A -> M S B) : M S B :=
  fun s =>
    match m s with
    | (Ret a, s) => k a s
    | (Raise e, s) => (Raise e, s)
    end.

Definition raise {S A} (e : exc) : M S A := fun s => (Raise e, s).

(** [try: body  except Exception as e: handler(e)] *)
Definition try_except {S A} (body : M S A) (handler : exc -> M S A) : M S A :=
  fun s =>
    match body s with
    | (Ret a, s) => (Ret a, s)
    | (Raise e, s) => handler e s
    end.

(** [try: body  finally: final]. The exception of [body] goes on after
    [final], unless [final] raises one of its own. *)
Definition try_finally {S A} (body : M S A) (final : M S unit) : M S A :=
  fun s =>
    match body s with
    | (r, s) =>
        match final s with
        | (Ret _, s) => (r, s)
        | (Raise e, s) => (Raise e, s)
        end
    end.

Declare Scope commit_scope.
Delimit Scope commit_scope with commit.
Notation "x <- m ;; k" := (bind m (fun x => k))
  (at level 100, m at next level, right associativity) : commit_scope.
Notation "m ;; k" := (bind m (fun _ => k))
  (at level 100, right associativity) : commit_scope.
Local Open Scope commit_scope.

Module CommitBase.

Definition with_db (d : Db) (c : Commit) : Commit :=
  {| mode := mode c; settings := settings c; db := d; stored := stored c;
     written_item_ids := written_item_ids c; flush_paths := flush_paths c;
     sched := sched c; trace := trace c |}.

Definition with_stored (d : Db) (c : Commit) : Commit :=
  {| mode := mode c; settings := settings c; db := db c; stored := d;
     written_item_ids := written_item_ids c; flush_paths := flush_paths c;
     sched := sched c; trace := trace c |}.

Definition with_written_item_ids (ids : list string) (c : Commit) : Commit :=
  {| mode := mode c; settings := settings c; db := db c; stored := stored c;
     written_item_ids := ids; flush_paths := flush_paths c;
     sched := sched c; trace := trace c |}.

Definition with_flush_paths (paths : list string) (c : Commit) : Commit :=
  {| mode := mode c; settings := settings c; db := db c; stored := stored c;
     written_item_ids := written_item_ids c; flush_paths := paths;
     sched := sched c; trace := trace c |}.

Definition with_sched (s : list tick) (c : Commit) : Commit :=
  {| mode := mode c; settings := settings c; db := db c; stored := stored c;
     written_item_ids := written_item_ids c; flush_paths := flush_paths c;
     sched := s; trace := trace c |}.

Definition traced (ev : event) (c : Commit) : Commit :=
  {| mode := mode c; settings := settings c; db := db c; stored := stored c;
     written_item_ids := written_item_ids c; flush_paths := flush_paths c;
     sched := sched c; trace := trace c ++ [ev] |}.

Definition log (ev : event) : M Commit unit := fun c => (Ret tt, traced ev c).

(** [self.task.state = state] *)
Definition set_task_state (state : TaskStates) : M Commit unit :=
  fun c =>
    let d := db c in
    (Ret tt,
     with_db {| task := {| task_id := task_id (task d); task_state := state;
                           deadline := deadline (task d) |};
                publish := publish d; items := items d;
                published_paths := published_paths d |} c).

(** [self.publish.state = state] *)
Definition set_publish_state (state : PublishStates) : M Commit unit :=
  fun c =>
    let d := db c in
    (Ret tt,
     with_db {| task := task d;
                publish := {| publish_id := publish_id (publish d);
                              publish_state := state |};
                items := items d; published_paths := published_paths d |} c).

Definition set_items (its : list Item) : M Commit unit :=
  fun c =>
    let d := db c in
    (Ret tt,
     with_db {| task := task d; publish := publish d; items := its;
                published_paths := published_paths d |} c).

Definition set_published_paths (pps : list PublishedPath) : M Commit unit :=
  fun c =>
    let d := db c in
    (Ret tt,
     with_db {| task := task d; publish := publish d; items := items d;
                published_paths := pps |} c).

(** [self.db.commit()] *)
Definition db_commit : M Commit unit :=
  fun c => (Ret tt, traced DbCommit (with_stored (db c) c)).

(** [PUBLISH_STATES] of the two classes. *)
Definition PUBLISH_STATES (m : CommitModes) : list PublishStates :=
  match m with
  | phase1 => [ps_committing; ps_pending]
  | phase2 => [ps_committing]
  end.

(** [on_failed]; [CommitPhase2] extends it. *)
Definition on_failed : M Commit unit :=
  fun c =>
    match mode c with
    | phase1 => set_task_state ts_failed c
    | phase2 => (set_task_state ts_failed ;; set_publish_state ps_failed) c
    end.

(** [written_item_ids_batched]: the slices
    [ids[index : index + chunk_size]] for [index in range(0, len(ids),
    chunk_size)]. [range] raises [ValueError] for a zero step and is empty
    for a negative one. *)
Definition written_item_ids_batched : M Commit (list (list string)) :=
  fun c =>
    let chunk_size := item_yield_size (settings c) in
    if chunk_size =? 0
    then (Raise (Exc ValueError "range() arg 3 must not be zero"), c)
    else if chunk_size <? 0 then (Ret [], c)
    else (Ret (BW.chunks (Z.to_nat chunk_size) (written_item_ids c)), c).

(** [UPDATE items SET dirty = false WHERE id IN item_ids] *)
Definition mark_clean (item_ids : list string) (its : list Item) : list Item :=
  map (fun it =>
         if str_in (item_id it) item_ids
         then {| item_id := item_id it; item_publish_id := item_publish_id it;
                 web_uri := web_uri it; object_key := object_key it;
                 dirty := false |}
         else it) its.

(** [INSERT ... ON CONFLICT (env, web_uri) DO UPDATE] of one path. *)
Fixpoint upsert_path (path : string) (now : Z) (pps : list PublishedPath)
    : list PublishedPath :=
  match pps with
  | [] => [{| pp_web_uri := path; pp_updated := now |}]
  | pp :: rest =>
      if String.eqb (pp_web_uri pp) path
      then {| pp_web_uri := path; pp_updated := now |} :: rest
      else pp :: upsert_path path now rest
  end.

(** [CommitBase.on_succeeded] *)
Definition base_on_succeeded : M Commit unit :=
  set_task_state ts_complete ;;
  batches <- written_item_ids_batched ;;
  fun c =>
    set_items (fold_left (fun its item_ids => mark_clean item_ids its)
                 batches (items (db c))) c.

(** [on_succeeded]; [CommitPhase2] extends it. *)
Definition on_succeeded (w : World) : M Commit unit :=
  fun c =>
    match mode c with
    | phase1 => base_on_succeeded c
    | phase2 =>
        (base_on_succeeded ;;
         (fun c =>
            let updated_paths := uris_with_aliases w (flush_paths c) in
            match updated_paths with
            | [] => (Ret tt, c)
            | _ :: _ =>
                set_published_paths
                  (fold_left (fun pps path => upsert_path path (now_utc w) pps)
                     updated_paths (published_paths (db c))) c
            end) ;;
         set_publish_state ps_committed) c
    end.

(** [task_ready] *)
Definition task_ready (w : World) : M Commit bool :=
  fun c =>
    let task := task (db c) in
    let now := utcnow w in
    match task_state task with
    | ts_complete | ts_failed => (Ret false, c)
    | _ =>
        match deadline task with
        | Some d =>
            if d <? now
            then (on_failed ;; db_commit ;; ret false) c
            else (Ret true, c)
        | None => (Ret true, c)
        end
    end.

(** [publish_ready] *)
Definition publish_ready (c : Commit) : bool :=
  existsb (PublishStates_eqb (publish_state (publish (db c))))
    (PUBLISH_STATES (mode c)).

(** [item_count]: every item of the publish, dirty or not. *)
Definition item_count (c : Commit) : Z :=
  Z.of_nat (length (List.filter
    (fun it => String.eqb (item_publish_id it) (publish_id (publish (db c))))
    (items (db c)))).

(** [has_items] *)
Definition has_items (c : Commit) : bool := 0 <? item_count c.

(** [should_write] *)
Definition should_write (w : World) : M Commit bool :=
  ready <- task_ready w ;;
  if negb ready then ret false
  else fun c =>
    if negb (publish_ready c)
    then (set_task_state ts_failed ;; db_commit ;; ret false) c
    else if negb (has_items c)
    then (on_succeeded w ;; db_commit ;; ret false) c
    else (Ret true, c).

(** [check_item]: [not item.object_key] holds for NULL and for the empty
    string. *)
Definition check_item (item : Item) : option exc :=
  match object_key item with
  | None | Some EmptyString =>
      Some (Exc ValueError ("BUG: missing object_key for " ++ web_uri item)%string)
  | Some _ => None
  end.

(** [is_phase2] *)
Definition is_phase2 (s : Settings) (item : Item) : bool :=
  let name := basename (web_uri item) in
  if String.eqb name (autoindex_filename s) || str_in name (entry_point_files s)
  then true
  else search_any (phase2_patterns s) (web_uri item).

(** [ORDER BY web_uri]: insertion into a list already in order. *)
Fixpoint insert_by_uri (item : Item) (sorted : list Item) : list Item :=
  match sorted with
  | [] => [item]
  | x :: rest =>
      if String.leb (web_uri item) (web_uri x) then item :: sorted
      else x :: insert_by_uri item rest
  end.

Definition order_by_uri (its : list Item) : list Item :=
  fold_right insert_by_uri [] its.

(** [item_select]: the dirty items of the publish; [CommitPhase1] leaves out
    those whose [object_key] is NULL or empty. *)
Definition item_selected (c : Commit) (it : Item) : bool :=
  String.eqb (item_publish_id it) (publish_id (publish (db c)))
  && dirty it
  && match mode c with
     | phase1 =>
         match object_key it with
         | None | Some EmptyString => false
         | Some _ => true
         end
     | phase2 => true
     end.

Definition item_select (c : Commit) : list Item :=
  order_by_uri (List.filter (item_selected c) (items (db c))).

(** [.partitions()] of the select, [yield_per] rows at a time, for a
    positive [yield_per]. A [yield_per] that is not positive is outside the
    model: the database layer is not part of this code, and where the model
    has no partition at all the real query may raise. A property that says
    what the write path writes when it returns, or what it raises, is
    stated for a positive [item_yield_size]; the others hold whatever the
    partitions are. *)
Definition partitions (c : Commit) : list (list Item) :=
  BW.chunks (Z.to_nat (item_yield_size (settings c))) (item_select c).

(** The inner loop of [write_publish_items]: [for row in partition]. The
    items to queue, the entry points kept for later and the writer, whose
    total is adjusted. *)
Fixpoint sort_rows (s : Settings) (rows items final_items : list Item)
    (bw : BatchWriter) : Res (list Item) * list Item * BatchWriter :=
  match rows with
  | [] => (Ret items, final_items, bw)
  | item :: rest =>
      match check_item item with
      | Some e => (Raise e, final_items, bw)
      | None =>
          if is_phase2 s item
          then sort_rows s rest items (final_items ++ [item])
                 (BW.adjust_total (-1) bw)
          else sort_rows s rest (items ++ [item]) final_items bw
      end
  end.

(** The outer loop: [for partition in partitions]. *)
Fixpoint write_partitions (w : World) (parts : list (list Item))
    (final_items : list Item) (bw : BatchWriter) (c : Commit)
    : Res (list Item) * BatchWriter * Commit :=
  match parts with
  | [] => (Ret final_items, bw, c)
  | partition :: rest =>
      match sort_rows (settings c) partition [] final_items bw with
      | (Raise e, _, bw) => (Raise e, bw, c)
      | (Ret items, final_items, bw) =>
          let '(ids, bw, s) := BW.queue_batches w items bw (sched c) in
          write_partitions w rest final_items bw
            (with_sched s (with_written_item_ids (written_item_ids c ++ ids) c))
      end
  end.

(** [__exit__]: [stop] runs however the block ended; what [stop] raises
    takes the place of what the block raised. *)
Definition exit_writer {A} (w : World) (result : Res A) (bw : BatchWriter)
    (c : Commit) : Res A * Commit :=
  let '(err, bw, s) := BW.stop w bw (sched c) in
  let c := traced (Writer bw) (with_sched s c) in
  match err with
  | Some e => (Raise e, c)
  | None => (result, c)
  end.

(** [CommitBase.write_publish_items]: returns the entry points it did not
    write. *)
Definition base_write_publish_items (w : World) : M Commit (list Item) :=
  fun c =>
    let bw := BW.enter (settings c) (item_count c) WritingPhase1 false in
    let '(result, bw, c) := write_partitions w (partitions c) [] bw c in
    exit_writer w result bw c.

(** [flush_cache] *)
Definition flush_cache (w : World) : M Commit unit :=
  fun c =>
    if cdn_flush_on_commit (settings c)
    then match flusher_run w (flush_paths c) with
         | None => (Ret tt, traced (Flush (flush_paths c)) c)
         | Some e => (Raise e, traced (Flush (flush_paths c)) c)
         end
    else (Ret tt, c).

(** [add_flush_paths] *)
Definition flush_path (s : Settings) (path : string) : string :=
  if String.eqb (basename path) (autoindex_filename s)
  then let path := dirname path in
       if endswith_slash path then path else (path ++ "/")%string
  else path.

Definition add_flush_paths (paths : list string) : M Commit unit :=
  fun c =>
    (Ret tt,
     with_flush_paths (flush_paths c ++ map (flush_path (settings c)) paths) c).

(** The second [with _BatchWriter(...)] block of
    [CommitPhase2.write_publish_items]: "Writing phase 2 items". *)
Definition write_final_items (w : World) (final_items : list Item)
    : M Commit unit :=
  fun c =>
    let bw := BW.enter (settings c) (Z.of_nat (length final_items))
                WritingPhase2 false in
    match final_items with
    | [] => exit_writer w (Ret tt) bw c
    | _ :: _ =>
        let '(ids, bw, s) := BW.queue_batches w final_items bw (sched c) in
        let c := with_sched s
                   (with_written_item_ids (written_item_ids c ++ ids) c) in
        let '(r, c) := add_flush_paths (map web_uri final_items) c in
        exit_writer w r bw c
    end.

(** [write_publish_items] of the two classes. *)
Definition write_publish_items (w : World) : M Commit (list Item) :=
  fun c =>
    match mode c with
    | phase1 => (final_items <- base_write_publish_items w ;; ret []) c
    | phase2 =>
        (final_items <- base_write_publish_items w ;;
         write_final_items w final_items ;;
         flush_cache w ;;
         ret []) c
    end.

(** [self.db.query(Item).filter(Item.id.in_(item_ids))] *)
Definition items_by_id (item_ids : list string) (c : Commit) : list Item :=
  List.filter (fun it => str_in (item_id it) item_ids) (items (db c)).

(** The loop of [rollback_publish_items]: one delete-mode writer per chunk
    of ids. *)
Fixpoint rollback_chunks (w : World) (chunks : list (list string))
    : M Commit unit :=
  match chunks with
  | [] => ret tt
  | item_ids :: rest =>
      (fun c =>
         let bw := BW.enter (settings c) (Z.of_nat (length item_ids))
                     RollingBack true in
         let '(_, bw, s) := BW.queue_batches w (items_by_id item_ids c) bw (sched c) in
         exit_writer w (Ret tt) bw (with_sched s c)) ;;
      rollback_chunks w rest
  end.

(** [CommitBase.rollback_publish_items] *)
Definition base_rollback_publish_items (w : World) (exception : exc)
    : M Commit unit :=
  (fun c => log (LogRollingBack (length (written_item_ids c))) c) ;;
  chunks <- written_item_ids_batched ;;
  rollback_chunks w chunks.

(** [rollback_publish_items]; [CommitPhase2] flushes the cache after it. *)
Definition rollback_publish_items (w : World) (exception : exc) : M Commit unit :=
  fun c =>
    match mode c with
    | phase1 => base_rollback_publish_items w exception c
    | phase2 => (base_rollback_publish_items w exception ;; flush_cache w) c
    end.

(** [pre_write]: nothing in [CommitPhase1]; the autoindex enricher in
    [CommitPhase2]. *)
Definition pre_write (w : World) : M Commit unit :=
  fun c =>
    match mode c with
    | phase1 => (Ret tt, c)
    | phase2 =>
        (log Enrich ;;
         (fun c => set_items (items (db c) ++ enricher_items w) c) ;;
         match enricher_run w with
         | None => ret tt
         | Some e => raise e
         end) c
    end.

End CommitBase.
Export CommitBase.

(** The body of the actor's [try]. *)
Definition commit_try (w : World) : M Commit unit :=
  write_publish_items w ;;
  on_succeeded w ;;
  db_commit.

(** The actor's [except Exception as exc_info] clause. *)
Definition commit_except (w : World) (exc_info : exc) : M Commit unit :=
  log LogTaskError ;;
  try_finally (rollback_publish_items w exc_info) (on_failed ;; db_commit) ;;
  ret tt.

(** The [commit] actor, from the constructed [commit_obj] on. *)
Definition commit (w : World) : M Commit unit :=
  write <- should_write w ;;
  if negb write then ret tt
  else
    set_task_state ts_in_progress ;;
    db_commit ;;
    pre_write w ;;
    try_except (commit_try w) (commit_except w).

(** The actor picks the class by [commit_mode or "phase2"]. *)
Definition commit_class (commit_mode : option CommitModes) : CommitModes :=
  match commit_mode with
  | Some m => m
  | None => phase2
  end.

(** The commit object right after its construction. *)
Definition new_commit (commit_mode : option CommitModes) (s : Settings)
    (d : Db) (schedule : list tick) : Commit :=
  {| mode := commit_class commit_mode; settings := s; db := d; stored := d;
     written_item_ids := []; flush_paths := []; sched := schedule; trace := [] |}.

(* ===================================================================== *)
(** * Vocabulary of the properties *)
(* ===================================================================== *)

(** ** A writer between [start] and the end of [stop] *)

(** The moves of a worker thread, as a relation: what [BW.worker_step] and
    [BW.worker_timeout] do when they do anything. *)
Inductive move (w : World) : BatchWriter -> BatchWriter -> Prop :=
| move_enter_get i bw :
    threads bw !! i = Some AtLoopHead -> errors bw = [] ->
    move w bw (BW.with_thread i InGet bw)
| move_leave i bw :
    threads bw !! i = Some AtLoopHead -> errors bw <> [] ->
    move w bw (BW.with_thread i Exited bw)
| move_got_sentinel i bw q :
    threads bw !! i = Some InGet -> queue bw = Sentinel :: q ->
    move w bw (BW.with_thread i Exited (BW.with_queue q bw))
| move_got_batch i bw got q :
    threads bw !! i = Some InGet -> queue bw = Batch got :: q ->
    move w bw (BW.with_thread i (InWrite got) (BW.with_queue q bw))
| move_written i bw got :
    threads bw !! i = Some (InWrite got) ->
    write_batch w (bw_delete bw) got = None ->
    move w bw
      (BW.with_thread i AtLoopHead
         (BW.progress_update (Z.of_nat (length got))
            (BW.logged (Request (bw_delete bw) got None) bw)))
| move_failed i bw got err :
    threads bw !! i = Some (InWrite got) ->
    write_batch w (bw_delete bw) got = Some err ->
    move w bw
      (BW.worker_raise i err
         (BW.logged (Request (bw_delete bw) got (Some err)) bw))
| move_timeout i bw :
    threads bw !! i = Some InGet -> queue bw = [] ->
    move w bw (BW.worker_raise i (Exc Empty "") bw).

(** The two halves of a writer's life: the [with] block is running, or
    [stop] has begun. *)
Inductive phase := Open | Stopping.

(** The states a writer can be in, given all that its threads and its owner
    may do. *)
Inductive reachable (w : World) : phase -> BatchWriter -> Prop :=
| reach_enter settings item_count message delete :
    reachable w Open (BW.enter settings item_count message delete)
| reach_move ph bw bw' :
    reachable w ph bw -> move w bw bw' -> reachable w ph bw'
| reach_put_batch bw batch :
    reachable w Open bw -> BW.queue_full bw = false ->
    reachable w Open (BW.push (Batch batch) bw)
| reach_adjust bw increment :
    reachable w Open bw -> reachable w Open (BW.adjust_total increment bw)
| reach_error ph bw err :
    reachable w ph bw -> reachable w ph (BW.append_error err bw)
| reach_stop bw :
    reachable w Open bw -> reachable w Stopping bw
| reach_put_sentinel bw :
    reachable w Stopping bw -> BW.queue_full bw = false ->
    reachable w Stopping (BW.push Sentinel bw).

(** The batches waiting in a queue, those held by the threads, those a log
    shows were put on the queue and those it shows were handed to
    [write_batch]. *)
Definition queued_batches (q : list entry) : list (list Item) :=
  flat_map (fun e => match e with Batch b => [b] | Sentinel => [] end) q.

Definition held_batches (ts : list thread) : list (list Item) :=
  flat_map (fun t => match t with InWrite b => [b] | _ => [] end) ts.

Definition put_batches (log : list bw_event) : list (list Item) :=
  flat_map (fun ev => match ev with Put (Batch b) => [b] | _ => [] end) log.

Definition requested_batches (log : list bw_event) : list (list Item) :=
  flat_map (fun ev => match ev with Request _ b _ => [b] | _ => [] end) log.

(** How many sentinels a log shows were put on the queue. *)
Definition sentinels_put (log : list bw_event) : nat :=
  length (List.filter
            (fun ev => match ev with Put Sentinel => true | _ => false end) log).

Definition is_sentinel (e : entry) : bool :=
  match e with Sentinel => true | Batch _ => false end.

(** No batch stands behind a sentinel. *)
Fixpoint sentinels_last (q : list entry) : bool :=
  match q with
  | [] => true
  | Sentinel :: rest => forallb is_sentinel rest
  | Batch _ :: rest => sentinels_last rest
  end.

(** A request that failed with an exception the worker's [except] clause
    does not name. *)
Definition unrecorded_failure (ev : bw_event) : bool :=
  match ev with
  | Request _ _ (Some err) => negb (isinstance err BW.worker_caught)
  | _ => false
  end.

(** A request that returned. *)
Definition succeeded (ev : bw_event) : bool :=
  match ev with
  | Request _ _ None => true
  | _ => false
  end.

(** The calls to [write_batch] of a whole trace, in order, each with the
    message of its writer. *)
Definition requests_of (bw : BatchWriter) : list (scope * bool * list Item) :=
  flat_map (fun ev => match ev with
                      | Request d b _ => [(bw_message bw, d, b)]
                      | Put _ => []
                      end) (bw_log bw).

Definition kv_requests (tr : list event) : list (scope * bool * list Item) :=
  flat_map (fun ev => match ev with
                      | Writer bw => requests_of bw
                      | _ => []
                      end) tr.

(** The calls to [Flusher.run] of a trace. *)
Definition flush_calls (tr : list event) : list (list string) :=
  flat_map (fun ev => match ev with Flush paths => [paths] | _ => [] end) tr.

(** Every batch put on the queue is accounted for: it was handed to
    [write_batch], or a thread holds it, or it still waits in the queue. *)
Definition accounted (bw : BatchWriter) : Prop :=
  put_batches (bw_log bw)
  ≡ₚ requested_batches (bw_log bw) ++ held_batches (threads bw)
     ++ queued_batches (queue bw).

(** A request that did not fail with an exception of a class that the
    worker's [except] clause names. *)
Definition request_ok (ev : bw_event) : bool :=
  match ev with
  | Request _ _ (Some err) => negb (isinstance err BW.worker_caught)
  | _ => true
  end.

(** As long as no error is recorded, no request has failed with an exception
    the worker catches. *)
Definition failures_recorded (bw : BatchWriter) : Prop :=
  errors bw = [] -> forallb request_ok (bw_log bw) = true.

(** Every request of a writer carries the writer's [delete] flag. *)
Definition request_mode (delete : bool) (ev : bw_event) : bool :=
  match ev with
  | Request d _ _ => Bool.eqb d delete
  | Put _ => true
  end.

Definition requests_uniform (bw : BatchWriter) : Prop :=
  forallb (request_mode (bw_delete bw)) (bw_log bw) = true.

(** The shape of the queue: batches only while the block runs; once [stop]
    has begun, sentinels behind the batches. *)
Definition queue_shape (ph : phase) (bw : BatchWriter) : Prop :=
  match ph with
  | Open =>
      forallb (fun e => negb (is_sentinel e)) (queue bw) = true
      /\ sentinels_put (bw_log bw) = 0%nat
  | Stopping => sentinels_last (queue bw) = true
  end.

Definition invariant (ph : phase) (bw : BatchWriter) : Prop :=
  accounted bw /\ failures_recorded bw /\ requests_uniform bw
  /\ queue_shape ph bw.

(** What one thread holds. *)
Definition held_one (t : thread) : list (list Item) :=
  match t with InWrite b => [b] | _ => [] end.

(** How many steps a thread may still need before it looks at the queue
    again. *)
Definition weight (t : thread) : nat :=
  match t with
  | AtLoopHead => 2
  | InGet => 1
  | InWrite _ => 3
  | Exited => 0
  end.

(** A thread that is over, or no thread at all. *)
Definition over (t : option thread) : Prop := t = Some Exited \/ t = None.

(** [bw'] is a later state of the writer [bw]: same parameters, same number
    of threads, and the errors recorded so far still lead the list. *)
Definition same_writer (bw bw' : BatchWriter) : Prop :=
  bw_settings bw' = bw_settings bw /\ bw_message bw' = bw_message bw
  /\ bw_delete bw' = bw_delete bw
  /\ length (threads bw') = length (threads bw)
  /\ errors bw `prefix_of` errors bw'.

(** The item ids of a list of batches, as [queue_batches] collects them. *)
Definition ids_of (batches : list (list Item)) : list string :=
  flat_map (map item_id) batches.

(** ** A commit run *)


(** The commit is the same object, with the same rows in its session and in
    the store. *)
Definition same_rows (c c' : Commit) : Prop :=
  mode c' = mode c /\ settings c' = settings c /\ db c' = db c
  /\ stored c' = stored c.

(** A writer that [stop] left without raising: no error on record, every
    thread over, the queue drained, and every batch that was put on the
    queue handed to [write_batch], in the writer's mode, without a failure
    that the workers catch. *)
Definition closed_clean (bw : BatchWriter) : Prop :=
  errors bw = []
  /\ Forall (fun t => t = Exited) (threads bw)
  /\ queued_batches (queue bw) = []
  /\ put_batches (bw_log bw) ≡ₚ requested_batches (bw_log bw)
  /\ forallb request_ok (bw_log bw) = true
  /\ requests_uniform bw.

Definition terminal (s : TaskStates) : Prop := s = ts_complete \/ s = ts_failed.

(** The verdicts of [should_write]. *)
Inductive verdict (c : Commit) : Res bool -> Commit -> Prop :=
| verdict_write :
    (* every gate passed *)
    task_state (task (db c)) <> ts_complete ->
    task_state (task (db c)) <> ts_failed ->
    verdict c (Ret true) c
| verdict_done :
    (* the task is over already: nothing is done *)
    terminal (task_state (task (db c))) ->
    verdict c (Ret false) c
| verdict_settled c' :
    (* expired, publish not ready, or nothing to write *)
    terminal (task_state (task (db c'))) ->
    stored c' = db c' -> mode c' = mode c ->
    trace c' = trace c ++ [DbCommit] ->
    written_item_ids c' = written_item_ids c ->
    verdict c (Ret false) c'
| verdict_raise e c' :
    item_yield_size (settings c) = 0 ->
    verdict c (Raise e) c'.

(** ** Concrete inputs *)

Module Demo.

Definition settings : Settings :=
  {| item_yield_size := 5000; write_batch_size := 1; write_max_workers := 1;
     write_queue_size := 1000;
     entry_point_files := ["repomd.xml"; "treeinfo"]%string;
     phase2_patterns := [literal "/kickstart/"];
     autoindex_filename := ".__exodus_autoindex";
     cdn_flush_on_commit := true; mirror_writes_enabled := true |}.

Definition item (id uri : string) : Item :=
  {| item_id := id; item_publish_id := "P"; web_uri := uri;
     object_key := Some "key"%string; dirty := true |}.

Definition rows : list Item :=
  [item "1" "/a/x.rpm"; item "2" "/b/y.rpm"; item "3" "/c/repomd.xml"].

Definition database (ts : TaskStates) (ps : PublishStates) (dl : option Z)
    (its : list Item) : Db :=
  {| task := {| task_id := "T"; task_state := ts; deadline := dl |};
     publish := {| publish_id := "P"; publish_state := ps |};
     items := its; published_paths := [] |}.

(** The clock reads 100; every collaborator succeeds. *)
Definition world : World :=
  {| utcnow := 100; now_utc := 100;
     write_batch := fun _ _ => None;
     flusher_run := fun _ => None;
     enricher_run := None; enricher_items := [];
     uris_with_aliases := fun paths => paths |}.


(** DynamoDB refuses the write of item "2" and every delete. *)
Definition world_kv_fails : World :=
  {| utcnow := 100; now_utc := 100;
     write_batch := fun delete batch =>
       if delete then Some (Exc RuntimeError "Unprocessed items")
       else if str_in "2" (map item_id batch)
            then Some (Exc RuntimeError "Unprocessed items")
            else None;
     flusher_run := fun _ => None;
     enricher_run := None; enricher_items := [];
     uris_with_aliases := fun paths => paths |}.

End Demo.

(** Whether a trace shows a delete request for the item with this id. *)
Definition delete_requested (id : string) (tr : list event) : bool :=
  existsb (fun q => match q with
                    | (_, delete, batch) => delete && str_in id (map item_id batch)
                    end) (kv_requests tr).

(** A delete-mode writer of the rollback. *)
Definition rollback_writer (ev : event) : Prop :=
  exists bw, ev = Writer bw /\ bw_message bw = RollingBack
             /\ bw_delete bw = true /\ requests_uniform bw.


(* ===================================================================== *)
(** * settings.py: lists in .ini files, environments *)
(* ===================================================================== *)

Module Ini.

(** The line feed, the separator of [raw.split("\n")]. *)
Definition newline : ascii := ascii_of_nat 10.

(** [c.isspace()] for the characters up to U+00FF: tab to carriage return,
    the four information separators, the space, NEL and the no-break
    space. *)
Definition isspace (c : ascii) : bool :=
  let n := nat_of_ascii c in
  ((9 <=? n) && (n <=? 13) || (28 <=? n) && (n <=? 32)
   || (n =? 133) || (n =? 160))%nat.

(** [s.lstrip()] *)
Fixpoint lstrip (s : string) : string :=
  match s with
  | EmptyString => EmptyString
  | String c rest => if isspace c then lstrip rest else s
  end.

(** [s.rstrip()] *)
Fixpoint rstrip (s : string) : string :=
  match s with
  | EmptyString => EmptyString
  | String c rest =>
      match rstrip rest with
      | EmptyString => if isspace c then EmptyString else String c EmptyString
      | r => String c r
      end
  end.

(** [s.strip()] *)
Definition strip (s : string) : string := rstrip (lstrip s).

(** [s.split("\n")]: the pieces between the line feeds; one piece, the empty
    one, for the empty string. *)
Fixpoint split_lines (s : string) : list string :=
  match s with
  | EmptyString => [EmptyString]
  | String c rest =>
      if Ascii.eqb c newline then EmptyString :: split_lines rest
      else match split_lines rest with
           | piece :: pieces => String c piece :: pieces
           | [] => [String c EmptyString]
           end
  end.

(** ["\n".join(elems)] *)
Fixpoint join_lines (elems : list string) : string :=
  match elems with
  | [] => EmptyString
  | [elem] => elem
  | elem :: rest => (elem ++ String newline (join_lines rest))%string
  end.

(** [split_ini_list]:
    [if not raw: return []]
    [return [elem.strip() for elem in raw.split("\n") if elem.strip()]] *)
Definition split_ini_list (raw : option string) : list string :=
  match raw with
  | None | Some EmptyString => []
  | Some raw =>
      flat_map (fun elem =>
                  match strip elem with
                  | EmptyString => []
                  | stripped => [stripped]
                  end) (split_lines raw)
  end.

(** An element as [split_ini_list] returns them: not empty, no white space
    at either end, no line feed inside. *)
Fixpoint no_newline (s : string) : bool :=
  match s with
  | EmptyString => true
  | String c rest => negb (Ascii.eqb c newline) && no_newline rest
  end.

Definition first_char_ok (s : string) : bool :=
  match s with
  | EmptyString => false
  | String c _ => negb (isspace c)
  end.

Fixpoint last_char_ok (s : string) : bool :=
  match s with
  | EmptyString => false
  | String c EmptyString => negb (isspace c)
  | String _ rest => last_char_ok rest
  end.

Definition clean (s : string) : bool :=
  first_char_ok s && last_char_ok s && no_newline s.

End Ini.

(** The values an [and] chain of [Environment.fastpurge_enabled] can
    return. *)
Inductive pyval :=
| PyBool (b : bool)
| PyStr (s : string)
| PyNone.

(** [bool(v)] *)
Definition truthy (v : pyval) : bool :=
  match v with
  | PyBool b => b
  | PyStr EmptyString => false
  | PyStr (String _ _) => true
  | PyNone => false
  end.

(** [a and b]: [a] when [a] is falsy, otherwise [b]. *)
Definition py_and (a b : pyval) : pyval := if truthy a then b else a.

(** What [os.getenv] returns. *)
Definition of_getenv (v : option string) : pyval :=
  match v with
  | Some s => PyStr s
  | None => PyNone
  end.

(** The [Environment] class. The settings of an [env.<name>] section are
    read with [fallback=None]. *)
Record Environment := {
  env_name : string;
  aws_profile : option string;
  bucket : option string;
  table : option string;
  config_table : option string;
  cdn_url : option string;
  cdn_key_id : option string;
  cache_flush_rules : list CacheFlushRule
}.

(** [HTTPException(status_code=..., detail=...)] *)
Record HTTPException := {
  status_code : Z;
  detail : string
}.

Section Environ.

(** The process environment, [str.upper] and [repr] are Python's. *)
Variable getenv : string -> option string.
Variable upper : string -> string.
Variable repr : string -> string.

(** The four credential properties:
    [os.getenv("EXODUS_GW_FASTPURGE_..._%s" % self.name.upper())]. *)
Definition fastpurge_client_secret (e : Environment) : option string :=
  getenv ("EXODUS_GW_FASTPURGE_CLIENT_SECRET_" ++ upper (env_name e))%string.

Definition fastpurge_host (e : Environment) : option string :=
  getenv ("EXODUS_GW_FASTPURGE_HOST_" ++ upper (env_name e))%string.

Definition fastpurge_access_token (e : Environment) : option string :=
  getenv ("EXODUS_GW_FASTPURGE_ACCESS_TOKEN_" ++ upper (env_name e))%string.

Definition fastpurge_client_token (e : Environment) : option string :=
  getenv ("EXODUS_GW_FASTPURGE_CLIENT_TOKEN_" ++ upper (env_name e))%string.

(** [Environment.fastpurge_enabled]: the value of
    [bool(self.cache_flush_rules) and self.fastpurge_access_token
     and self.fastpurge_client_secret and self.fastpurge_client_token
     and self.fastpurge_host]. *)
Definition fastpurge_enabled (e : Environment) : pyval :=
  py_and
    (py_and
       (py_and
          (py_and
             (PyBool (match cache_flush_rules e with [] => false | _ :: _ => true end))
             (of_getenv (fastpurge_access_token e)))
          (of_getenv (fastpurge_client_secret e)))
       (of_getenv (fastpurge_client_token e)))
    (of_getenv (fastpurge_host e)).

(** [get_environment], given the settings' [environments]. *)
Fixpoint get_environment (env : string) (environments : list Environment)
    : HTTPException + Environment :=
  match environments with
  | [] =>
      inl {| status_code := 404;
             detail := ("Invalid environment=" ++ repr env)%string |}
  | env_obj :: rest =>
      if String.eqb (env_name env_obj) env then inr env_obj
      else get_environment env rest
  end.

End Environ.

(* ===================================================================== *)
(** * Vocabulary of the further properties *)
(* ===================================================================== *)

(** The items of a list of batches. *)
Definition batch_items (batches : list (list Item)) : list Item :=
  concat batches.

(** A writer tagged as the code tags it: every request carries the writer's
    [delete] flag, and only the writers of the rollback delete. *)
Definition writer_well_tagged (bw : BatchWriter) : Prop :=
  requests_uniform bw
  /\ (bw_delete bw = true <-> bw_message bw = RollingBack).

(** What an event of a run of [commit] on the commit object [c] can be. *)
Definition run_event (c : Commit) (ev : event) : Prop :=
  match ev with
  | Writer bw =>
      writer_well_tagged bw
      /\ (bw_message bw = WritingPhase2 -> mode c = phase2)
  | Flush _ => mode c = phase2 /\ cdn_flush_on_commit (settings c) = true
  | Enrich => mode c = phase2
  | LogTaskError | LogRollingBack _ | DbCommit => True
  end.

(** The item as [mark_clean] leaves it. *)
Definition cleaned (it : Item) : Item :=
  {| item_id := item_id it; item_publish_id := item_publish_id it;
     web_uri := web_uri it; object_key := object_key it; dirty := false |}.

(** The items that a commit of this class writes: all that it selects in
    phase 2, those that are no entry points in phase 1. *)
Definition to_write (c : Commit) (it : Item) : bool :=
  item_selected c it
  && match mode c with
     | phase1 => negb (is_phase2 (settings c) it)
     | phase2 => true
     end.

(** Whether a trace shows a write request for a batch with this item. *)
Definition write_requested (it : Item) (tr : list event) : Prop :=
  exists m batch, In (m, false, batch) (kv_requests tr) /\ In it batch.

(** The log of a writer records, for every request, what [write_batch]
    answered. *)
Definition faithful_event (w : World) (ev : bw_event) : Prop :=
  match ev with
  | Request d b o => o = write_batch w d b
  | Put _ => True
  end.

(** A trace shows that the item was written: a write request for a batch
    with this item, which [write_batch] did not answer with an exception
    that the workers catch. *)
Definition written_ok (w : World) (it : Item) (tr : list event) : Prop :=
  exists m batch,
    In (m, false, batch) (kv_requests tr) /\ In it batch
    /\ forall e, write_batch w false batch = Some e ->
                 isinstance e BW.worker_caught = false.

(** [c'] is a later state of the commit [c]: same class, same settings, and
    the trace has grown by events that a run on [c] can show. *)
Definition grows (c c' : Commit) : Prop :=
  mode c' = mode c /\ settings c' = settings c
  /\ exists evs, trace c' = trace c ++ evs /\ Forall (run_event c) evs.

(** A string without a slash. *)
Fixpoint no_slash (s : string) : bool :=
  match s with
  | EmptyString => true
  | String c rest => negb (Ascii.eqb c "/") && no_slash rest
  end.


(** The entries that a log shows were put on the queue, in the order of
    the puts. *)
Definition entries_put (log : list bw_event) : list entry :=
  flat_map (fun ev => match ev with
                      | Put x => [x]
                      | Request _ _ _ => []
                      end) log.






(** A thread that is over, and how many of them there are. *)
Definition is_exited (t : thread) : bool :=
  match t with
  | Exited => true
  | _ => false
  end.

Definition exited_count (ts : list thread) : nat :=
  length (List.filter is_exited ts).

(** The entries [taken] are what the worker threads of the writer have
    taken off its queue: the queue is first in, first out, so that all that
    was put on it is there, in the order of the puts, but for what was
    taken from its head; the batches taken are those that were handed to
    [write_batch] or are held by a thread; and for every sentinel taken a
    thread is over. *)
Definition taken_by_workers (bw : BatchWriter) (taken : list entry) : Prop :=
  entries_put (bw_log bw) = taken ++ queue bw
  /\ queued_batches taken
     ≡ₚ requested_batches (bw_log bw) ++ held_batches (threads bw)
  /\ (length (List.filter is_sentinel taken) <= exited_count (threads bw))%nat.

(* ===================================================================== *)
(** * The item classifier and the cache-flush rules *)
(* ===================================================================== *)

Section Classifier.

Lemma str_in_In (x : string) (l : list string) :
  str_in x l = true <-> In x l.
Proof.
  unfold str_in. rewrite existsb_exists. split.
  - intros (y & Hy & Heq). apply String.eqb_eq in Heq. now subst.
  - intros H. exists x. split; [assumption | apply String.eqb_refl].
Qed.

Lemma search_any_exists (patterns : list Pattern) (path : string) :
  search_any patterns path = true <->
  exists pattern, In pattern patterns /\ search pattern path = true.
Proof.
  induction patterns as [| p rest IH]; simpl.
  - split; [discriminate | intros (? & [] & _)].
  - destruct (search p path) eqn:Hp.
    + split; [intros _; exists p; auto | reflexivity].
    + rewrite IH. split.
      * intros (q & Hq & Hs). exists q. auto.
      * intros (q & [-> | Hq] & Hs); [congruence | exists q; auto].
Qed.

Lemma search_any_none (patterns : list Pattern) (path : string) :
  search_any patterns path = false <->
  forall pattern, In pattern patterns -> search pattern path = false.
Proof.
  split.
  - intros H p Hp. destruct (search p path) eqn:Hs; [| reflexivity].
    assert (search_any patterns path = true) by (apply search_any_exists; eauto).
    congruence.
  - intros H. destruct (search_any patterns path) eqn:Hs; [| reflexivity].
    apply search_any_exists in Hs as (p & Hp & Hs). rewrite (H p Hp) in Hs.
    discriminate.
Qed.

End Classifier.

(** C7. [is_phase2] answers true exactly when the basename of the item's
    [web_uri] is the autoindex filename, or is one of [entry_point_files], or
    the [web_uri] is found by one of [phase2_patterns]. The answer is a
    function of the [web_uri] and of these three settings alone: two
    snapshots that agree on them classify alike. *)
Theorem is_phase2_iff (s : Settings) (item : Item) :
  (is_phase2 s item = true <->
     basename (web_uri item) = autoindex_filename s
     \/ In (basename (web_uri item)) (entry_point_files s)
     \/ exists pattern,
          In pattern (phase2_patterns s)
          /\ search pattern (web_uri item) = true)
  /\ (forall (s' : Settings) (item' : Item),
        autoindex_filename s' = autoindex_filename s ->
        entry_point_files s' = entry_point_files s ->
        phase2_patterns s' = phase2_patterns s ->
        web_uri item' = web_uri item ->
        is_phase2 s' item' = is_phase2 s item).
Proof.
  split.
  - unfold is_phase2.
    destruct (String.eqb_spec (basename (web_uri item)) (autoindex_filename s))
      as [Heq | Hne]; simpl.
    + split; auto.
    + destruct (str_in (basename (web_uri item)) (entry_point_files s)) eqn:Hin.
      * apply str_in_In in Hin. split; auto.
      * rewrite search_any_exists. split; [auto |].
        intros [H | [H | H]]; [contradiction | | assumption].
        apply str_in_In in H. congruence.
  - intros s' item' Ha He Hp Hu. unfold is_phase2.
    now rewrite Ha, He, Hp, Hu.
Qed.

(** C8. [CacheFlushRule.matches] answers true exactly when the path, with
    its leading slash normalized, is found by at least one [includes]
    pattern and by no [excludes] pattern. Hence a path gets the same answer
    whether it is given with its leading slash or without. *)
Theorem matches_iff (rule : CacheFlushRule) (path : string) :
  (CacheFlushRule.matches rule path = true <->
     (exists pattern,
        In pattern (includes rule)
        /\ search pattern (CacheFlushRule.normalized path) = true)
     /\ (forall pattern,
           In pattern (excludes rule) ->
           search pattern (CacheFlushRule.normalized path) = false))
  /\ CacheFlushRule.matches rule (String "/" (removeprefix_slash path))
     = CacheFlushRule.matches rule path
  /\ (removeprefix_slash path = path ->
      CacheFlushRule.matches rule (String "/" path)
      = CacheFlushRule.matches rule path).
Proof.
  assert (Hnorm : forall p,
             CacheFlushRule.normalized (String "/" p)
             = String "/" p).
  { intros p. reflexivity. }
  split; [| split].
  - unfold CacheFlushRule.matches.
    destruct (search_any (includes rule) (CacheFlushRule.normalized path)) eqn:Hi.
    + apply search_any_exists in Hi.
      destruct (search_any (excludes rule) (CacheFlushRule.normalized path)) eqn:He.
      * split; [discriminate |]. intros [_ H].
        apply (proj2 (search_any_none _ _)) in H. congruence.
      * pose proof (proj1 (search_any_none _ _) He). split; auto.
    + split; [discriminate |]. intros [H _].
      apply search_any_exists in H. congruence.
  - unfold CacheFlushRule.matches. now rewrite Hnorm.
  - intros Hp. unfold CacheFlushRule.matches. rewrite Hnorm.
    unfold CacheFlushRule.normalized. now rewrite Hp.
Qed.

(* ===================================================================== *)
(** * _BatchWriter: the worker threads *)
(* ===================================================================== *)

#[local] Arguments isinstance : simpl never.

Section Workers.

Context (w : World).

(** What the step functions do is a [move], or nothing. *)
Lemma worker_step_move (i : nat) (bw : BatchWriter) :
  BW.worker_step w i bw = bw \/ move w bw (BW.worker_step w i bw).
Proof.
  unfold BW.worker_step.
  destruct (threads bw !! i) as [[| | got |] |] eqn:Hi; auto.
  - destruct (errors bw) eqn:He; right.
    + now apply move_enter_get.
    + apply move_leave; [assumption | congruence].
  - destruct (queue bw) as [| [| got] q] eqn:Hq; auto; right.
    + now apply move_got_sentinel.
    + now apply move_got_batch.
  - destruct (write_batch w (bw_delete bw) got) eqn:Hw; right.
    + now apply move_failed.
    + now apply move_written.
Qed.

Lemma worker_timeout_move (i : nat) (bw : BatchWriter) :
  BW.worker_timeout i bw = bw \/ move w bw (BW.worker_timeout i bw).
Proof.
  unfold BW.worker_timeout.
  destruct (threads bw !! i) as [[| | got |] |] eqn:Hi; auto.
  destruct (queue bw) eqn:Hq; auto. right. now apply move_timeout.
Qed.

Lemma run_ticks_moves (sched : list tick) (bw : BatchWriter) :
  rtc (move w) bw (BW.run_ticks w bw sched).1.
Proof.
  revert bw. induction sched as [| [i | i |] rest IH]; intros bw; simpl;
    try reflexivity.
  - destruct (worker_step_move i bw) as [-> | Hm]; [apply IH |].
    eapply rtc_l; [exact Hm | apply IH].
  - destruct (worker_timeout_move i bw) as [-> | Hm]; [apply IH |].
    eapply rtc_l; [exact Hm | apply IH].
Qed.

Lemma run_to_exit_moves (fuel i : nat) (bw : BatchWriter) :
  rtc (move w) bw (BW.run_to_exit w fuel i bw).
Proof.
  revert bw. induction fuel as [| fuel IH]; intros bw; simpl; [reflexivity |].
  assert (Hstep : rtc (move w) bw (BW.run_to_exit w fuel i (BW.worker_step w i bw))).
  { destruct (worker_step_move i bw) as [-> | Hm]; [apply IH |].
    eapply rtc_l; [exact Hm | apply IH]. }
  destruct (threads bw !! i) as [[| | got |] |]; try assumption; try reflexivity.
  destruct (queue bw); [| assumption].
  destruct (worker_timeout_move i bw) as [-> | Hm]; [reflexivity |].
  now apply rtc_once.
Qed.

Lemma join_all_moves (js : list nat) (bw : BatchWriter) :
  rtc (move w) bw
    (fold_left (fun bw i => BW.run_to_exit w (BW.exit_fuel bw) i bw) js bw).
Proof.
  revert bw. induction js as [| i js IH]; intros bw; simpl; [reflexivity |].
  etrans; [apply run_to_exit_moves | apply IH].
Qed.

Lemma join_moves (sched : list tick) (bw : BatchWriter) :
  rtc (move w) bw (BW.join w bw sched).1.
Proof.
  unfold BW.join. pose proof (run_ticks_moves sched bw) as H.
  destruct (BW.run_ticks w bw sched) as [bw1 s1]. simpl in *.
  etrans; [exact H | apply join_all_moves].
Qed.

Lemma reachable_moves (ph : phase) (bw bw' : BatchWriter) :
  rtc (move w) bw bw' -> reachable w ph bw -> reachable w ph bw'.
Proof.
  intros Hrtc. induction Hrtc; intros Hr; [assumption |].
  apply IHHrtc. eapply reach_move; eassumption.
Qed.

(** Moves leave the writer's parameters and the number of its threads as
    they are, only add to the errors, and put nothing on the queue. *)
Lemma move_frame (bw bw' : BatchWriter) :
  move w bw bw' ->
  same_writer bw bw'
  /\ put_batches (bw_log bw') = put_batches (bw_log bw)
  /\ sentinels_put (bw_log bw') = sentinels_put (bw_log bw).
Proof.
  assert (Hlog : forall d b o l,
             put_batches (l ++ [Request d b o]) = put_batches l
             /\ sentinels_put (l ++ [Request d b o]) = sentinels_put l).
  { intros. unfold put_batches, sentinels_put.
    rewrite flat_map_app, List.filter_app. simpl.
    rewrite !app_nil_r. auto. }
  unfold same_writer.
  destruct 1; unfold BW.worker_raise, BW.worker_except; simpl;
    repeat match goal with
           | |- context [if ?b then _ else _] => destruct b; simpl
           end;
    rewrite ?length_insert;
    repeat split; auto;
    try apply Hlog;
    try reflexivity;
    try (now apply prefix_app_r).
Qed.

Lemma same_writer_refl (bw : BatchWriter) : same_writer bw bw.
Proof. unfold same_writer. repeat split; reflexivity. Qed.

Lemma same_writer_trans (bw1 bw2 bw3 : BatchWriter) :
  same_writer bw1 bw2 -> same_writer bw2 bw3 -> same_writer bw1 bw3.
Proof.
  unfold same_writer.
  intros (-> & -> & -> & -> & H1) (-> & -> & -> & -> & H2).
  repeat split; auto. etrans; eassumption.
Qed.

Lemma moves_frame (bw bw' : BatchWriter) :
  rtc (move w) bw bw' ->
  same_writer bw bw'
  /\ put_batches (bw_log bw') = put_batches (bw_log bw)
  /\ sentinels_put (bw_log bw') = sentinels_put (bw_log bw).
Proof.
  induction 1 as [| bw bw1 bw2 Hm _ IH];
    [split; [apply same_writer_refl | split; reflexivity] |].
  apply move_frame in Hm.
  destruct IH as (Hs' & -> & ->).
  destruct Hm as (Hs & -> & ->).
  split; [eapply same_writer_trans; eassumption | split; reflexivity].
Qed.

Lemma same_writer_errors (bw bw' : BatchWriter) :
  same_writer bw bw' -> errors bw' = [] -> errors bw = [].
Proof.
  intros (_ & _ & _ & _ & [k Hk]) He. rewrite He in Hk.
  symmetry in Hk. now apply app_eq_nil in Hk.
Qed.

Lemma same_writer_In (bw bw' : BatchWriter) (e : exc) :
  same_writer bw bw' -> In e (errors bw) -> In e (errors bw').
Proof.
  intros (_ & _ & _ & _ & [k Hk]) He. rewrite Hk. apply in_or_app. auto.
Qed.

End Workers.

(* ===================================================================== *)
(** * _BatchWriter: what holds of every reachable writer *)
(* ===================================================================== *)

Section Invariant.

Context (w : World).

(** Replacing the state of one thread changes what the threads hold by
    what that thread holds. *)
Lemma held_batches_insert (ts : list thread) (i : nat) (t0 : thread) :
  ts !! i = Some t0 ->
  exists rest,
    held_batches ts ≡ₚ held_one t0 ++ rest
    /\ forall t, held_batches (<[i:=t]> ts) ≡ₚ held_one t ++ rest.
Proof.
  revert i. induction ts as [| t1 ts IH]; intros i Hi; [discriminate |].
  destruct i as [| i]; simpl in *.
  - injection Hi as ->. exists (held_batches ts). split; [reflexivity |].
    intros t. reflexivity.
  - destruct (IH i Hi) as (rest & H0 & H1).
    exists (held_one t1 ++ rest). split.
    + fold (held_one t1). fold (held_batches ts). rewrite H0. solve_Permutation.
    + intros t. fold (held_one t1). fold (held_batches (<[i:=t]> ts)).
      rewrite H1. solve_Permutation.
Qed.

Lemma held_batches_repeat (n : nat) : held_batches (repeat AtLoopHead n) = [].
Proof. induction n; simpl; auto. Qed.

Lemma sentinels_last_tail (e : entry) (q : list entry) :
  sentinels_last (e :: q) = true -> sentinels_last q = true.
Proof.
  destruct e; simpl; [| auto]. destruct q as [| [| b] q]; simpl; auto.
  discriminate.
Qed.

Lemma sentinels_last_snoc (q : list entry) :
  sentinels_last q = true -> sentinels_last (q ++ [Sentinel]) = true.
Proof.
  induction q as [| [| b] q IH]; simpl; auto.
  intros H. rewrite forallb_app, H. reflexivity.
Qed.

Lemma batches_sentinels_last (q : list entry) :
  forallb (fun e => negb (is_sentinel e)) q = true -> sentinels_last q = true.
Proof.
  induction q as [| [| b] q IH]; simpl; auto. discriminate.
Qed.

(** A queue in shape whose head is no batch holds no batch at all. *)
Lemma sentinels_last_no_batch (q : list entry) :
  sentinels_last q = true ->
  (forall b rest, q <> Batch b :: rest) ->
  queued_batches q = [].
Proof.
  destruct q as [| [| b] q]; simpl; auto.
  - intros H _. induction q as [| [| b] q IH]; simpl in *; auto.
    discriminate.
  - intros _ H. now destruct (H b q).
Qed.

Lemma accounted_move (bw bw' : BatchWriter) :
  move w bw bw' -> accounted bw -> accounted bw'.
Proof.
  unfold accounted.
  destruct 1 as [i bw Hi He | i bw Hi He | i bw q Hi Hq | i bw got q Hi Hq
                | i bw got Hi Hw | i bw got err Hi Hw | i bw Hi Hq];
    intros Hacc;
    destruct (held_batches_insert _ _ _ Hi) as (rest & H0 & H1);
    unfold BW.worker_raise, BW.worker_except; simpl;
    repeat match goal with
           | |- context [if ?b then _ else _] => destruct b; simpl
           end;
    rewrite ?Hq in *; simpl in *;
    unfold requested_batches, put_batches in *;
    rewrite ?flat_map_app; simpl; rewrite ?app_nil_r;
    rewrite Hacc, H0, H1; simpl; solve_Permutation.
Qed.

Lemma failures_recorded_move (bw bw' : BatchWriter) :
  move w bw bw' -> failures_recorded bw -> failures_recorded bw'.
Proof.
  unfold failures_recorded.
  destruct 1 as [i bw Hi He | i bw Hi He | i bw q Hi Hq | i bw got q Hi Hq
                | i bw got Hi Hw | i bw got err Hi Hw | i bw Hi Hq];
    simpl; auto.
  - intros H He. rewrite forallb_app, (H He). reflexivity.
  - unfold BW.worker_raise, BW.worker_except.
    destruct (isinstance err BW.worker_caught) eqn:Hc; simpl.
    + intros _ Habs. now destruct (app_cons_not_nil _ _ _ (eq_sym Habs)).
    + intros H He. rewrite forallb_app, (H He). simpl. now rewrite Hc.
  - unfold BW.worker_raise, BW.worker_except. simpl.
    intros _ Habs. now destruct (app_cons_not_nil _ _ _ (eq_sym Habs)).
Qed.

Lemma requests_uniform_move (bw bw' : BatchWriter) :
  move w bw bw' -> requests_uniform bw -> requests_uniform bw'.
Proof.
  unfold requests_uniform.
  destruct 1; unfold BW.worker_raise, BW.worker_except; simpl;
    repeat match goal with
           | |- context [if ?b then _ else _] => destruct b; simpl
           end;
    auto; intros Hu; rewrite forallb_app, Hu; simpl;
    now rewrite Bool.eqb_reflx.
Qed.

Lemma queue_shape_move (ph : phase) (bw bw' : BatchWriter) :
  move w bw bw' -> queue_shape ph bw -> queue_shape ph bw'.
Proof.
  intros Hm Hs.
  assert (Hq : queue bw' = queue bw
               \/ exists e, queue bw = e :: queue bw').
  { destruct Hm; unfold BW.worker_raise, BW.worker_except; simpl;
      repeat match goal with
             | |- context [if ?b then _ else _] => destruct b; simpl
             end; eauto. }
  destruct (move_frame w _ _ Hm) as (_ & _ & Hsent).
  destruct ph; simpl in *.
  - rewrite Hsent. destruct Hs as [Hs ?]. split; [| assumption].
    destruct Hq as [-> | [e Hq]]; [assumption |].
    rewrite Hq in Hs. simpl in Hs. now apply andb_prop in Hs.
  - destruct Hq as [-> | [e Hq]]; [assumption |].
    rewrite Hq in Hs. eapply sentinels_last_tail; eassumption.
Qed.

Lemma put_batches_snoc (l : list bw_event) (x : entry) :
  put_batches (l ++ [Put x]) = put_batches l ++ queued_batches [x].
Proof.
  unfold put_batches, queued_batches. rewrite flat_map_app. simpl.
  destruct x; reflexivity.
Qed.

Lemma queued_batches_snoc (q : list entry) (x : entry) :
  queued_batches (q ++ [x]) = queued_batches q ++ queued_batches [x].
Proof. unfold queued_batches. now rewrite flat_map_app. Qed.

Lemma requested_batches_put (l : list bw_event) (x : entry) :
  requested_batches (l ++ [Put x]) = requested_batches l.
Proof.
  unfold requested_batches. rewrite flat_map_app. simpl. apply app_nil_r.
Qed.

Lemma accounted_push (x : entry) (bw : BatchWriter) :
  accounted bw -> accounted (BW.push x bw).
Proof.
  unfold accounted, BW.push. simpl. intros H.
  rewrite put_batches_snoc, queued_batches_snoc, requested_batches_put, H.
  solve_Permutation.
Qed.

Lemma sentinels_put_snoc (l : list bw_event) (ev : bw_event) :
  sentinels_put (l ++ [ev])
  = (sentinels_put l
     + match ev with Put Sentinel => 1 | _ => 0 end)%nat.
Proof.
  unfold sentinels_put. rewrite List.filter_app, length_app. simpl.
  destruct ev as [[| b] | d b o]; reflexivity.
Qed.

(** The invariant of a writer. *)
Lemma reachable_invariant (ph : phase) (bw : BatchWriter) :
  reachable w ph bw -> invariant ph bw.
Proof.
  induction 1 as [s n m d | ph bw bw' _ IH Hm | bw b _ IH Hfull | bw k _ IH
                 | ph bw err _ IH | bw _ IH | bw _ IH Hfull].
  - unfold invariant, accounted, failures_recorded, requests_uniform. simpl.
    rewrite held_batches_repeat. repeat split; reflexivity.
  - destruct IH as (Ha & Hf & Hu & Hs).
    repeat split;
      eauto using accounted_move, failures_recorded_move,
        requests_uniform_move, queue_shape_move.
  - destruct IH as (Ha & Hf & Hu & Hs & Hn).
    split; [now apply accounted_push |].
    unfold failures_recorded, requests_uniform in *. simpl.
    rewrite !forallb_app, sentinels_put_snoc, Hs, Hu, Hn. simpl.
    repeat split; auto. intros He. now rewrite (Hf He).
  - exact IH.
  - destruct IH as (Ha & Hf & Hu & Hs).
    repeat split; try assumption.
    intros Habs. simpl in Habs.
    now destruct (app_cons_not_nil _ _ _ (eq_sym Habs)).
  - destruct IH as (Ha & Hf & Hu & Hs & Hn).
    repeat split; try assumption. simpl.
    now apply batches_sentinels_last.
  - destruct IH as (Ha & Hf & Hu & Hs).
    split; [now apply accounted_push |].
    unfold failures_recorded, requests_uniform in *. simpl in *.
    rewrite !forallb_app, Hu. simpl.
    repeat split; auto using sentinels_last_snoc.
    intros He. now rewrite (Hf He).
Qed.

End Invariant.

(* ===================================================================== *)
(** * _BatchWriter: [join] ends with every thread over *)
(* ===================================================================== *)

Section Join.

Context (w : World).

Lemma with_thread_lookup (i : nat) (t t0 : thread) (bw : BatchWriter) :
  threads bw !! i = Some t0 -> threads (BW.with_thread i t bw) !! i = Some t.
Proof.
  intros Hi. simpl. apply list_lookup_insert_eq. eapply lookup_lt_Some, Hi.
Qed.

Lemma worker_raise_lookup (i : nat) (err : exc) (t0 : thread) (bw : BatchWriter) :
  threads bw !! i = Some t0 ->
  threads (BW.worker_raise i err bw) !! i = Some Exited.
Proof.
  intros Hi. unfold BW.worker_raise, BW.worker_except.
  repeat match goal with
         | |- context [if ?b then _ else _] => destruct b
         end; now apply with_thread_lookup with t0.
Qed.

Lemma worker_raise_queue (i : nat) (err : exc) (bw : BatchWriter) :
  queue (BW.worker_raise i err bw) = queue bw.
Proof.
  unfold BW.worker_raise, BW.worker_except.
  repeat match goal with
         | |- context [if ?b then _ else _] => destruct b
         end; reflexivity.
Qed.

(** The fuel of [run_to_exit] suffices. *)
Lemma run_to_exit_exits (fuel i : nat) (bw : BatchWriter) (t : thread) :
  threads bw !! i = Some t ->
  (3 * length (queue bw) + weight t <= fuel)%nat ->
  threads (BW.run_to_exit w fuel i bw) !! i = Some Exited.
Proof.
  revert bw t. induction fuel as [| fuel IH]; intros bw t Hi Hfuel.
  - destruct t; simpl in *; try lia. assumption.
  - simpl. rewrite Hi. destruct t as [| | got |]; simpl in Hfuel.
    + unfold BW.worker_step. rewrite Hi. destruct (errors bw).
      * eapply IH; [eapply with_thread_lookup, Hi |]. simpl. lia.
      * eapply IH; [eapply with_thread_lookup, Hi |]. simpl. lia.
    + destruct (queue bw) as [| e q] eqn:Hq.
      * unfold BW.worker_timeout. rewrite Hi, Hq.
        eapply worker_raise_lookup, Hi.
      * unfold BW.worker_step. rewrite Hi, Hq. simpl in Hfuel.
        destruct e as [| got].
        -- eapply IH; [eapply with_thread_lookup; simpl; exact Hi |].
           simpl. lia.
        -- eapply IH; [eapply with_thread_lookup; simpl; exact Hi |].
           simpl. lia.
    + unfold BW.worker_step. rewrite Hi.
      destruct (write_batch w (bw_delete bw) got) as [err |].
      * eapply IH; [eapply worker_raise_lookup; simpl; exact Hi |].
        rewrite worker_raise_queue. simpl. lia.
      * eapply IH; [eapply with_thread_lookup; simpl; exact Hi |].
        simpl. lia.
    + assumption.
Qed.

(** A move of thread [i] leaves the other threads where they are. *)
Lemma worker_step_other (i j : nat) (bw : BatchWriter) :
  i <> j -> threads (BW.worker_step w i bw) !! j = threads bw !! j.
Proof.
  intros Hne. unfold BW.worker_step, BW.worker_raise, BW.worker_except.
  repeat match goal with
         | |- context [match ?x with _ => _ end] => destruct x; simpl
         end;
    try reflexivity; now apply list_lookup_insert_ne.
Qed.

Lemma worker_timeout_other (i j : nat) (bw : BatchWriter) :
  i <> j -> threads (BW.worker_timeout i bw) !! j = threads bw !! j.
Proof.
  intros Hne. unfold BW.worker_timeout, BW.worker_raise, BW.worker_except.
  repeat match goal with
         | |- context [match ?x with _ => _ end] => destruct x; simpl
         end;
    try reflexivity; now apply list_lookup_insert_ne.
Qed.

Lemma run_to_exit_other (fuel i j : nat) (bw : BatchWriter) :
  i <> j -> threads (BW.run_to_exit w fuel i bw) !! j = threads bw !! j.
Proof.
  intros Hne. revert bw. induction fuel as [| fuel IH]; intros bw; simpl;
    [reflexivity |].
  destruct (threads bw !! i) as [[| | got |] |]; try reflexivity;
    try (rewrite IH; now apply worker_step_other).
  destruct (queue bw);
    [now apply worker_timeout_other
    | rewrite IH; now apply worker_step_other].
Qed.

Lemma join_all_exited (js : list nat) (bw : BatchWriter) :
  (forall i, In i js \/ over (threads bw !! i)) ->
  forall i,
    over (threads (fold_left
                     (fun bw i => BW.run_to_exit w (BW.exit_fuel bw) i bw)
                     js bw) !! i).
Proof.
  revert bw. induction js as [| j js IH]; intros bw H i; simpl.
  - destruct (H i) as [[] | Ho]; exact Ho.
  - apply IH. intros k. destruct (Nat.eq_dec j k) as [-> | Hne].
    + right. destruct (threads bw !! k) as [t |] eqn:Hk.
      * left. eapply run_to_exit_exits; [exact Hk |].
        unfold BW.exit_fuel. destruct t; simpl; lia.
      * right. destruct (BW.exit_fuel bw) as [| fuel]; simpl; [assumption |].
        now rewrite Hk.
    + rewrite run_to_exit_other by assumption.
      destruct (H k) as [[-> | Hin] | Ho]; [contradiction | auto | auto].
Qed.

(** [join] returns with every thread over. *)
Lemma join_exited (sched : list tick) (bw : BatchWriter) :
  Forall (fun t => t = Exited) (threads (BW.join w bw sched).1).
Proof.
  unfold BW.join. destruct (BW.run_ticks w bw sched) as [bw1 s1]. simpl.
  apply Forall_forall. intros t Ht.
  apply (proj1 (list_elem_of_lookup _ _)) in Ht as [i Hi].
  pose proof (join_all_exited (seq 0 (length (threads bw1))) bw1) as H.
  destruct (H ltac:(intros k; destruct (lt_dec k (length (threads bw1)));
                    [left; apply in_seq; lia
                    | right; right; apply lookup_ge_None; lia]) i)
    as [Ho | Ho]; congruence.
Qed.

Lemma held_batches_exited (ts : list thread) :
  Forall (fun t => t = Exited) ts -> held_batches ts = [].
Proof. induction 1 as [| t ts -> _ IH]; simpl; auto. Qed.

End Join.

(* ===================================================================== *)
(** * _BatchWriter: the thread that owns the writer *)
(* ===================================================================== *)

Section Owner.

Context (w : World).

Lemma push_same_writer (x : entry) (bw : BatchWriter) :
  same_writer bw (BW.push x bw).
Proof. unfold same_writer. repeat split; reflexivity. Qed.

Lemma append_error_same_writer (err : exc) (bw : BatchWriter) :
  same_writer bw (BW.append_error err bw).
Proof.
  unfold same_writer. repeat split; try reflexivity. now apply prefix_app_r.
Qed.

Lemma adjust_total_same_writer (k : Z) (bw : BatchWriter) :
  same_writer bw (BW.adjust_total k bw).
Proof. unfold same_writer. repeat split; reflexivity. Qed.

Lemma run_ticks_fst (bw : BatchWriter) (sched : list tick) bw1 s1 :
  BW.run_ticks w bw sched = (bw1, s1) -> rtc (move w) bw bw1.
Proof. intros H. pose proof (run_ticks_moves w sched bw) as Hm. now rewrite H in Hm. Qed.

(** [put] lets the workers move, then either appends its entry or raises
    [Full] on a full queue. *)
Lemma put_spec (x : entry) (bw : BatchWriter) (sched : list tick) r bw' s' :
  BW.put w x bw sched = (r, bw', s') ->
  exists bw1,
    rtc (move w) bw bw1
    /\ ((r = None /\ BW.queue_full bw1 = false /\ bw' = BW.push x bw1)
        \/ (r = Some (Exc Full "") /\ BW.queue_full bw1 = true /\ bw' = bw1)).
Proof.
  unfold BW.put. destruct (BW.run_ticks w bw sched) as [bw1 s1] eqn:Ht.
  apply run_ticks_fst in Ht. intros H. exists bw1. split; [assumption |].
  destruct (BW.queue_full bw1); injection H as <- <- <-; auto.
Qed.

(** [queue_batches]: the ids it returns are those of the batches it put on
    the queue, in order; and unless an error is on record when it returns,
    these are all the batches. *)
Lemma queue_batches_loop_spec (batches : list (list Item)) ids bw sched ids' bw' s' :
  BW.queue_batches_loop w batches ids bw sched = (ids', bw', s') ->
  reachable w Open bw ->
  reachable w Open bw' /\ same_writer bw bw'
  /\ exists queued,
       put_batches (bw_log bw') = put_batches (bw_log bw) ++ queued
       /\ ids' = ids ++ ids_of queued
       /\ (errors bw' = [] -> queued = batches).
Proof.
  revert ids bw sched. induction batches as [| batch rest IH];
    intros ids bw sched Hrun Hr; simpl in Hrun.
  - injection Hrun as <- <- <-.
    split; [assumption |]. split; [apply same_writer_refl |].
    exists []. now rewrite !app_nil_r.
  - destruct (BW.run_ticks w bw sched) as [bw1 s1] eqn:Ht.
    apply run_ticks_fst in Ht.
    pose proof (reachable_moves w _ _ _ Ht Hr) as Hr1.
    destruct (moves_frame w _ _ Ht) as (Hs1 & Hp1 & _).
    destruct (errors bw1) as [| e1 es1] eqn:He1.
    + destruct (BW.put w (Batch batch) bw1 s1) as [[r bw2] s2] eqn:Hput.
      destruct (put_spec _ _ _ _ _ _ Hput)
        as (bw1' & Hm & [(-> & Hfull & ->) | (-> & Hfull & ->)]).
      * pose proof (reachable_moves w _ _ _ Hm Hr1) as Hr1'.
        destruct (moves_frame w _ _ Hm) as (Hs1' & Hp1' & _).
        destruct (IH _ _ _ Hrun (reach_put_batch w _ batch Hr1' Hfull))
          as (Hr' & Hs' & queued & Hq & -> & Hall).
        split; [assumption |]. split.
        { eauto using same_writer_trans, push_same_writer. }
        exists (batch :: queued). repeat split.
        -- rewrite Hq. simpl. rewrite put_batches_snoc, Hp1', Hp1. simpl.
           now rewrite <- app_assoc.
        -- unfold ids_of. simpl. now rewrite <- app_assoc.
        -- intros He. now rewrite (Hall He).
      * pose proof (reachable_moves w _ _ _ Hm Hr1) as Hr1'.
        destruct (moves_frame w _ _ Hm) as (Hs1' & Hp1' & _).
        destruct (IH _ _ _ Hrun (reach_error w _ _ (Exc Full "") Hr1'))
          as (Hr' & Hs' & queued & Hq & -> & Hall).
        split; [assumption |]. split.
        { eauto using same_writer_trans, append_error_same_writer. }
        exists queued. repeat split.
        -- rewrite Hq. simpl. now rewrite Hp1', Hp1.
        -- intros He. apply (same_writer_errors _ _ Hs') in He.
           simpl in He. now destruct (app_cons_not_nil _ _ _ (eq_sym He)).
    + destruct (IH _ _ _ Hrun Hr1) as (Hr' & Hs' & queued & Hq & -> & Hall).
      split; [assumption |]. split.
      { eauto using same_writer_trans. }
      exists queued. repeat split.
      * now rewrite Hq, Hp1.
      * intros He. apply (same_writer_errors _ _ Hs') in He. congruence.
Qed.

(** The first loop of [stop]: [n] sentinels reach the queue, or fewer and a
    [Full] is on record. *)
Lemma put_sentinels_spec (n : nat) bw sched bw' s' :
  BW.put_sentinels w n bw sched = (bw', s') ->
  reachable w Stopping bw ->
  reachable w Stopping bw' /\ same_writer bw bw'
  /\ put_batches (bw_log bw') = put_batches (bw_log bw)
  /\ (sentinels_put (bw_log bw') = sentinels_put (bw_log bw) + n
      \/ (sentinels_put (bw_log bw') < sentinels_put (bw_log bw) + n
          /\ In (Exc Full "") (errors bw')))%nat.
Proof.
  revert bw sched. induction n as [| n IH]; intros bw sched Hrun Hr;
    simpl in Hrun.
  - injection Hrun as <- <-.
    split; [assumption |]. split; [apply same_writer_refl |].
    split; [reflexivity |]. left. lia.
  - destruct (BW.put w Sentinel bw sched) as [[r bw2] s2] eqn:Hput.
    destruct (put_spec _ _ _ _ _ _ Hput)
      as (bw1 & Hm & [(-> & Hfull & ->) | (-> & Hfull & ->)]);
      pose proof (reachable_moves w _ _ _ Hm Hr) as Hr1;
      destruct (moves_frame w _ _ Hm) as (Hs1 & Hp1 & Hn1).
    + destruct (IH _ _ Hrun (reach_put_sentinel w _ Hr1 Hfull))
        as (Hr' & Hs' & Hp & Hn).
      split; [assumption |]. split.
      { eauto using same_writer_trans, push_same_writer. }
      simpl in Hp, Hn. rewrite put_batches_snoc in Hp.
      rewrite sentinels_put_snoc in Hn. simpl in Hp.
      rewrite app_nil_r in Hp. rewrite Hp, Hp1. split; [reflexivity |].
      rewrite <- Hn1. destruct Hn as [Hn | [Hn Hin]]; [left; lia |].
      right. split; [lia | assumption].
    + destruct (IH _ _ Hrun (reach_error w _ _ (Exc Full "") Hr1))
        as (Hr' & Hs' & Hp & Hn).
      split; [assumption |]. split.
      { eauto using same_writer_trans, append_error_same_writer. }
      simpl in Hp, Hn. rewrite Hp, Hp1. split; [reflexivity |].
      right. split; [rewrite <- Hn1; destruct Hn as [Hn | [Hn _]]; lia |].
      apply (same_writer_In _ _ _ Hs'). simpl. apply in_or_app. right.
      now left.
Qed.

Lemma join_spec bw sched bw' s' :
  BW.join w bw sched = (bw', s') ->
  rtc (move w) bw bw' /\ Forall (fun t => t = Exited) (threads bw').
Proof.
  intros H. pose proof (join_moves w sched bw) as Hm.
  pose proof (join_exited w sched bw) as He. rewrite H in Hm, He. auto.
Qed.

End Owner.

Section Stop.

Context (w : World).

Lemma check_queue_same_writer (bw : BatchWriter) :
  same_writer bw (BW.check_queue bw).
Proof.
  unfold BW.check_queue, same_writer.
  destruct (queue bw) as [| [| b] q]; simpl; repeat split;
    try reflexivity. now apply prefix_app_r.
Qed.

Lemma check_queue_log (bw : BatchWriter) :
  bw_log (BW.check_queue bw) = bw_log bw
  /\ threads (BW.check_queue bw) = threads bw.
Proof.
  unfold BW.check_queue. destruct (queue bw) as [| [| b] q]; auto.
Qed.

(** A batch left in the queue after [join] puts [incomplete] on record. *)
Lemma check_queue_incomplete (bw : BatchWriter) :
  sentinels_last (queue bw) = true ->
  queued_batches (queue bw) <> [] ->
  In BW.incomplete (errors (BW.check_queue bw)).
Proof.
  unfold BW.check_queue. intros Hs Hq.
  destruct (queue bw) as [| [| b] q] eqn:Hqueue.
  - now destruct Hq.
  - destruct Hq. apply sentinels_last_no_batch; [assumption | discriminate].
  - simpl. apply in_or_app. right. now left.
Qed.

(** With no error on record after the queue test, the queue held no batch. *)
Lemma check_queue_clean (bw : BatchWriter) :
  sentinels_last (queue bw) = true ->
  errors (BW.check_queue bw) = [] ->
  queued_batches (queue bw) = []
  /\ queued_batches (queue (BW.check_queue bw)) = []
  /\ errors bw = [].
Proof.
  unfold BW.check_queue. intros Hs He.
  destruct (queue bw) as [| [| b] q] eqn:Hqueue; simpl in *.
  - rewrite Hqueue. auto.
  - assert (queued_batches q = []).
    { clear -Hs. induction q as [| [| b] q IH]; simpl in *; auto.
      discriminate. }
    auto.
  - now destruct (app_cons_not_nil _ _ _ (eq_sym He)).
Qed.

(** The writer that [stop] returns, whatever [stop] raises. *)
Lemma stop_frame (bw : BatchWriter) (sched : list tick) r bw' s' :
  reachable w Open bw ->
  BW.stop w bw sched = (r, bw', s') ->
  same_writer bw bw'
  /\ put_batches (bw_log bw') = put_batches (bw_log bw)
  /\ requests_uniform bw'
  /\ Forall (fun t => t = Exited) (threads bw')
  /\ r = head (errors bw').
Proof.
  intros Hr. unfold BW.stop.
  destruct (BW.put_sentinels w (length (threads bw)) bw sched)
    as [bw1 s1] eqn:Hput.
  destruct (BW.join w bw1 s1) as [bw2 s2] eqn:Hjoin.
  intros H. injection H as <- <- <-.
  destruct (put_sentinels_spec w _ _ _ _ _ Hput (reach_stop w _ Hr))
    as (Hr1 & Hs1 & Hp1 & _).
  destruct (join_spec w _ _ _ _ Hjoin) as (Hm & Hex).
  pose proof (reachable_moves w _ _ _ Hm Hr1) as Hr2.
  destruct (moves_frame w _ _ Hm) as (Hs2 & Hp2 & _).
  destruct (reachable_invariant w _ _ Hr2) as (_ & _ & Hu & _).
  destruct (check_queue_log bw2) as [Hlog Hth].
  split.
  { eauto using same_writer_trans, check_queue_same_writer. }
  split; [now rewrite Hlog, Hp2, Hp1 |].
  split.
  { unfold requests_uniform in *. rewrite Hlog.
    destruct (check_queue_same_writer bw2) as (_ & _ & -> & _). exact Hu. }
  split; [now rewrite Hth | reflexivity].
Qed.

(** When [stop] returns instead of raising, no error was ever recorded, the
    queue is drained, and every batch that was put on the queue has been
    handed to [write_batch], none of these calls failing with an exception
    that the workers catch. *)
Lemma stop_clean (bw : BatchWriter) (sched : list tick) bw' s' :
  reachable w Open bw ->
  BW.stop w bw sched = (None, bw', s') ->
  errors bw' = [] /\ errors bw = []
  /\ queued_batches (queue bw') = []
  /\ put_batches (bw_log bw') ≡ₚ requested_batches (bw_log bw')
  /\ forallb request_ok (bw_log bw') = true.
Proof.
  intros Hr Hstop.
  destruct (stop_frame _ _ _ _ _ Hr Hstop) as (Hs & _ & _ & Hex & Hhead).
  revert Hstop. unfold BW.stop.
  destruct (BW.put_sentinels w (length (threads bw)) bw sched)
    as [bw1 s1] eqn:Hput.
  destruct (BW.join w bw1 s1) as [bw2 s2] eqn:Hjoin.
  intros H. injection H as Hnone <- <-.
  destruct (put_sentinels_spec w _ _ _ _ _ Hput (reach_stop w _ Hr))
    as (Hr1 & _).
  destruct (join_spec w _ _ _ _ Hjoin) as (Hm & _).
  pose proof (reachable_moves w _ _ _ Hm Hr1) as Hr2.
  destruct (reachable_invariant w _ _ Hr2) as (Ha & Hf & _ & Hshape).
  simpl in Hshape.
  assert (He : errors (BW.check_queue bw2) = []).
  { unfold BW.raise_first in Hnone.
    destruct (errors (BW.check_queue bw2)); [reflexivity | discriminate]. }
  destruct (check_queue_clean _ Hshape He) as (Hq2 & Hq & He2).
  destruct (check_queue_log bw2) as [Hlog Hth].
  split; [assumption |].
  split; [eapply same_writer_errors; eassumption |].
  split; [assumption |].
  rewrite Hlog. split; [| now apply Hf].
  unfold accounted in Ha. rewrite Hq2 in Ha.
  rewrite Hth in Hex. rewrite (held_batches_exited _ Hex) in Ha.
  now rewrite !app_nil_r in Ha.
Qed.

End Stop.


(** C5. The worker's handler tests [err is not Empty] on the instance it
    caught, which is never the class [Empty]: a worker whose [queue.get]
    times out records the [Empty] it caught like any other error, and
    [stop] raises it. Here a writer with one worker is started, the worker
    enters [queue.get] on the empty queue, and the wait times out. *)
Theorem worker_timeout_recorded :
  let started := BW.enter Demo.settings 0 WritingPhase1 false in
  let bw := (BW.run_ticks Demo.world started [Step 0; GetTimeout 0]).1 in
  threads started = [AtLoopHead]
  /\ threads bw = [Exited]
  /\ errors bw = [Exc Empty ""]
  /\ (BW.stop Demo.world bw []).1.1 = Some (Exc Empty "").
Proof. vm_compute. repeat split; reflexivity. Qed.

(** The same, for any writer: a timed-out [queue.get] always leaves its
    [Empty] on record. *)
Lemma worker_timeout_errors (i : nat) (bw : BatchWriter) :
  threads bw !! i = Some InGet -> queue bw = [] ->
  errors (BW.worker_timeout i bw) = errors bw ++ [Exc Empty ""]
  /\ threads (BW.worker_timeout i bw) !! i = Some Exited.
Proof.
  intros Hi Hq. unfold BW.worker_timeout. rewrite Hi, Hq.
  split; [reflexivity |]. eapply worker_raise_lookup, Hi.
Qed.

(* ===================================================================== *)
(** * The write path *)
(* ===================================================================== *)

Section WritePath.

Context (w : World).

Lemma same_rows_refl (c : Commit) : same_rows c c.
Proof. unfold same_rows. auto. Qed.

Lemma same_rows_trans (c1 c2 c3 : Commit) :
  same_rows c1 c2 -> same_rows c2 c3 -> same_rows c1 c3.
Proof.
  unfold same_rows. intros (-> & -> & -> & ->) (-> & -> & -> & ->). auto.
Qed.

Lemma sort_rows_spec (s : Settings) (rows its finals : list Item) bw r finals' bw' :
  sort_rows s rows its finals bw = (r, finals', bw') ->
  reachable w Open bw ->
  reachable w Open bw' /\ bw_log bw' = bw_log bw /\ same_writer bw bw'.
Proof.
  revert its finals bw. induction rows as [| item rest IH];
    intros its finals bw H Hr; simpl in H.
  - injection H as <- <- <-. auto using same_writer_refl.
  - destruct (check_item item).
    + injection H as <- <- <-. auto using same_writer_refl.
    + destruct (is_phase2 s item).
      * destruct (IH _ _ _ H (reach_adjust w _ (-1) Hr)) as (Hr' & Hl & Hs).
        split; [assumption |]. split; [exact Hl |].
        eauto using same_writer_trans, adjust_total_same_writer.
      * eauto.
Qed.

(** The block of the first writer: the rows of the commit are not touched,
    nothing is added to the trace, and [written_item_ids] grows by the ids
    of the batches that were put on the queue. *)
Lemma write_partitions_spec (parts : list (list Item)) finals bw c r bw' c' :
  write_partitions w parts finals bw c = (r, bw', c') ->
  reachable w Open bw ->
  reachable w Open bw' /\ same_writer bw bw' /\ same_rows c c'
  /\ trace c' = trace c /\ flush_paths c' = flush_paths c
  /\ exists queued,
       put_batches (bw_log bw') = put_batches (bw_log bw) ++ queued
       /\ written_item_ids c' = written_item_ids c ++ ids_of queued.
Proof.
  revert finals bw c. induction parts as [| part rest IH];
    intros finals bw c H Hr; simpl in H.
  - injection H as <- <- <-.
    split; [assumption |]. split; [apply same_writer_refl |].
    split; [apply same_rows_refl |]. split; [reflexivity |].
    split; [reflexivity |].
    exists []. now rewrite !app_nil_r.
  - destruct (sort_rows (settings c) part [] finals bw)
      as [[[its | e] finals1] bw1] eqn:Hsort;
      destruct (sort_rows_spec _ _ _ _ _ _ _ _ Hsort Hr) as (Hr1 & Hl1 & Hs1).
    + destruct (BW.queue_batches w its bw1 (sched c)) as [[ids bw2] s2] eqn:Hq.
      unfold BW.queue_batches in Hq.
      destruct (queue_batches_loop_spec w _ _ _ _ _ _ _ Hq Hr1)
        as (Hr2 & Hs2 & queued & Hput & Hids & _).
      destruct (IH _ _ _ H Hr2)
        as (Hr' & Hs' & Hrows & Htr & Hfl & queued' & Hput' & Hids').
      split; [assumption |]. split.
      { eauto using same_writer_trans. }
      split; [exact Hrows |]. split; [exact Htr |]. split; [exact Hfl |].
      exists (queued ++ queued'). split.
      * rewrite Hput', Hput, Hl1. now rewrite app_assoc.
      * rewrite Hids'. simpl. rewrite Hids. simpl. unfold ids_of.
        now rewrite flat_map_app, !app_assoc.
    + injection H as <- <- <-.
      split; [assumption |]. split; [assumption |].
      split; [apply same_rows_refl |]. split; [reflexivity |].
      split; [reflexivity |].
      exists []. now rewrite Hl1, !app_nil_r.
Qed.

(** Leaving the [with] block: [stop] runs, the writer joins the trace, and
    either [stop] raised the first error on record, or the writer closed
    clean and the block's own outcome stands. *)
Lemma exit_writer_spec {A} (result : Res A) bw c r c' :
  exit_writer w result bw c = (r, c') ->
  reachable w Open bw ->
  exists bw',
    trace c' = trace c ++ [Writer bw']
    /\ same_writer bw bw' /\ same_rows c c'
    /\ written_item_ids c' = written_item_ids c
    /\ flush_paths c' = flush_paths c
    /\ put_batches (bw_log bw') = put_batches (bw_log bw)
    /\ ((r = result /\ closed_clean bw' /\ errors bw = [])
        \/ exists e, r = Raise e /\ head (errors bw') = Some e).
Proof.
  unfold exit_writer.
  destruct (BW.stop w bw (sched c)) as [[err bw'] s'] eqn:Hstop.
  intros H Hr. exists bw'.
  destruct (stop_frame w _ _ _ _ _ Hr Hstop) as (Hs & Hp & Hu & Hex & Hhead).
  assert (Hc : trace c' = trace c ++ [Writer bw'] /\ same_rows c c'
               /\ written_item_ids c' = written_item_ids c
               /\ flush_paths c' = flush_paths c).
  { destruct err; injection H as <- <-; unfold same_rows; simpl;
      repeat split; reflexivity. }
  destruct Hc as (Htr & Hrows & Hw & Hf).
  repeat (split; [assumption |]).
  destruct err as [e |].
  - right. exists e. injection H as <- _. auto.
  - left. injection H as <- _.
    destruct (stop_clean w _ _ _ _ Hr Hstop) as (He & He0 & Hq & Hperm & Hok).
    unfold closed_clean. auto 10.
Qed.


End WritePath.

Section Phase2.

Context (w : World).


Lemma requests_of_tagged (bw : BatchWriter) :
  requests_uniform bw ->
  Forall (fun q => q.1 = (bw_message bw, bw_delete bw)) (requests_of bw).
Proof.
  unfold requests_uniform, requests_of. intros H.
  induction (bw_log bw) as [| [x | d b o] l IH]; simpl in *.
  - constructor.
  - auto.
  - apply andb_prop in H as [Hd H]. apply Bool.eqb_prop in Hd as ->.
    constructor; auto.
Qed.



End Phase2.


(* ===================================================================== *)
(** * The rollback *)
(* ===================================================================== *)

Section Chunks.

Context {A : Type}.

Lemma chunks_fuel_concat (n fuel : nat) (l : list A) :
  (0 < n)%nat -> (length l <= fuel)%nat ->
  concat (BW.chunks_fuel fuel n l) = l.
Proof.
  intros Hn. revert l. induction fuel as [| fuel IH]; intros l Hl.
  - destruct l; [reflexivity | simpl in Hl; lia].
  - destruct l as [| x l]; [reflexivity |].
    change (concat (BW.chunks_fuel (S fuel) n (x :: l)))
      with (take n (x :: l)
            ++ concat (BW.chunks_fuel fuel n (drop n (x :: l)))).
    rewrite IH; [apply take_drop |].
    rewrite length_drop. simpl in *. lia.
Qed.

Lemma chunks_concat (n : nat) (l : list A) :
  (0 < n)%nat -> concat (BW.chunks n l) = l.
Proof.
  intros Hn. unfold BW.chunks. destruct n; [lia |].
  apply chunks_fuel_concat; lia.
Qed.

(** Every element lies in one of the chunks. *)
Lemma chunks_cover (n : nat) (l : list A) (x : A) :
  (0 < n)%nat -> In x l -> exists chunk, In chunk (BW.chunks n l) /\ In x chunk.
Proof.
  intros Hn Hx. rewrite <- (chunks_concat n l Hn) in Hx.
  apply in_concat in Hx as (chunk & ? & ?). eauto.
Qed.

End Chunks.

Section Rollback.

Context (w : World).

Lemma requested_in_requests (bw : BatchWriter) (batch : list Item) :
  In batch (requested_batches (bw_log bw)) ->
  requests_uniform bw ->
  In (bw_message bw, bw_delete bw, batch) (requests_of bw).
Proof.
  unfold requested_batches, requests_of, requests_uniform.
  induction (bw_log bw) as [| [x | d b o] l IH]; simpl; auto.
  intros [-> | Hin] [Hd Hu]%andb_prop.
  - apply Bool.eqb_prop in Hd as ->. now left.
  - right. auto.
Qed.

Lemma kv_requests_app (tr1 tr2 : list event) :
  kv_requests (tr1 ++ tr2) = kv_requests tr1 ++ kv_requests tr2.
Proof. unfold kv_requests. apply flat_map_app. Qed.

(** The loop of the rollback: one delete-mode writer per chunk joins the
    trace; when the loop runs to its end, every writer closed clean and
    every batch of every chunk was handed to [write_batch]. *)
Lemma rollback_chunks_spec (chunks : list (list string)) (c : Commit) r c' :
  rollback_chunks w chunks c = (r, c') ->
  same_rows c c' /\ written_item_ids c' = written_item_ids c
  /\ flush_paths c' = flush_paths c
  /\ exists evs,
       trace c' = trace c ++ evs
       /\ Forall rollback_writer evs
       /\ (length evs <= length chunks)%nat
       /\ (r = Ret tt ->
           length evs = length chunks
           /\ forall chunk batch,
                In chunk chunks ->
                In batch (BW.get_batches (settings c) (items_by_id chunk c)) ->
                In (RollingBack, true, batch) (kv_requests evs)).
Proof.
  revert c. induction chunks as [| item_ids rest IH]; intros c H; simpl in H.
  - injection H as <- <-. split; [apply same_rows_refl |].
    split; [reflexivity |]. split; [reflexivity |].
    exists []. rewrite app_nil_r. split; [reflexivity |].
    split; [constructor |]. split; [reflexivity |].
    intros _. split; [reflexivity |]. intros ? ? [].
  - unfold bind in H.
    destruct (BW.queue_batches w (items_by_id item_ids c)
                (BW.enter (settings c) (Z.of_nat (length item_ids))
                   RollingBack true) (sched c))
      as [[ids bw] s] eqn:Hq.
    unfold BW.queue_batches in Hq.
    destruct (queue_batches_loop_spec w _ _ _ _ _ _ _ Hq (reach_enter w _ _ _ _))
      as (Hr & (Hset & Hm0 & Hd0 & _) & queued & Hput & _ & Hall).
    destruct (exit_writer w (Ret tt) bw (with_sched s c)) as [r1 c1] eqn:Hexit.
    destruct (exit_writer_spec w _ _ _ _ _ Hexit Hr)
      as (bw' & Htr & (_ & Hm & Hd & _) & Hrows & Hids & Hfl & Hput' & Hres).
    assert (Hu : requests_uniform bw').
    { unfold exit_writer in Hexit.
      destruct (BW.stop w bw _) as [[err bw''] s''] eqn:Hstop.
      destruct (stop_frame w _ _ _ _ _ Hr Hstop) as (_ & _ & Hu & _).
      assert (bw' = bw'') as ->; [| exact Hu].
      destruct err; injection Hexit as _ <-; simpl in Htr;
        apply app_inv_head in Htr; congruence. }
    assert (Hrw : rollback_writer (Writer bw')).
    { exists bw'. split; [reflexivity |].
      split; [now rewrite Hm, Hm0 |]. split; [now rewrite Hd, Hd0 | exact Hu]. }
    simpl in Htr.
    destruct r1 as [[] | e].
    + destruct (IH _ H) as (Hrows' & Hids' & Hfl' & evs & Htr' & Hev & Hlen & Hdone).
      split; [eapply same_rows_trans; [exact Hrows | exact Hrows'] |].
      split; [now rewrite Hids', Hids |]. split; [now rewrite Hfl', Hfl |].
      exists (Writer bw' :: evs).
      split; [rewrite Htr', Htr, <- app_assoc; reflexivity |].
      split; [now constructor |]. split; [simpl; lia |].
      intros ->. destruct (Hdone eq_refl) as [Hlen' Hreq].
      split; [simpl; lia |].
      intros chunk batch [<- | Hin] Hb.
      * destruct Hres as [(_ & Hclean & He) | (e & Habs & _)];
          [| discriminate].
        destruct Hclean as (_ & _ & _ & Hperm & _).
        rewrite (Hall He) in Hput. simpl in Hput.
        rewrite Hput', Hput in Hperm.
        change (kv_requests (Writer bw' :: evs))
          with (requests_of bw' ++ kv_requests evs).
        apply in_or_app. left.
        destruct Hrw as (? & [= <-] & Hmsg & Hdel & _).
        rewrite <- Hmsg, <- Hdel.
        apply requested_in_requests; [| exact Hu].
        eapply Permutation_in; [exact Hperm | exact Hb].
      * change (kv_requests (Writer bw' :: evs))
          with (requests_of bw' ++ kv_requests evs).
        apply in_or_app. right. apply (Hreq chunk batch Hin).
        destruct Hrows as (_ & Hs1 & Hdb1 & _). simpl in Hs1, Hdb1.
        unfold items_by_id. rewrite Hs1, Hdb1. exact Hb.
    + injection H as <- <-.
      split; [exact Hrows |]. split; [exact Hids |]. split; [exact Hfl |].
      exists [Writer bw']. split; [exact Htr |].
      split; [now constructor |]. split; [simpl; lia |]. discriminate.
Qed.

End Rollback.

Section RollbackPublishItems.

Context (w : World).

Lemma get_batches_cover (s : Settings) (its : list Item) (it : Item) :
  0 < write_batch_size s -> In it its ->
  exists batch, In batch (BW.get_batches s its) /\ In it batch.
Proof.
  intros Hn Hin. unfold BW.get_batches. apply chunks_cover; [lia | assumption].
Qed.

Lemma delete_requested_intro (id : string) (evs : list event) (m : scope)
    (batch : list Item) (it : Item) :
  In (m, true, batch) (kv_requests evs) -> In it batch -> item_id it = id ->
  delete_requested id evs = true.
Proof.
  intros Hq Hit <-. unfold delete_requested. apply existsb_exists.
  exists (m, true, batch). split; [assumption |]. simpl.
  apply str_in_In, in_map, Hit.
Qed.


(** [CommitBase.rollback_publish_items] *)
Lemma base_rollback_spec (e : exc) (c : Commit) r c' :
  base_rollback_publish_items w e c = (r, c') ->
  same_rows c c' /\ written_item_ids c' = written_item_ids c
  /\ flush_paths c' = flush_paths c
  /\ exists evs,
       trace c' = trace c ++ LogRollingBack (length (written_item_ids c)) :: evs
       /\ Forall rollback_writer evs
       /\ (0 < item_yield_size (settings c) ->
           0 < write_batch_size (settings c) ->
           r = Ret tt ->
           (length evs
            = length (BW.chunks (Z.to_nat (item_yield_size (settings c)))
                        (written_item_ids c)))
           /\ forall it,
                In it (items (db c)) ->
                In (item_id it) (written_item_ids c) ->
                delete_requested (item_id it) evs = true).
Proof.
  unfold base_rollback_publish_items, bind, log, written_item_ids_batched.
  simpl.
  destruct (Z.eqb_spec (item_yield_size (settings c)) 0) as [Hz | Hnz].
  { intros H. injection H as <- <-. simpl.
    split; [unfold same_rows; simpl; repeat split; reflexivity |].
    split; [reflexivity |]. split; [reflexivity |].
    exists []. split; [reflexivity |]. split; [constructor |].
    intros; lia || discriminate. }
  destruct (Z.ltb_spec (item_yield_size (settings c)) 0) as [Hneg | Hpos].
  { intros H. simpl in H. injection H as <- <-. simpl.
    split; [unfold same_rows; simpl; repeat split; reflexivity |].
    split; [reflexivity |]. split; [reflexivity |].
    exists []. split; [reflexivity |]. split; [constructor |].
    intros; lia || discriminate. }
  intros H.
  destruct (rollback_chunks_spec w _ _ _ _ H)
    as (Hrows & Hids & Hfl & evs & Htr & Hev & _ & Hdone).
  split; [exact Hrows |]. split; [exact Hids |]. split; [exact Hfl |].
  exists evs. simpl in Htr. rewrite <- app_assoc in Htr.
  split; [exact Htr |]. split; [exact Hev |].
  intros _ Hb ->. destruct (Hdone eq_refl) as [Hlen Hreq].
  split; [exact Hlen |].
  intros it Hit Hid.
  destruct (chunks_cover (Z.to_nat (item_yield_size (settings c)))
              (written_item_ids c) (item_id it) ltac:(lia) Hid)
    as (chunk & Hchunk & Hin).
  assert (Hsel : In it (items_by_id chunk (traced
                   (LogRollingBack (length (written_item_ids c))) c))).
  { unfold items_by_id. apply filter_In. split; [exact Hit |].
    now apply str_in_In. }
  destruct (get_batches_cover (settings c) _ it Hb Hsel) as (batch & Hbatch & Hib).
  eapply delete_requested_intro; [| exact Hib | reflexivity].
  apply (Hreq chunk batch Hchunk Hbatch).
Qed.


End RollbackPublishItems.




(* ===================================================================== *)
(** * The readiness gates and the actor *)
(* ===================================================================== *)

Section Gates.

Context (w : World).

Ltac run_commit :=
  repeat (simpl;
          match goal with
          | |- context [Z.eqb ?a ?b] => destruct (Z.eqb_spec a b)
          | |- context [Z.ltb ?a ?b] => destruct (Z.ltb_spec a b)
          | |- context [match uris_with_aliases ?w ?p with _ => _ end] =>
              destruct (uris_with_aliases w p)
          end).

(** [on_succeeded]: the task is COMPLETE from its first statement on; it
    raises only out of [range], for a zero [item_yield_size]. *)
Lemma on_succeeded_spec (c : Commit) r c' :
  on_succeeded w c = (r, c') ->
  mode c' = mode c /\ settings c' = settings c /\ trace c' = trace c
  /\ stored c' = stored c /\ written_item_ids c' = written_item_ids c
  /\ task_state (task (db c')) = ts_complete
  /\ (r = Ret tt \/ exists e, r = Raise e /\ item_yield_size (settings c) = 0)
  /\ (r = Ret tt ->
      (mode c = phase2 -> publish_state (publish (db c')) = ps_committed)
      /\ (mode c = phase1 -> publish (db c') = publish (db c))).
Proof.
  unfold on_succeeded, base_on_succeeded, bind, set_task_state,
    written_item_ids_batched, set_items, set_published_paths,
    set_publish_state.
  destruct (mode c) eqn:Hmode; run_commit;
    intros Hrun; injection Hrun as <- <-; simpl;
    repeat split; eauto; try discriminate; try lia.
Qed.

Lemma should_write_verdict (c : Commit) r c' :
  should_write w c = (r, c') -> verdict c r c'.
Proof.
  unfold should_write, bind, task_ready.
  destruct (task_state (task (db c))) eqn:Hstate; simpl;
    try (intros Hrun; injection Hrun as <- <-; apply verdict_done;
         unfold terminal; now auto).
  all: assert (Hlive : task_state (task (db c)) <> ts_complete
                       /\ task_state (task (db c)) <> ts_failed)
         by (rewrite Hstate; split; discriminate).
  all: destruct (deadline (task (db c))) as [d |];
    [destruct (Z.ltb_spec d (utcnow w)) as [Hlt | Hge] |].
  all: try (unfold on_failed, db_commit, set_task_state, set_publish_state,
              bind, ret;
            destruct (mode c) eqn:Hmode; simpl;
            intros Hrun; injection Hrun as <- <-;
            apply verdict_settled; unfold terminal; simpl; now auto).
  all: simpl; destruct (publish_ready c); simpl;
    [| unfold db_commit, set_task_state, bind, ret; simpl;
       intros Hrun; injection Hrun as <- <-;
       apply verdict_settled; unfold terminal; simpl; now auto].
  all: destruct (has_items c); simpl;
    [intros Hrun; injection Hrun as <- <-; now apply verdict_write |].
  all: unfold bind;
    destruct (on_succeeded w c) as [[[] | e] c1] eqn:Hok;
    destruct (on_succeeded_spec _ _ _ Hok)
      as (Hm & _ & Htr & _ & Hids & Htask & Hres & _);
    [| destruct Hres as [Habs | (e' & _ & Hz)]; [discriminate |];
       intros Hrun; injection Hrun as <- <-; now apply verdict_raise].
  all: unfold db_commit, ret; simpl; intros Hrun; injection Hrun as <- <-;
    apply verdict_settled; unfold terminal; simpl; auto;
    now rewrite Htr.
Qed.

(** [pre_write] raises only when the autoindex enricher does. *)
Lemma pre_write_spec (c : Commit) r c' :
  pre_write w c = (r, c') ->
  mode c' = mode c /\ settings c' = settings c /\ stored c' = stored c
  /\ task (db c') = task (db c) /\ publish (db c') = publish (db c)
  /\ written_item_ids c' = written_item_ids c
  /\ (trace c' = trace c \/ trace c' = trace c ++ [Enrich])
  /\ (r = Ret tt
      \/ exists e, r = Raise e /\ mode c = phase2 /\ enricher_run w = Some e).
Proof.
  unfold pre_write, bind, log, set_items, ret, raise.
  destruct (mode c) eqn:Hmode; simpl.
  - intros H. injection H as <- <-. auto 10.
  - destruct (enricher_run w) as [e |]; intros H; injection H as <- <-;
      simpl; repeat split; eauto 10.
Qed.



End Gates.

Section Actor.

Context (w : World).

Lemma bind_inv {S A B} (m : M S A) (k : A -> M S B) (s : S) r s' :
  bind m k s = (r, s') ->
  (exists a s1, m s = (Ret a, s1) /\ k a s1 = (r, s'))
  \/ (exists e, m s = (Raise e, s') /\ r = Raise e).
Proof.
  unfold bind. destruct (m s) as [[a | e] s1]; intros H.
  - left. eauto.
  - right. injection H as <- <-. eauto.
Qed.


(** The deadline branch of [task_ready]: [on_failed], the DB commit, and the
    actor returns. *)
Lemma deadline_path (c : Commit) (d : Z) :
  task_state (task (db c)) <> ts_complete ->
  task_state (task (db c)) <> ts_failed ->
  deadline (task (db c)) = Some d ->
  d < utcnow w ->
  exists c',
    should_write w c = (Ret false, c') /\ commit w c = (Ret tt, c')
    /\ task_state (task (db c')) = ts_failed
    /\ (mode c = phase2 -> publish_state (publish (db c')) = ps_failed)
    /\ (mode c = phase1 -> publish (db c') = publish (db c))
    /\ stored c' = db c'
    /\ trace c' = trace c ++ [DbCommit]
    /\ written_item_ids c' = written_item_ids c.
Proof.
  intros Hl1 Hl2 Hd Hlt.
  unfold commit, should_write, task_ready, bind. rewrite Hd.
  destruct (Z.ltb_spec d (utcnow w)) as [_ | Hge]; [| lia].
  unfold on_failed, db_commit, set_task_state, set_publish_state, bind, ret.
  destruct (task_state (task (db c))); try contradiction;
    destruct (mode c); simpl; eexists; repeat split; discriminate.
Qed.

(** An empty publish whose task and publish pass the first two gates. *)
Lemma empty_commit (c : Commit) :
  task_state (task (db c)) <> ts_complete ->
  task_state (task (db c)) <> ts_failed ->
  match deadline (task (db c)) with
  | Some d => utcnow w <= d
  | None => True
  end ->
  publish_ready c = true ->
  item_count c = 0 ->
  item_yield_size (settings c) <> 0 ->
  exists c',
    should_write w c = (Ret false, c') /\ commit w c = (Ret tt, c')
    /\ task_state (task (db c')) = ts_complete
    /\ (mode c = phase2 -> publish_state (publish (db c')) = ps_committed)
    /\ (mode c = phase1 -> publish (db c') = publish (db c))
    /\ task_state (task (stored c')) = ts_complete
    /\ publish (stored c') = publish (db c')
    /\ trace c' = trace c ++ [DbCommit].
Proof.
  intros Hl1 Hl2 Hd Hready Hcount Hy.
  destruct (on_succeeded w c) as [r1 c1] eqn:Hok.
  destruct (on_succeeded_spec _ _ _ _ Hok)
    as (Hm & _ & Htr & _ & _ & Htask & Hres & Hpub).
  destruct Hres as [-> | (e & _ & Hz)]; [| contradiction].
  destruct (Hpub eq_refl) as [Hp2 Hp1].
  exists (traced DbCommit (with_stored (db c1) c1)).
  assert (Hsw : should_write w c
                = (Ret false, traced DbCommit (with_stored (db c1) c1))).
  { unfold should_write, task_ready, bind, has_items.
    destruct (task_state (task (db c))); try contradiction;
      (destruct (deadline (task (db c))) as [d |];
       [destruct (Z.ltb_spec d (utcnow w)); [lia |] |]);
      simpl; rewrite Hready, Hcount; simpl; now rewrite Hok. }
  split; [exact Hsw |].
  split; [unfold commit, bind; now rewrite Hsw |].
  simpl. rewrite Htr. auto 10.
Qed.

End Actor.




(** C4, as the code has it. When the task is not COMPLETE or FAILED already
    and its deadline has passed at the readiness check, the actor returns
    with the task FAILED, in the session and in the store: the only thing
    the run does is one DB commit; no writer is ever opened, so no request
    reaches the KV store, and [written_item_ids] stays as it was. *)
Theorem expired_task_fails (w : World) (c : Commit) (d : Z) :
  task_state (task (db c)) <> ts_complete ->
  task_state (task (db c)) <> ts_failed ->
  deadline (task (db c)) = Some d ->
  d < utcnow w ->
  let c' := (commit w c).2 in
  (commit w c).1 = Ret tt
  /\ (should_write w c).1 = Ret false
  /\ task_state (task (db c')) = ts_failed
  /\ task_state (task (stored c')) = ts_failed
  /\ trace c' = trace c ++ [DbCommit]
  /\ kv_requests (trace c') = kv_requests (trace c)
  /\ written_item_ids c' = written_item_ids c.
Proof.
  intros Hl1 Hl2 Hd Hlt.
  destruct (deadline_path w c d Hl1 Hl2 Hd Hlt)
    as (c1 & Hsw & Hrun & Htask & _ & _ & Hst & Htr & Hids).
  rewrite Hrun, Hsw. simpl. rewrite Hst, Htr, kv_requests_app. simpl.
  rewrite app_nil_r. auto 10.
Qed.

Lemma expired_task_fails_witness :
  let c := new_commit (Some phase1) Demo.settings
             (Demo.database ts_not_started ps_pending (Some 50) Demo.rows) [] in
  (commit Demo.world c).1 = Ret tt
  /\ (should_write Demo.world c).1 = Ret false
  /\ task_state (task (db (commit Demo.world c).2)) = ts_failed
  /\ task_state (task (stored (commit Demo.world c).2)) = ts_failed
  /\ trace (commit Demo.world c).2 = trace c ++ [DbCommit]
  /\ kv_requests (trace (commit Demo.world c).2) = kv_requests (trace c)
  /\ written_item_ids (commit Demo.world c).2 = written_item_ids c.
Proof.
  intros c. apply (expired_task_fails Demo.world c 50).
  - discriminate.
  - discriminate.
  - reflexivity.
  - reflexivity.
Defined.

(** C4, as the spec has it, fails. The first test of [task_ready] sends a
    task that is COMPLETE already away before the deadline is looked at: the
    task, although past its deadline, stays COMPLETE, and no DB commit is
    made. *)
Lemma expired_complete_task_counterexample :
  let c := new_commit (Some phase1) Demo.settings
             (Demo.database ts_complete ps_pending (Some 50) Demo.rows) [] in
  deadline (task (db c)) = Some 50
  /\ 50 < utcnow Demo.world
  /\ (commit Demo.world c).1 = Ret tt
  /\ task_state (task (db (commit Demo.world c).2)) = ts_complete
  /\ trace (commit Demo.world c).2 = [].
Proof. vm_compute. repeat split; reflexivity. Qed.

(** C9, as the code has it. For a publish without items whose task is not
    COMPLETE or FAILED already and not expired, whose state is one the
    class accepts, and for a non-zero [item_yield_size]: [should_write]
    returns false after [on_succeeded] and a DB commit. The task is
    COMPLETE; in phase 2 the publish is COMMITTED, in phase 1 it is as it
    was; the store has both. The run consists of that one DB commit: no
    request to the KV store and no cache flush. *)
Theorem empty_commit_succeeds (w : World) (c : Commit) :
  task_state (task (db c)) <> ts_complete ->
  task_state (task (db c)) <> ts_failed ->
  match deadline (task (db c)) with
  | Some d => utcnow w <= d
  | None => True
  end ->
  publish_ready c = true ->
  item_count c = 0 ->
  item_yield_size (settings c) <> 0 ->
  let c' := (commit w c).2 in
  (should_write w c).1 = Ret false
  /\ (commit w c).1 = Ret tt
  /\ task_state (task (db c')) = ts_complete
  /\ (mode c = phase2 -> publish_state (publish (db c')) = ps_committed)
  /\ (mode c = phase1 -> publish (db c') = publish (db c))
  /\ task_state (task (stored c')) = ts_complete
  /\ publish (stored c') = publish (db c')
  /\ trace c' = trace c ++ [DbCommit]
  /\ kv_requests (trace c') = kv_requests (trace c)
  /\ flush_calls (trace c') = flush_calls (trace c).
Proof.
  intros Hl1 Hl2 Hd Hready Hcount Hy.
  destruct (empty_commit w c Hl1 Hl2 Hd Hready Hcount Hy)
    as (c1 & Hsw & Hrun & Htask & Hp2 & Hp1 & Hst & Hsp & Htr).
  rewrite Hrun, Hsw. simpl. rewrite Htr, kv_requests_app. simpl.
  unfold flush_calls. rewrite flat_map_app. simpl. rewrite !app_nil_r.
  auto 15.
Qed.

Lemma empty_commit_succeeds_witness :
  let c := new_commit (Some phase2) Demo.settings
             (Demo.database ts_not_started ps_committing (Some 200) []) [] in
  (should_write Demo.world c).1 = Ret false
  /\ (commit Demo.world c).1 = Ret tt
  /\ task_state (task (db (commit Demo.world c).2)) = ts_complete
  /\ (mode c = phase2 ->
      publish_state (publish (db (commit Demo.world c).2)) = ps_committed)
  /\ (mode c = phase1 ->
      publish (db (commit Demo.world c).2) = publish (db c))
  /\ task_state (task (stored (commit Demo.world c).2)) = ts_complete
  /\ publish (stored (commit Demo.world c).2)
     = publish (db (commit Demo.world c).2)
  /\ trace (commit Demo.world c).2 = trace c ++ [DbCommit]
  /\ kv_requests (trace (commit Demo.world c).2) = kv_requests (trace c)
  /\ flush_calls (trace (commit Demo.world c).2) = flush_calls (trace c).
Proof.
  intros c. apply (empty_commit_succeeds Demo.world c).
  - discriminate.
  - discriminate.
  - simpl. lia.
  - reflexivity.
  - reflexivity.
  - simpl. lia.
Defined.

(** C9, as the spec has it, fails. A commit of an empty publish whose task
    is FAILED already (a message delivered again), not expired, publish
    COMMITTING: [task_ready] answers false at its first test, [on_succeeded]
    is not called, nothing is committed, and the task stays FAILED and the
    publish COMMITTING. *)
Lemma empty_commit_counterexample :
  let c := new_commit (Some phase2) Demo.settings
             (Demo.database ts_failed ps_committing (Some 200) []) [] in
  item_count c = 0
  /\ publish_ready c = true
  /\ utcnow Demo.world <= 200
  /\ (should_write Demo.world c).1 = Ret false
  /\ task_state (task (db (commit Demo.world c).2)) = ts_failed
  /\ publish_state (publish (db (commit Demo.world c).2)) = ps_committing
  /\ trace (commit Demo.world c).2 = [].
Proof. vm_compute. repeat split; try reflexivity. discriminate. Qed.

(** C10. In a phase-2 commit, the deadline branch of [task_ready] (reached
    by a task that is not COMPLETE or FAILED already, and taken when the
    deadline has passed) calls [on_failed], which [CommitPhase2] extends:
    the publish is FAILED as well as the task, in the session and in the
    store, although no writer was opened and no request made to the KV
    store. *)
Theorem expired_phase2_fails_publish (w : World) (c : Commit) (d : Z) :
  mode c = phase2 ->
  task_state (task (db c)) <> ts_complete ->
  task_state (task (db c)) <> ts_failed ->
  deadline (task (db c)) = Some d ->
  d < utcnow w ->
  let c' := (commit w c).2 in
  publish_state (publish (db c')) = ps_failed
  /\ task_state (task (db c')) = ts_failed
  /\ publish_state (publish (stored c')) = ps_failed
  /\ task_state (task (stored c')) = ts_failed
  /\ kv_requests (trace c') = kv_requests (trace c)
  /\ written_item_ids c' = written_item_ids c.
Proof.
  intros Hmode Hl1 Hl2 Hd Hlt.
  destruct (deadline_path w c d Hl1 Hl2 Hd Hlt)
    as (c1 & _ & Hrun & Htask & Hpub & _ & Hst & Htr & Hids).
  rewrite Hrun. simpl. rewrite Hst, Htr, kv_requests_app. simpl.
  rewrite app_nil_r. auto 10.
Qed.

Lemma expired_phase2_fails_publish_witness :
  let c := new_commit None Demo.settings
             (Demo.database ts_not_started ps_committing (Some 50) Demo.rows)
             [] in
  publish_state (publish (db (commit Demo.world c).2)) = ps_failed
  /\ task_state (task (db (commit Demo.world c).2)) = ts_failed
  /\ publish_state (publish (stored (commit Demo.world c).2)) = ps_failed
  /\ task_state (task (stored (commit Demo.world c).2)) = ts_failed
  /\ kv_requests (trace (commit Demo.world c).2) = kv_requests (trace c)
  /\ written_item_ids (commit Demo.world c).2 = written_item_ids c.
Proof.
  intros c. apply (expired_phase2_fails_publish Demo.world c 50).
  - reflexivity.
  - discriminate.
  - discriminate.
  - reflexivity.
  - reflexivity.
Defined.

(* ===================================================================== *)
(** * settings.py: lists in .ini files, environments *)
(* ===================================================================== *)

Section IniLists.

Import Ini.

Lemma lstrip_first (s : string) :
  lstrip s = EmptyString \/ first_char_ok (lstrip s) = true.
Proof.
  induction s as [| c rest IH]; simpl; [now left |].
  destruct (isspace c) eqn:Hc; [exact IH |]. right. simpl. now rewrite Hc.
Qed.

Lemma rstrip_last (s : string) :
  rstrip s = EmptyString \/ last_char_ok (rstrip s) = true.
Proof.
  induction s as [| c rest IH]; simpl; [now left |].
  destruct (rstrip rest) as [| c' r'] eqn:Hr.
  - destruct (isspace c) eqn:Hc; [now left |]. right. simpl. now rewrite Hc.
  - right. destruct IH as [IH | IH]; [discriminate |]. exact IH.
Qed.

Lemma rstrip_first (s : string) :
  first_char_ok s = true -> first_char_ok (rstrip s) = true.
Proof.
  destruct s as [| c rest]; simpl; [discriminate |]. intros Hc.
  destruct (rstrip rest); [| exact Hc].
  apply negb_true_iff in Hc. rewrite Hc. simpl. now rewrite Hc.
Qed.

Lemma lstrip_no_newline (s : string) :
  no_newline s = true -> no_newline (lstrip s) = true.
Proof.
  induction s as [| c rest IH]; simpl; [auto |].
  intros [Hc Hr]%andb_prop. destruct (isspace c); [auto |].
  simpl. now rewrite Hc, Hr.
Qed.

Lemma rstrip_no_newline (s : string) :
  no_newline s = true -> no_newline (rstrip s) = true.
Proof.
  induction s as [| c rest IH]; simpl; [auto |].
  intros [Hc Hr]%andb_prop. specialize (IH Hr).
  destruct (rstrip rest) as [| c' r'].
  - destruct (isspace c); simpl; [reflexivity | now rewrite Hc].
  - change (no_newline (String c (String c' r')))
      with (negb (Ascii.eqb c newline) && no_newline (String c' r')).
    now rewrite Hc, IH.
Qed.

Lemma split_lines_no_newline (s : string) :
  Forall (fun piece => no_newline piece = true) (split_lines s).
Proof.
  induction s as [| c rest IH]; simpl; [repeat constructor |].
  destruct (Ascii.eqb c newline) eqn:Hc; [constructor; [reflexivity | exact IH] |].
  destruct (split_lines rest) as [| piece pieces].
  - repeat constructor. simpl. now rewrite Hc.
  - inversion IH as [| ? ? Hp Hps]; subst. constructor; [| exact Hps].
    simpl. now rewrite Hc, Hp.
Qed.

(** What [strip] returns is empty or clean at both ends. *)
Lemma strip_clean (s : string) :
  no_newline s = true ->
  strip s = EmptyString \/ clean (strip s) = true.
Proof.
  intros Hn. unfold strip, clean.
  destruct (rstrip_last (lstrip s)) as [He | Hl]; [now left |]. right.
  destruct (lstrip_first s) as [He | Hf].
  - rewrite He in Hl. discriminate.
  - rewrite (rstrip_first _ Hf), Hl. simpl.
    now apply rstrip_no_newline, lstrip_no_newline.
Qed.

Lemma rstrip_id (s : string) : last_char_ok s = true -> rstrip s = s.
Proof.
  induction s as [| c rest IH]; simpl; [discriminate |].
  destruct rest as [| c' r'].
  - intros Hc. simpl. apply negb_true_iff in Hc. now rewrite Hc.
  - intros Hl. rewrite (IH Hl). reflexivity.
Qed.

Lemma strip_id (s : string) : clean s = true -> strip s = s.
Proof.
  unfold clean, strip. intros [[Hf Hl]%andb_prop _]%andb_prop.
  destruct s as [| c rest]; [discriminate |]. simpl in Hf.
  apply negb_true_iff in Hf.
  change (lstrip (String c rest))
    with (if isspace c then lstrip rest else String c rest).
  rewrite Hf. now apply rstrip_id.
Qed.

Lemma split_lines_one (e : string) :
  no_newline e = true -> split_lines e = [e].
Proof.
  induction e as [| c rest IH]; simpl; [reflexivity |].
  intros [Hc Hr]%andb_prop. apply negb_true_iff in Hc. rewrite Hc.
  now rewrite (IH Hr).
Qed.

Lemma split_lines_cons (e rest : string) :
  no_newline e = true ->
  split_lines (e ++ String newline rest) = e :: split_lines rest.
Proof.
  induction e as [| c e' IH]; simpl.
  - intros _. reflexivity.
  - intros [Hc Hr]%andb_prop. apply negb_true_iff in Hc. rewrite Hc.
    now rewrite (IH Hr).
Qed.

Lemma split_join_lines (elems : list string) :
  elems <> [] ->
  Forall (fun e => no_newline e = true) elems ->
  split_lines (join_lines elems) = elems.
Proof.
  induction elems as [| e rest IH]; [congruence |]. intros _ Hall.
  inversion Hall as [| ? ? He Hrest]; subst.
  destruct rest as [| e' rest'].
  - simpl. now apply split_lines_one.
  - change (join_lines (e :: e' :: rest'))
      with (e ++ String newline (join_lines (e' :: rest')))%string.
    rewrite (split_lines_cons _ _ He), IH; [reflexivity | discriminate | exact Hrest].
Qed.

End IniLists.

(** X1. Whatever the raw value, every element that [split_ini_list] returns
    is non-empty, begins and ends with a character that is no white space,
    and contains no line feed. *)
Theorem split_ini_list_clean (raw : option string) (elem : string) :
  In elem (Ini.split_ini_list raw) -> Ini.clean elem = true.
Proof.
  unfold Ini.split_ini_list.
  destruct raw as [[| c rest] |]; try (intros []).
  intros (piece & Hin & Hstrip)%in_flat_map.
  pose proof (split_lines_no_newline (String c rest)) as Hall.
  rewrite Forall_forall in Hall.
  apply (proj2 (list_elem_of_In _ _)) in Hin. specialize (Hall _ Hin).
  destruct (strip_clean piece Hall) as [He | Hc].
  - rewrite He in Hstrip. destruct Hstrip.
  - destruct (Ini.strip piece); [destruct Hstrip |].
    destruct Hstrip as [<- | []]. exact Hc.
Qed.

Lemma split_ini_list_clean_witness :
  Ini.clean "b c" = true.
Proof.
  apply (split_ini_list_clean
           (Some (Ini.join_lines ["  a"; ""; "   "; "b c  "]%string)) "b c").
  vm_compute. right. left. reflexivity.
Defined.

(** X2. [split_ini_list] undoes the joining of elements by line feeds: for
    elements that are clean (non-empty, no white space at either end, no
    line feed), splitting their join gives the elements back, in order. *)
Theorem split_ini_list_join (elems : list string) :
  Forall (fun e => Ini.clean e = true) elems ->
  Ini.split_ini_list (Some (Ini.join_lines elems)) = elems.
Proof.
  intros Hall. destruct elems as [| e rest]; [reflexivity |].
  assert (Hnl : Forall (fun e => Ini.no_newline e = true) (e :: rest)).
  { eapply Forall_impl; [exact Hall |]. intros x Hx. unfold Ini.clean in Hx.
    now apply andb_prop in Hx as [_ ?]. }
  pose proof (split_join_lines (e :: rest) ltac:(discriminate) Hnl) as Hsplit.
  unfold Ini.split_ini_list.
  destruct (Ini.join_lines (e :: rest)) as [| c s] eqn:Hjoin.
  { simpl in Hsplit. injection Hsplit as <- _.
    inversion Hall as [| ? ? He _]. discriminate. }
  rewrite Hsplit. clear Hsplit Hjoin Hnl.
  induction Hall as [| x l Hx _ IH]; [reflexivity |].
  simpl. rewrite (strip_id _ Hx), IH.
  destruct x; [discriminate | reflexivity].
Qed.

Lemma split_ini_list_join_witness :
  Forall (fun e => Ini.clean e = true) ["foo"; "bar baz"]%string
  /\ Ini.split_ini_list (Some (Ini.join_lines ["foo"; "bar baz"]%string))
     = ["foo"; "bar baz"]%string.
Proof.
  assert (H : Forall (fun e => Ini.clean e = true) ["foo"; "bar baz"]%string).
  { repeat constructor. }
  split; [exact H | apply (split_ini_list_join _ H)].
Defined.

Section Environments.

Variable getenv : string -> option string.
Variable upper : string -> string.
Variable repr : string -> string.

Lemma truthy_of_getenv (v : option string) :
  truthy (of_getenv v) = true <-> exists c s, v = Some (String c s).
Proof.
  destruct v as [[| c s] |]; simpl; split; try discriminate; eauto;
    intros (? & ? & [=]).
Qed.

End Environments.

(** X3. [Environment.fastpurge_enabled] is truthy exactly when the
    environment has at least one cache flush rule and each of the four
    fastpurge credentials is set to a non-empty value. What it returns is
    then not [True] but the last operand, the fastpurge host. *)
Theorem fastpurge_enabled_iff (getenv : string -> option string)
    (upper : string -> string) (e : Environment) :
  (truthy (fastpurge_enabled getenv upper e) = true <->
     cache_flush_rules e <> []
     /\ (exists c s, fastpurge_access_token getenv upper e = Some (String c s))
     /\ (exists c s, fastpurge_client_secret getenv upper e = Some (String c s))
     /\ (exists c s, fastpurge_client_token getenv upper e = Some (String c s))
     /\ (exists c s, fastpurge_host getenv upper e = Some (String c s)))
  /\ (truthy (fastpurge_enabled getenv upper e) = true ->
      fastpurge_enabled getenv upper e
      = of_getenv (fastpurge_host getenv upper e)).
Proof.
  unfold fastpurge_enabled.
  destruct (cache_flush_rules e) as [| rule rules];
    destruct (fastpurge_access_token getenv upper e) as [[| c1 s1] |];
    destruct (fastpurge_client_secret getenv upper e) as [[| c2 s2] |];
    destruct (fastpurge_client_token getenv upper e) as [[| c3 s3] |];
    destruct (fastpurge_host getenv upper e) as [[| c4 s4] |];
    simpl; (split; [split |]); try discriminate; try reflexivity;
    try (intros (H0 & (? & ? & H1) & (? & ? & H2) & (? & ? & H3)
                 & (? & ? & H4)); congruence).
  intros _. split; [discriminate |]. eauto 20.
Qed.

(** X4. [get_environment] returns the first environment of the settings
    that bears the name asked for; it raises [HTTPException] with status
    404 exactly when no environment bears it. *)
Theorem get_environment_found (repr : string -> string) (env : string)
    (environments : list Environment) :
  match get_environment repr env environments with
  | inr env_obj =>
      env_name env_obj = env
      /\ exists before after,
           environments = before ++ env_obj :: after
           /\ Forall (fun e => env_name e <> env) before
  | inl err =>
      status_code err = 404
      /\ detail err = ("Invalid environment=" ++ repr env)%string
      /\ Forall (fun e => env_name e <> env) environments
  end.
Proof.
  induction environments as [| e rest IH]; simpl.
  - repeat split. constructor.
  - destruct (String.eqb_spec (env_name e) env) as [Heq | Hne].
    + split; [exact Heq |]. exists [], rest. split; [reflexivity | constructor].
    + destruct (get_environment repr env rest) as [err | env_obj].
      * destruct IH as (Hs & Hd & Hall). repeat split; auto.
      * destruct IH as (Hn & before & after & -> & Hall).
        split; [exact Hn |]. exists (e :: before), after.
        split; [reflexivity | now constructor].
Qed.

(* ===================================================================== *)
(** * _BatchWriter: further invariants *)
(* ===================================================================== *)

Section WriterBounds.

Context (w : World).

Lemma move_queue (bw bw' : BatchWriter) :
  move w bw bw' ->
  queue bw' = queue bw \/ exists e, queue bw = e :: queue bw'.
Proof.
  destruct 1; unfold BW.worker_raise, BW.worker_except; simpl;
    repeat match goal with
           | |- context [if ?b then _ else _] => destruct b; simpl
           end; eauto.
Qed.

(** The queue stays within its bound, and the writer keeps the threads that
    [start] gave it. *)
Lemma reachable_bounds (ph : phase) (bw : BatchWriter) :
  reachable w ph bw ->
  (0 < write_queue_size (bw_settings bw) ->
   Z.of_nat (length (queue bw)) <= write_queue_size (bw_settings bw))
  /\ length (threads bw) = Z.to_nat (write_max_workers (bw_settings bw)).
Proof.
  assert (Hpush : forall bw x,
             BW.queue_full bw = false ->
             0 < write_queue_size (bw_settings bw) ->
             Z.of_nat (length (queue bw ++ [x]))
             <= write_queue_size (bw_settings bw)).
  { intros bw0 x Hfull Hpos. unfold BW.queue_full in Hfull.
    rewrite length_app. simpl.
    destruct (Z.ltb_spec 0 (write_queue_size (bw_settings bw0))); [| lia].
    destruct (Z.leb_spec (write_queue_size (bw_settings bw0))
                (Z.of_nat (length (queue bw0)))); [discriminate | lia]. }
  induction 1 as [s n m d | ph bw bw' _ IH Hm | bw b _ IH Hfull | bw k _ IH
                 | ph bw err _ IH | bw _ IH | bw _ IH Hfull]; simpl; auto.
  - split; [lia | apply repeat_length].
  - destruct (move_frame w _ _ Hm) as ((Hs & _ & _ & Hl & _) & _).
    rewrite Hs, Hl. destruct IH as [Hq Ht]. split; [| exact Ht].
    intros Hpos. specialize (Hq Hpos).
    destruct (move_queue _ _ Hm) as [-> | [e He]]; [exact Hq |].
    rewrite He in Hq. simpl in Hq. lia.
  - destruct IH as [_ Ht]. split; [now apply Hpush | exact Ht].
  - destruct IH as [_ Ht]. split; [now apply Hpush | exact Ht].
Qed.

Lemma move_needs_thread (bw bw' : BatchWriter) :
  move w bw bw' -> threads bw <> [].
Proof.
  destruct 1 as [i bw Hi _ | i bw Hi _ | i bw q Hi _ | i bw got q Hi _
                | i bw got Hi _ | i bw got err Hi _ | i bw Hi _];
    intros Hnil; rewrite Hnil in Hi; discriminate.
Qed.

(** A writer without threads never calls [write_batch]: what was put on its
    queue is still there. *)
Lemma threadless_idle (ph : phase) (bw : BatchWriter) :
  reachable w ph bw -> threads bw = [] ->
  requested_batches (bw_log bw) = []
  /\ put_batches (bw_log bw) = queued_batches (queue bw).
Proof.
  induction 1 as [s n m d | ph bw bw' Hr IH Hm | bw b _ IH Hfull | bw k _ IH
                 | ph bw err _ IH | bw _ IH | bw _ IH Hfull]; simpl; intros Hnil.
  - auto.
  - destruct (move_frame w _ _ Hm) as ((_ & _ & _ & Hl & _) & _).
    rewrite Hnil in Hl. simpl in Hl.
    destruct (move_needs_thread _ _ Hm).
    now destruct (threads bw).
  - destruct (IH Hnil) as [Hreq Hput].
    rewrite requested_batches_put, put_batches_snoc, queued_batches_snoc, Hput.
    auto.
  - auto.
  - auto.
  - auto.
  - destruct (IH Hnil) as [Hreq Hput].
    rewrite requested_batches_put, put_batches_snoc, queued_batches_snoc, Hput.
    auto.
Qed.

(** [queue_batches], in full: the batches it puts on the queue are some of
    the batches it was given, in their order: all of them when no error is
    on record as it returns, none when an error was on record as it was
    called; the ids it returns are theirs. *)
Lemma queue_batches_loop_full (batches : list (list Item)) ids bw sched ids' bw' s' :
  BW.queue_batches_loop w batches ids bw sched = (ids', bw', s') ->
  reachable w Open bw ->
  reachable w Open bw' /\ same_writer bw bw'
  /\ exists queued,
       put_batches (bw_log bw') = put_batches (bw_log bw) ++ queued
       /\ ids' = ids ++ ids_of queued
       /\ sublist queued batches
       /\ (errors bw' = [] -> queued = batches)
       /\ (errors bw <> [] -> queued = []).
Proof.
  revert ids bw sched. induction batches as [| batch rest IH];
    intros ids bw sched Hrun Hr; simpl in Hrun.
  - injection Hrun as <- <- <-.
    split; [assumption |]. split; [apply same_writer_refl |].
    exists []. rewrite !app_nil_r. repeat split; auto; constructor.
  - destruct (BW.run_ticks w bw sched) as [bw1 s1] eqn:Ht.
    apply run_ticks_fst in Ht.
    pose proof (reachable_moves w _ _ _ Ht Hr) as Hr1.
    destruct (moves_frame w _ _ Ht) as (Hs1 & Hp1 & _).
    destruct (errors bw1) as [| e1 es1] eqn:He1.
    + destruct (BW.put w (Batch batch) bw1 s1) as [[r bw2] s2] eqn:Hput.
      destruct (put_spec w _ _ _ _ _ _ Hput)
        as (bw1' & Hm & [(-> & Hfull & ->) | (-> & Hfull & ->)]);
        pose proof (reachable_moves w _ _ _ Hm Hr1) as Hr1';
        destruct (moves_frame w _ _ Hm) as (Hs1' & Hp1' & _).
      * destruct (IH _ _ _ Hrun (reach_put_batch w _ batch Hr1' Hfull))
          as (Hr' & Hs' & queued & Hq & -> & Hsub & Hall & Hnone).
        split; [assumption |]. split.
        { eauto using same_writer_trans, push_same_writer. }
        exists (batch :: queued). repeat split.
        -- rewrite Hq. simpl. rewrite put_batches_snoc, Hp1', Hp1. simpl.
           now rewrite <- app_assoc.
        -- unfold ids_of. simpl. now rewrite <- app_assoc.
        -- now constructor.
        -- intros He. now rewrite (Hall He).
        -- intros He. apply (same_writer_errors _ _ Hs1) in He1. contradiction.
      * destruct (IH _ _ _ Hrun (reach_error w _ _ (Exc Full "") Hr1'))
          as (Hr' & Hs' & queued & Hq & -> & Hsub & Hall & Hnone).
        split; [assumption |]. split.
        { eauto using same_writer_trans, append_error_same_writer. }
        exists queued. repeat split.
        -- rewrite Hq. simpl. now rewrite Hp1', Hp1.
        -- now constructor.
        -- intros He. apply (same_writer_errors _ _ Hs') in He.
           simpl in He. now destruct (app_cons_not_nil _ _ _ (eq_sym He)).
        -- intros _. apply Hnone. simpl.
           intros Habs. now destruct (app_cons_not_nil _ _ _ (eq_sym Habs)).
    + destruct (IH _ _ _ Hrun Hr1)
        as (Hr' & Hs' & queued & Hq & -> & Hsub & Hall & Hnone).
      split; [assumption |]. split.
      { eauto using same_writer_trans. }
      exists queued. repeat split.
      * now rewrite Hq, Hp1.
      * now constructor.
      * intros He. apply (same_writer_errors _ _ Hs') in He. congruence.
      * intros _. apply Hnone. congruence.
Qed.

(** What [stop] leaves: every batch handed to [write_batch] had been put on
    the queue. *)
Lemma stop_requested_put (bw : BatchWriter) (sched : list tick) r bw' s' :
  reachable w Open bw ->
  BW.stop w bw sched = (r, bw', s') ->
  incl (requested_batches (bw_log bw')) (put_batches (bw_log bw')).
Proof.
  intros Hr. unfold BW.stop.
  destruct (BW.put_sentinels w (length (threads bw)) bw sched)
    as [bw1 s1] eqn:Hput.
  destruct (BW.join w bw1 s1) as [bw2 s2] eqn:Hjoin.
  intros H. injection H as _ <- _.
  destruct (put_sentinels_spec w _ _ _ _ _ Hput (reach_stop w _ Hr))
    as (Hr1 & _).
  destruct (join_spec w _ _ _ _ Hjoin) as (Hm & _).
  pose proof (reachable_moves w _ _ _ Hm Hr1) as Hr2.
  destruct (reachable_invariant w _ _ Hr2) as (Ha & _).
  destruct (check_queue_log bw2) as [-> _].
  intros b Hb. unfold accounted in Ha.
  eapply Permutation_in; [symmetry; exact Ha |].
  apply in_or_app. now left.
Qed.

End WriterBounds.

(** X5. At every point of a writer's life, in its [with] block or in
    [stop], the batches handed to [write_batch], those the worker threads
    hold and those waiting in the queue are together exactly the batches
    that were put on the queue: no batch is lost, written twice or made
    up. And every request carries the writer's [delete] flag. *)
Theorem writer_accounts_for_batches (w : World) (ph : phase) (bw : BatchWriter) :
  reachable w ph bw ->
  put_batches (bw_log bw)
  ≡ₚ requested_batches (bw_log bw) ++ held_batches (threads bw)
     ++ queued_batches (queue bw)
  /\ Forall (fun q => q.1 = (bw_message bw, bw_delete bw)) (requests_of bw).
Proof.
  intros Hr. destruct (reachable_invariant w _ _ Hr) as (Ha & _ & Hu & _).
  split; [exact Ha | now apply requests_of_tagged].
Qed.

Lemma writer_accounts_for_batches_witness :
  let bw := (BW.queue_batches Demo.world Demo.rows
               (BW.enter Demo.settings 3 WritingPhase1 false)
               [Step 0; Step 0; Proceed; Proceed; Step 0]).1.2 in
  put_batches (bw_log bw)
  ≡ₚ requested_batches (bw_log bw) ++ held_batches (threads bw)
     ++ queued_batches (queue bw)
  /\ Forall (fun q => q.1 = (bw_message bw, bw_delete bw)) (requests_of bw).
Proof.
  intros bw. apply (writer_accounts_for_batches Demo.world Open bw).
  subst bw. unfold BW.queue_batches.
  destruct (BW.queue_batches_loop _ _ _ _ _) as [[ids bw'] s'] eqn:Hq.
  simpl. eapply queue_batches_loop_full; [exact Hq | apply reach_enter].
Defined.

(** X6. The queue of a writer never holds more than [write_queue_size]
    entries when that size is positive, and the writer always has
    [write_max_workers] threads (none when that number is not positive). *)
Theorem writer_queue_bounded (w : World) (ph : phase) (bw : BatchWriter) :
  reachable w ph bw ->
  (0 < write_queue_size (bw_settings bw) ->
   Z.of_nat (length (queue bw)) <= write_queue_size (bw_settings bw))
  /\ length (threads bw) = Z.to_nat (write_max_workers (bw_settings bw)).
Proof. apply reachable_bounds. Qed.

Lemma writer_queue_bounded_witness :
  let bw := BW.push (Batch Demo.rows)
              (BW.enter Demo.settings 3 WritingPhase1 false) in
  (0 < write_queue_size (bw_settings bw) ->
   Z.of_nat (length (queue bw)) <= write_queue_size (bw_settings bw))
  /\ length (threads bw) = Z.to_nat (write_max_workers (bw_settings bw)).
Proof.
  intros bw. apply (writer_queue_bounded Demo.world Open bw).
  apply reach_put_batch; [apply reach_enter | reflexivity].
Defined.

(** X7. [queue_batches] puts on the queue some of the batches that
    [get_batches] made of its items, in their order, and returns the ids of
    the items of exactly those batches. It queues every batch when no error
    is on record as it returns, and none at all when an error was on record
    as it was called. It never takes an error off the record. *)
Theorem queue_batches_spec (w : World) (items : list Item) (bw : BatchWriter)
    (sched : list tick) :
  reachable w Open bw ->
  let ids := (BW.queue_batches w items bw sched).1.1 in
  let bw' := (BW.queue_batches w items bw sched).1.2 in
  exists queued,
    put_batches (bw_log bw') = put_batches (bw_log bw) ++ queued
    /\ ids = ids_of queued
    /\ sublist queued (BW.get_batches (bw_settings bw) items)
    /\ (errors bw' = [] -> queued = BW.get_batches (bw_settings bw) items)
    /\ (errors bw <> [] -> queued = [])
    /\ errors bw `prefix_of` errors bw'.
Proof.
  intros Hr ids bw'. subst ids bw'. unfold BW.queue_batches.
  destruct (BW.queue_batches_loop w _ [] bw sched) as [[ids bw'] s'] eqn:Hq.
  destruct (queue_batches_loop_full w _ _ _ _ _ _ _ Hq Hr)
    as (_ & (_ & _ & _ & _ & Hpre) & queued & Hput & Hids & Hsub & Hall & Hnone).
  exists queued. simpl. auto 10.
Qed.

Lemma queue_batches_spec_witness :
  let bw := BW.enter Demo.settings 3 WritingPhase1 false in
  let ids := (BW.queue_batches Demo.world Demo.rows bw []).1.1 in
  let bw' := (BW.queue_batches Demo.world Demo.rows bw []).1.2 in
  exists queued,
    put_batches (bw_log bw') = put_batches (bw_log bw) ++ queued
    /\ ids = ids_of queued
    /\ sublist queued (BW.get_batches (bw_settings bw) Demo.rows)
    /\ (errors bw' = [] -> queued = BW.get_batches (bw_settings bw) Demo.rows)
    /\ (errors bw <> [] -> queued = [])
    /\ errors bw `prefix_of` errors bw'.
Proof.
  intros bw. apply (queue_batches_spec Demo.world Demo.rows bw []).
  apply reach_enter.
Defined.

(** X8. A writer started with a [write_max_workers] that is not positive
    has no thread: it never calls [write_batch], and when anything was put
    on its queue [stop] raises: "Commit incomplete, queue not empty" unless
    an error was on record before. *)
Theorem no_workers_incomplete (w : World) (bw : BatchWriter) (sched : list tick) :
  reachable w Open bw ->
  write_max_workers (bw_settings bw) <= 0 ->
  let r := (BW.stop w bw sched).1.1 in
  let bw' := (BW.stop w bw sched).1.2 in
  requested_batches (bw_log bw') = []
  /\ (put_batches (bw_log bw) <> [] -> r <> None)
  /\ (put_batches (bw_log bw) <> [] -> errors bw = [] ->
      r = Some BW.incomplete).
Proof.
  intros Hr Hw.
  destruct (reachable_bounds w _ _ Hr) as [_ Hlen].
  assert (Hnil : threads bw = []).
  { destruct (threads bw); [reflexivity | simpl in Hlen; lia]. }
  destruct (threadless_idle w _ _ Hr Hnil) as [Hreq Hput].
  destruct (reachable_invariant w _ _ Hr) as (_ & _ & _ & Hshape & _).
  unfold BW.stop, BW.join. rewrite Hnil. simpl.
  destruct (BW.run_ticks w bw sched) as [bw1 s1] eqn:Ht.
  apply run_ticks_fst in Ht.
  assert (bw1 = bw) as ->.
  { inversion Ht as [| ? ? ? Hm _]; [reflexivity | subst].
    now destruct (move_needs_thread w _ _ Hm). }
  rewrite Hnil. simpl. unfold BW.check_queue, BW.raise_first.
  rewrite Hput.
  destruct (queue bw) as [| [| b] q] eqn:Hq; simpl in *.
  - repeat split; auto; intros; congruence.
  - discriminate.
  - repeat split; auto.
    + intros _. destruct (errors bw); discriminate.
    + intros _ ->. reflexivity.
Qed.

Lemma no_workers_incomplete_witness :
  let s := {| item_yield_size := 5000; write_batch_size := 25;
              write_max_workers := 0; write_queue_size := 1000;
              entry_point_files := []; phase2_patterns := [];
              autoindex_filename := ""; cdn_flush_on_commit := true;
              mirror_writes_enabled := true |} in
  let bw := BW.push (Batch Demo.rows) (BW.enter s 3 WritingPhase1 false) in
  requested_batches (bw_log (BW.stop Demo.world bw []).1.2) = []
  /\ (put_batches (bw_log bw) <> [] -> (BW.stop Demo.world bw []).1.1 <> None)
  /\ (put_batches (bw_log bw) <> [] -> errors bw = [] ->
      (BW.stop Demo.world bw []).1.1 = Some BW.incomplete).
Proof.
  intros s bw. apply (no_workers_incomplete Demo.world bw []).
  - apply reach_put_batch; [apply reach_enter | reflexivity].
  - simpl. lia.
Defined.

(* ===================================================================== *)
(** * The items of the write path *)
(* ===================================================================== *)

Section Selection.

Lemma insert_by_uri_perm (item : Item) (sorted : list Item) :
  insert_by_uri item sorted ≡ₚ item :: sorted.
Proof.
  induction sorted as [| x rest IH]; simpl; [reflexivity |].
  destruct (String.leb (web_uri item) (web_uri x)); [reflexivity |].
  rewrite IH. apply Permutation_swap.
Qed.

Lemma order_by_uri_perm (its : list Item) : order_by_uri its ≡ₚ its.
Proof.
  induction its as [| x rest IH]; simpl; [reflexivity |].
  rewrite insert_by_uri_perm. now rewrite IH.
Qed.

Lemma item_select_In (c : Commit) (it : Item) :
  In it (item_select c) <-> In it (items (db c)) /\ item_selected c it = true.
Proof.
  unfold item_select. rewrite <- filter_In. split; intros H.
  - eapply Permutation_in; [apply order_by_uri_perm | exact H].
  - eapply Permutation_in; [symmetry; apply order_by_uri_perm | exact H].
Qed.

Lemma chunks_incl {A} (n : nat) (l chunk : list A) (x : A) :
  In chunk (BW.chunks n l) -> In x chunk -> In x l.
Proof.
  destruct n as [| n]; [intros [] |]. intros Hc Hx.
  rewrite <- (chunks_concat (S n) l ltac:(lia)). apply in_concat. eauto.
Qed.

Lemma sublist_In {A} (l k : list A) (x : A) :
  sublist l k -> In x l -> In x k.
Proof.
  induction 1 as [| y l k _ IH | y l k _ IH]; simpl; intuition.
Qed.

Lemma partitions_incl (c : Commit) (it : Item) :
  In it (concat (partitions c)) -> In it (item_select c).
Proof.
  intros (part & Hp & Hit)%in_concat. eapply chunks_incl; eassumption.
Qed.

Lemma partitions_cover (c : Commit) (it : Item) :
  0 < item_yield_size (settings c) ->
  In it (item_select c) -> In it (concat (partitions c)).
Proof.
  intros Hy Hit. unfold partitions. rewrite chunks_concat; [exact Hit | lia].
Qed.

End Selection.

Section WrittenItems.

Context (w : World).

(** The inner loop, in full: when it ends, the items to queue are the rows
    that are no entry points and the entry points join [final_items]; it
    raises what [check_item] raises for one of the rows. *)
Lemma sort_rows_items (s : Settings) (rows its finals : list Item) bw r finals' bw' :
  sort_rows s rows its finals bw = (r, finals', bw') ->
  match r with
  | Ret its' =>
      its' = its ++ List.filter (fun it => negb (is_phase2 s it)) rows
      /\ finals' = finals ++ List.filter (is_phase2 s) rows
      /\ Forall (fun it => check_item it = None) rows
  | Raise e => exists it, In it rows /\ check_item it = Some e
  end.
Proof.
  revert its finals bw. induction rows as [| item rest IH];
    intros its finals bw H; simpl in H.
  - injection H as <- <- <-. simpl. rewrite !app_nil_r. auto.
  - destruct (check_item item) as [e |] eqn:Hcheck.
    + injection H as <- <- <-. exists item. simpl. auto.
    + destruct (is_phase2 s item) eqn:Hp2; specialize (IH _ _ _ H);
        destruct r as [its' | e]; simpl; rewrite ?Hp2; simpl.
      * destruct IH as (-> & -> & Hall). rewrite <- app_assoc.
        repeat split; auto.
      * destruct IH as (it & Hin & He). eauto.
      * destruct IH as (-> & -> & Hall). rewrite <- app_assoc.
        repeat split; auto.
      * destruct IH as (it & Hin & He). eauto.
Qed.

(** The block of the first writer, in full. *)
Lemma write_partitions_items (parts : list (list Item)) finals bw c r bw' c' :
  write_partitions w parts finals bw c = (r, bw', c') ->
  reachable w Open bw ->
  bw_settings bw = settings c ->
  same_writer bw bw'
  /\ exists queued,
       put_batches (bw_log bw') = put_batches (bw_log bw) ++ queued
       /\ written_item_ids c' = written_item_ids c ++ ids_of queued
       /\ (forall it, In it (batch_items queued) ->
             In it (concat parts) /\ is_phase2 (settings c) it = false)
       /\ (forall finals',
             r = Ret finals' ->
             finals' = finals ++ List.filter (is_phase2 (settings c)) (concat parts)
             /\ (errors bw' = [] -> 0 < write_batch_size (settings c) ->
                 forall it, In it (concat parts) ->
                            is_phase2 (settings c) it = false ->
                            In it (batch_items queued)))
       /\ (forall e, r = Raise e ->
             exists it, In it (concat parts) /\ check_item it = Some e).
Proof.
  revert finals bw c. induction parts as [| part rest IH];
    intros finals bw c H Hr Hset; simpl in H.
  - injection H as <- <- <-. split; [apply same_writer_refl |].
    exists []. rewrite !app_nil_r.
    split; [reflexivity |]. split; [reflexivity |].
    split; [intros ? [] |]. split; [| discriminate].
    intros finals' [= <-]. split; [reflexivity |].
    intros _ _ ? [].
  - destruct (sort_rows (settings c) part [] finals bw)
      as [[[its | e] finals1] bw1] eqn:Hsort;
      destruct (sort_rows_spec w _ _ _ _ _ _ _ _ Hsort Hr) as (Hr1 & Hl1 & Hs1);
      pose proof (sort_rows_items _ _ _ _ _ _ _ _ Hsort) as Hitems;
      simpl in Hitems.
    + destruct Hitems as (-> & -> & Hchecked).
      destruct (BW.queue_batches w _ bw1 (sched c)) as [[ids bw2] s2] eqn:Hq.
      unfold BW.queue_batches in Hq.
      destruct (queue_batches_loop_full w _ _ _ _ _ _ _ Hq Hr1)
        as (Hr2 & Hs2 & queued1 & Hput1 & Hids1 & Hsub1 & Hall1 & _).
      assert (Hset1 : bw_settings bw1 = settings c)
        by (destruct Hs1 as (-> & _); exact Hset).
      assert (Hset2 : bw_settings bw2 = settings c)
        by (destruct Hs2 as (-> & _); exact Hset1).
      rewrite Hset1 in Hsub1, Hall1.
      destruct (IH _ _ _ H Hr2 Hset2)
        as (Hs' & queued' & Hput' & Hids' & Hsound & Hret & Hraise).
      simpl in Hids', Hsound, Hret.
      split; [eauto using same_writer_trans |].
      exists (queued1 ++ queued'). split.
      { rewrite Hput', Hput1, Hl1. now rewrite app_assoc. }
      split.
      { rewrite Hids', Hids1. simpl. unfold ids_of.
        now rewrite flat_map_app, app_assoc. }
      split.
      { intros it Hit. unfold batch_items in *.
        rewrite concat_app in Hit. apply in_app_or in Hit as [Hit | Hit].
        - apply in_concat in Hit as (b & Hb & Hit).
          apply (sublist_In _ _ _ Hsub1) in Hb.
          unfold BW.get_batches in Hb.
          pose proof (chunks_incl _ _ _ it Hb Hit) as Hf.
          apply filter_In in Hf as [Hin Hp2].
          split; [apply in_or_app; now left | now apply negb_true_iff].
        - destruct (Hsound it Hit) as [Hin Hp2].
          split; [apply in_or_app; now right | exact Hp2]. }
      split.
      { intros finals' Hfin. destruct (Hret _ Hfin) as [-> Hcomplete].
        split; [simpl; now rewrite List.filter_app, app_assoc |].
        intros He Hb it Hit Hp2. unfold batch_items in *.
        rewrite concat_app. apply in_or_app.
        apply in_app_or in Hit as [Hit | Hit].
        - left. rewrite (Hall1 (same_writer_errors _ _ Hs' He)).
          assert (Hf : In it (List.filter
                                (fun it => negb (is_phase2 (settings c) it)) part))
            by (apply filter_In; split; [exact Hit | now rewrite Hp2]).
          destruct (get_batches_cover (settings c) _ it Hb Hf)
            as (b & Hbin & Hib).
          apply in_concat. eauto.
        - right. now apply Hcomplete. }
      intros e Hraise'. destruct (Hraise _ Hraise') as (it & Hin & He).
      exists it. split; [apply in_or_app; now right | exact He].
    + destruct Hitems as (it & Hin & He).
      injection H as <- <- <-. split; [exact Hs1 |].
      exists []. rewrite Hl1, !app_nil_r.
      split; [reflexivity |]. split; [reflexivity |].
      split; [intros ? [] |]. split; [discriminate |].
      intros e' [= <-]. exists it. split; [apply in_or_app; now left | exact He].
Qed.

End WrittenItems.

Section WriterLog.

Context (w : World).

Lemma move_faithful (bw bw' : BatchWriter) :
  move w bw bw' ->
  Forall (faithful_event w) (bw_log bw) ->
  Forall (faithful_event w) (bw_log bw').
Proof.
  destruct 1; intros Hf; unfold BW.worker_raise;
    try match goal with
        | |- context [isinstance ?e ?cs] => destruct (isinstance e cs)
        end;
    simpl; try assumption;
    (apply Forall_app; split;
       [assumption | constructor; [simpl; congruence | constructor]]).
Qed.

(** The log of a writer is faithful to [write_batch]. *)
Lemma reachable_faithful (ph : phase) (bw : BatchWriter) :
  reachable w ph bw -> Forall (faithful_event w) (bw_log bw).
Proof.
  induction 1; simpl; eauto using move_faithful;
    try (apply Forall_app; split; [assumption |]); now repeat constructor.
Qed.

Lemma stop_faithful (bw : BatchWriter) (sched : list tick) r bw' s' :
  reachable w Open bw ->
  BW.stop w bw sched = (r, bw', s') ->
  Forall (faithful_event w) (bw_log bw').
Proof.
  intros Hr. unfold BW.stop.
  destruct (BW.put_sentinels w (length (threads bw)) bw sched)
    as [bw1 s1] eqn:Hput.
  destruct (BW.join w bw1 s1) as [bw2 s2] eqn:Hjoin.
  intros H. injection H as _ <- _.
  destruct (put_sentinels_spec w _ _ _ _ _ Hput (reach_stop w _ Hr))
    as (Hr1 & _).
  destruct (join_spec w _ _ _ _ Hjoin) as (Hm & _).
  pose proof (reachable_moves w _ _ _ Hm Hr1) as Hr2.
  destruct (check_queue_log bw2) as [-> _].
  eapply reachable_faithful; eassumption.
Qed.

(** [__exit__], in full. *)
Lemma exit_writer_full {A} (result : Res A) bw c r c' :
  exit_writer w result bw c = (r, c') ->
  reachable w Open bw ->
  exists bw',
    trace c' = trace c ++ [Writer bw']
    /\ same_writer bw bw' /\ same_rows c c'
    /\ written_item_ids c' = written_item_ids c
    /\ flush_paths c' = flush_paths c
    /\ put_batches (bw_log bw') = put_batches (bw_log bw)
    /\ requests_uniform bw'
    /\ incl (requested_batches (bw_log bw')) (put_batches (bw_log bw'))
    /\ Forall (faithful_event w) (bw_log bw')
    /\ ((r = result /\ closed_clean bw' /\ errors bw = [])
        \/ exists e, r = Raise e /\ head (errors bw') = Some e).
Proof.
  intros H Hr.
  destruct (exit_writer_spec w _ _ _ _ _ H Hr)
    as (bw' & Htr & Hs & Hrows & Hids & Hfl & Hput & Hres).
  exists bw'. repeat (split; [assumption |]).
  unfold exit_writer in H.
  destruct (BW.stop w bw (sched c)) as [[err bw''] s'] eqn:Hstop.
  assert (bw' = bw'') as ->.
  { destruct err; injection H as _ <-; simpl in Htr;
      apply app_inv_head in Htr; congruence. }
  destruct (stop_frame w _ _ _ _ _ Hr Hstop) as (_ & _ & Hu & _).
  split; [exact Hu |].
  split; [eapply stop_requested_put; eassumption |].
  split; [eapply stop_faithful; eassumption | exact Hres].
Qed.

End WriterLog.

Section WritePathItems.

Context (w : World).

(** [CommitBase.write_publish_items], in full: the one writer it runs is
    given only selected items that are no entry points; when it returns, the
    writer closed clean, every such item was put on its queue and the entry
    points are returned. *)
Lemma base_write_items (c : Commit) r c' :
  base_write_publish_items w c = (r, c') ->
  exists bw1,
    trace c' = trace c ++ [Writer bw1]
    /\ bw_message bw1 = WritingPhase1 /\ bw_delete bw1 = false
    /\ requests_uniform bw1
    /\ Forall (faithful_event w) (bw_log bw1)
    /\ same_rows c c' /\ flush_paths c' = flush_paths c
    /\ written_item_ids c'
       = written_item_ids c ++ ids_of (put_batches (bw_log bw1))
    /\ incl (requested_batches (bw_log bw1)) (put_batches (bw_log bw1))
    /\ (forall it, In it (batch_items (put_batches (bw_log bw1))) ->
          In it (item_select c) /\ is_phase2 (settings c) it = false)
    /\ (forall finals, r = Ret finals ->
          closed_clean bw1
          /\ finals = List.filter (is_phase2 (settings c)) (concat (partitions c))
          /\ (0 < write_batch_size (settings c) ->
              forall it, In it (concat (partitions c)) ->
                         is_phase2 (settings c) it = false ->
                         In it (batch_items (put_batches (bw_log bw1)))))
    /\ (forall e, r = Raise e ->
          head (errors bw1) = Some e
          \/ exists it, In it (item_select c) /\ check_item it = Some e).
Proof.
  unfold base_write_publish_items.
  destruct (write_partitions w (partitions c) []
              (BW.enter (settings c) (item_count c) WritingPhase1 false) c)
    as [[result bw] c1] eqn:Hparts.
  intros Hexit.
  destruct (write_partitions_spec w _ _ _ _ _ _ _ Hparts (reach_enter w _ _ _ _))
    as (Hr & _ & Hrows & Htr & Hfl & _).
  destruct (write_partitions_items w _ _ _ _ _ _ _ Hparts
              (reach_enter w _ _ _ _) eq_refl)
    as (Hs & queued & Hput & Hids & Hsound & Hret & Hraise).
  simpl in Hput.
  destruct (exit_writer_full w _ _ _ _ _ Hexit Hr)
    as (bw1 & Htr' & Hs' & Hrows' & Hids' & Hfl' & Hput' & Hu & Hincl & Hfaith
        & Hres).
  exists bw1.
  destruct (same_writer_trans _ _ _ Hs Hs') as (Hset & Hmsg & Hdel & _).
  split; [now rewrite Htr', Htr |].
  split; [exact Hmsg |]. split; [exact Hdel |]. split; [exact Hu |].
  split; [exact Hfaith |].
  split; [eapply same_rows_trans; eassumption |].
  split; [congruence |].
  split; [now rewrite Hids', Hids, Hput', Hput |].
  split; [exact Hincl |].
  rewrite Hput', Hput.
  split.
  { intros it Hit. destruct (Hsound it Hit) as [Hin Hp2].
    split; [now apply partitions_incl | exact Hp2]. }
  split.
  - intros finals ->.
    destruct Hres as [(<- & Hclean & He) | (e & Habs & _)]; [| discriminate].
    destruct (Hret _ eq_refl) as [Hfin Hall].
    split; [exact Hclean |]. split; [exact Hfin |].
    intros Hb. now apply Hall.
  - intros e ->.
    destruct Hres as [(<- & _) | (e' & [= <-] & Hhead)]; [| now left].
    right. destruct (Hraise _ eq_refl) as (it & Hin & He).
    exists it. split; [now apply partitions_incl | exact He].
Qed.

(** The second writer of [CommitPhase2.write_publish_items], in full: it is
    given entry points only; when it returns, it closed clean and every
    entry point was put on its queue. *)
Lemma write_final_items_full (final_items : list Item) (c : Commit) r c' :
  write_final_items w final_items c = (r, c') ->
  exists bw2,
    trace c' = trace c ++ [Writer bw2]
    /\ bw_message bw2 = WritingPhase2 /\ bw_delete bw2 = false
    /\ requests_uniform bw2
    /\ Forall (faithful_event w) (bw_log bw2)
    /\ same_rows c c'
    /\ flush_paths c'
       = flush_paths c ++ map (flush_path (settings c)) (map web_uri final_items)
    /\ written_item_ids c'
       = written_item_ids c ++ ids_of (put_batches (bw_log bw2))
    /\ incl (requested_batches (bw_log bw2)) (put_batches (bw_log bw2))
    /\ (forall it, In it (batch_items (put_batches (bw_log bw2))) ->
          In it final_items)
    /\ (r = Ret tt ->
          closed_clean bw2
          /\ (0 < write_batch_size (settings c) ->
              forall it, In it final_items ->
                         In it (batch_items (put_batches (bw_log bw2)))))
    /\ (forall e, r = Raise e -> head (errors bw2) = Some e).
Proof.
  unfold write_final_items. cbv zeta.
  destruct final_items as [| item rest]; intros H.
  - destruct (exit_writer_full w _ _ _ _ _ H (reach_enter w _ _ _ _))
      as (bw2 & Htr & (_ & Hm & Hd & _) & Hrows & Hids & Hfl & Hput & Hu
          & Hincl & Hfaith & Hres).
    simpl in Hput. exists bw2.
    split; [exact Htr |]. split; [exact Hm |]. split; [exact Hd |].
    split; [exact Hu |]. split; [exact Hfaith |]. split; [exact Hrows |].
    split; [simpl; now rewrite app_nil_r |].
    split; [rewrite Hput; simpl; now rewrite app_nil_r |].
    split; [exact Hincl |].
    rewrite Hput.
    split; [intros ? [] |].
    split.
    + intros ->. destruct Hres as [(_ & Hclean & _) | (e & Habs & _)];
        [| discriminate].
      split; [exact Hclean | intros _ ? []].
    + intros e ->. destruct Hres as [(Habs & _) | (e' & [= <-] & Hhead)];
        [discriminate | exact Hhead].
  - destruct (BW.queue_batches w (item :: rest) _ (sched c))
      as [[ids bw] s] eqn:Hq.
    unfold BW.queue_batches in Hq.
    destruct (queue_batches_loop_full w _ _ _ _ _ _ _ Hq (reach_enter w _ _ _ _))
      as (Hr & (_ & Hm0 & Hd0 & _) & queued & Hput0 & Hids0 & Hsub & Hall & _).
    simpl in Hput0, Hids0, Hsub, Hall.
    unfold add_flush_paths in H. cbv beta iota in H.
    destruct (exit_writer_full w _ _ _ _ _ H Hr)
      as (bw2 & Htr & (_ & Hm & Hd & _) & Hrows & Hids & Hfl & Hput & Hu
          & Hincl & Hfaith & Hres).
    simpl in Hids, Hfl.
    exists bw2. split; [exact Htr |].
    split; [now rewrite Hm, Hm0 |]. split; [now rewrite Hd, Hd0 |].
    split; [exact Hu |]. split; [exact Hfaith |]. split; [exact Hrows |].
    split; [exact Hfl |].
    split; [now rewrite Hids, Hput, Hput0, Hids0 |].
    split; [exact Hincl |].
    rewrite Hput, Hput0.
    split.
    { intros it (b & Hb & Hit)%in_concat.
      apply (sublist_In _ _ _ Hsub) in Hb.
      unfold BW.get_batches in Hb. eapply chunks_incl; eassumption. }
    split.
    + intros ->. destruct Hres as [(_ & Hclean & He) | (e & Habs & _)];
        [| discriminate].
      split; [exact Hclean |].
      intros Hb it Hit. rewrite (Hall He).
      destruct (get_batches_cover (settings c) _ it Hb Hit) as (b & Hbin & Hib).
      apply in_concat. eauto.
    + intros e ->. destruct Hres as [(Habs & _) | (e' & [= <-] & Hhead)];
        [discriminate | exact Hhead].
Qed.

End WritePathItems.

Section Growth.

Lemma run_event_same (c c' : Commit) (ev : event) :
  mode c' = mode c -> settings c' = settings c ->
  run_event c ev -> run_event c' ev.
Proof. unfold run_event. intros -> ->. auto. Qed.

Lemma grows_refl (c : Commit) : grows c c.
Proof.
  split; [reflexivity |]. split; [reflexivity |].
  exists []. now rewrite app_nil_r.
Qed.

Lemma grows_trans (c1 c2 c3 : Commit) : grows c1 c2 -> grows c2 c3 -> grows c1 c3.
Proof.
  intros (Hm & Hs & evs & Htr & Hev) (Hm' & Hs' & evs' & Htr' & Hev').
  split; [congruence |]. split; [congruence |].
  exists (evs ++ evs'). split; [now rewrite Htr', Htr, app_assoc |].
  apply Forall_app. split; [exact Hev |].
  eapply Forall_impl; [exact Hev' |].
  intros ev. apply run_event_same; congruence.
Qed.

Lemma grows_quiet (c c' : Commit) :
  mode c' = mode c -> settings c' = settings c -> trace c' = trace c ->
  grows c c'.
Proof.
  intros Hm Hs Htr. split; [exact Hm |]. split; [exact Hs |].
  exists []. now rewrite app_nil_r.
Qed.

Lemma grows_events (c c' : Commit) (evs : list event) :
  mode c' = mode c -> settings c' = settings c ->
  trace c' = trace c ++ evs -> Forall (run_event c) evs ->
  grows c c'.
Proof. intros Hm Hs Htr Hev. repeat split; eauto. Qed.

Lemma same_rows_grows (c c' : Commit) (evs : list event) :
  same_rows c c' -> trace c' = trace c ++ evs -> Forall (run_event c) evs ->
  grows c c'.
Proof. intros (Hm & Hs & _). now apply grows_events. Qed.

Lemma db_commit_grows (c : Commit) r c' :
  db_commit c = (r, c') -> r = Ret tt /\ grows c c' /\ stored c' = db c'.
Proof.
  intros [= <- <-]. split; [reflexivity |]. split; [| reflexivity].
  apply (grows_events _ _ [DbCommit]); try reflexivity.
  repeat constructor.
Qed.

Lemma grows_db_commit (c c' : Commit) :
  mode c' = mode c -> settings c' = settings c ->
  trace c' = trace c ++ [DbCommit] ->
  grows c c'.
Proof.
  intros Hm Hs Htr. apply (grows_events _ _ [DbCommit]); auto.
  constructor; [exact I | constructor].
Qed.

Lemma rollback_writer_run_event (c : Commit) (ev : event) :
  rollback_writer ev -> run_event c ev.
Proof.
  intros (bw & -> & Hm & Hd & Hu). simpl. unfold writer_well_tagged.
  rewrite Hm, Hd. repeat split; auto; discriminate.
Qed.

End Growth.

Section WritePathFull.

Context (w : World).

Lemma requests_of_In (bw : BatchWriter) (m : scope) (d : bool) (batch : list Item) :
  requests_uniform bw ->
  In (m, d, batch) (requests_of bw) ->
  m = bw_message bw /\ d = bw_delete bw
  /\ In batch (requested_batches (bw_log bw)).
Proof.
  unfold requests_uniform, requests_of, requested_batches.
  induction (bw_log bw) as [| [x | d' b o] l IH]; simpl; [intros _ [] | auto |].
  intros [Hd Hu]%andb_prop [[= <- <- <-] | Hin].
  - apply Bool.eqb_prop in Hd. auto.
  - destruct (IH Hu Hin) as (? & ? & ?). auto.
Qed.

Lemma requested_In (log : list bw_event) (batch : list Item) :
  In batch (requested_batches log) ->
  exists d o, In (Request d batch o) log.
Proof.
  unfold requested_batches.
  induction log as [| [x | d b o] l IH]; simpl; [intros [] | |].
  - intros (d & o & H)%IH. eauto.
  - intros [<- | (d' & o' & H)%IH]; eauto.
Qed.

Lemma ids_of_In (batches : list (list Item)) (id : string) :
  In id (ids_of batches) <->
  exists it, In it (batch_items batches) /\ item_id it = id.
Proof.
  unfold ids_of, batch_items. rewrite in_flat_map. split.
  - intros (b & Hb & (it & <- & Hit)%in_map_iff).
    exists it. split; [apply in_concat; eauto | reflexivity].
  - intros (it & (b & Hb & Hit)%in_concat & <-).
    exists b. split; [exact Hb | now apply in_map].
Qed.

(** What a writer that closed clean has done with an item that was put on
    its queue. *)
Lemma clean_written (bw : BatchWriter) (it : Item) :
  closed_clean bw ->
  Forall (faithful_event w) (bw_log bw) ->
  In it (batch_items (put_batches (bw_log bw))) ->
  exists batch,
    In (bw_message bw, bw_delete bw, batch) (requests_of bw) /\ In it batch
    /\ forall e, write_batch w (bw_delete bw) batch = Some e ->
                 isinstance e BW.worker_caught = false.
Proof.
  intros (_ & _ & _ & Hperm & Hok & Hu) Hfaith (batch & Hb & Hit)%in_concat.
  apply (Permutation_in _ Hperm) in Hb.
  exists batch. split; [now apply requested_in_requests |].
  split; [exact Hit |].
  destruct (requested_In _ _ Hb) as (d & o & Hreq).
  pose proof (proj1 (List.Forall_forall _ _) Hfaith _ Hreq) as Hf.
  pose proof (proj1 (forallb_forall _ _) Hok _ Hreq) as Hr.
  pose proof (proj1 (forallb_forall _ _) Hu _ Hreq) as Hd.
  simpl in Hf, Hr, Hd. apply Bool.eqb_prop in Hd. subst d o.
  intros e He. rewrite He in Hr. now apply negb_true_iff in Hr.
Qed.

Lemma flush_cache_grows (c : Commit) r c' :
  flush_cache w c = (r, c') ->
  mode c = phase2 ->
  grows c c' /\ same_rows c c' /\ written_item_ids c' = written_item_ids c
  /\ kv_requests (trace c') = kv_requests (trace c).
Proof.
  unfold flush_cache. intros H Hmode.
  destruct (cdn_flush_on_commit (settings c)) eqn:Hflush.
  - assert (Hc : c' = traced (Flush (flush_paths c)) c)
      by (destruct (flusher_run w (flush_paths c)); now injection H as _ <-).
    subst c'. split.
    + apply (grows_events _ _ [Flush (flush_paths c)]); try reflexivity.
      repeat constructor; assumption.
    + split; [repeat split |]. split; [reflexivity |].
      simpl. rewrite kv_requests_app. simpl. now rewrite app_nil_r.
  - injection H as _ <-.
    auto using grows_refl, same_rows_refl.
Qed.

Lemma selected_phase1_checked (c : Commit) (it : Item) :
  mode c = phase1 -> In it (item_select c) -> check_item it = None.
Proof.
  intros Hmode [_ Hsel]%item_select_In. unfold item_selected in Hsel.
  rewrite Hmode in Hsel. unfold check_item.
  destruct (object_key it) as [[| a k] |];
    rewrite ?andb_false_r in Hsel; try discriminate; reflexivity.
Qed.

End WritePathFull.

Section WritePublishItems.

Context (w : World).

Lemma writer_requests_items (bw : BatchWriter) m d (batch : list Item) (it : Item) :
  requests_uniform bw ->
  incl (requested_batches (bw_log bw)) (put_batches (bw_log bw)) ->
  In (m, d, batch) (requests_of bw) -> In it batch ->
  m = bw_message bw /\ d = bw_delete bw
  /\ In it (batch_items (put_batches (bw_log bw))).
Proof.
  intros Hu Hincl Hreq Hit.
  destruct (requests_of_In _ _ _ _ Hu Hreq) as (-> & -> & Hb).
  repeat split. apply in_concat. exists batch. auto.
Qed.

Lemma clean_written_ok (bw : BatchWriter) (it : Item) (tr : list event) :
  closed_clean bw ->
  Forall (faithful_event w) (bw_log bw) ->
  bw_delete bw = false ->
  In it (batch_items (put_batches (bw_log bw))) ->
  In (Writer bw) tr ->
  written_ok w it tr /\ In (item_id it) (ids_of (put_batches (bw_log bw))).
Proof.
  intros Hclean Hfaith Hd Hit Htr. split.
  - destruct (clean_written w _ _ Hclean Hfaith Hit) as (batch & Hreq & Hin & Hok).
    rewrite Hd in Hreq, Hok.
    exists (bw_message bw), batch. split; [| auto].
    unfold kv_requests. apply in_flat_map. exists (Writer bw). auto.
  - apply ids_of_In. eauto.
Qed.

Lemma kv_requests_In (tr : list event) m d (batch : list Item) :
  In (m, d, batch) (kv_requests tr) ->
  exists bw, In (Writer bw) tr /\ In (m, d, batch) (requests_of bw).
Proof.
  unfold kv_requests. intros (ev & Hev & Hin)%in_flat_map.
  destruct ev; try contradiction. eauto.
Qed.

Lemma finals_selected (c : Commit) (it : Item) :
  In it (List.filter (is_phase2 (settings c)) (concat (partitions c))) ->
  In it (item_select c) /\ is_phase2 (settings c) it = true.
Proof. intros [Hin Hp2]%filter_In. auto using partitions_incl. Qed.

(** [write_publish_items] of the two classes, in full. *)
Lemma write_publish_items_full (c : Commit) r c' :
  write_publish_items w c = (r, c') ->
  same_rows c c'
  /\ exists evs ids,
       trace c' = trace c ++ evs
       /\ written_item_ids c' = written_item_ids c ++ ids
       /\ Forall (run_event c) evs
       /\ (forall m d batch it,
             In (m, d, batch) (kv_requests evs) -> In it batch ->
             d = false /\ In it (item_select c)
             /\ (m = WritingPhase1 /\ is_phase2 (settings c) it = false
                 \/ m = WritingPhase2 /\ mode c = phase2
                    /\ is_phase2 (settings c) it = true))
       /\ (forall id, In id ids ->
             exists it, In it (item_select c) /\ item_id it = id
                        /\ (mode c = phase1 ->
                            is_phase2 (settings c) it = false))
       /\ (forall x, r = Ret x ->
             0 < item_yield_size (settings c) ->
             0 < write_batch_size (settings c) ->
             forall it, In it (item_select c) ->
                        (mode c = phase1 -> is_phase2 (settings c) it = false) ->
                        written_ok w it evs /\ In (item_id it) ids)
       /\ (forall e, r = Raise e -> mode c = phase1 ->
             exists bw, evs = [Writer bw] /\ head (errors bw) = Some e).
Proof.
  unfold write_publish_items, bind.
  destruct (base_write_publish_items w c) as [r1 c1] eqn:Hbase.
  destruct (base_write_items w _ _ _ Hbase)
    as (bw1 & Htr1 & Hm1 & Hd1 & Hu1 & Hf1 & Hrows1 & Hfl1 & Hids1 & Hincl1
        & Hsound1 & Hret1 & Hraise1).
  assert (Hev1 : run_event c (Writer bw1)).
  { simpl. unfold writer_well_tagged. rewrite Hm1, Hd1.
    repeat split; auto; discriminate. }
  assert (Hreq1 : forall m d batch it,
             In (m, d, batch) (requests_of bw1) -> In it batch ->
             d = false /\ In it (item_select c)
             /\ (m = WritingPhase1 /\ is_phase2 (settings c) it = false
                 \/ m = WritingPhase2 /\ mode c = phase2
                    /\ is_phase2 (settings c) it = true)).
  { intros m d batch it Hreq Hit.
    destruct (writer_requests_items _ _ _ _ _ Hu1 Hincl1 Hreq Hit)
      as (-> & -> & Hput).
    destruct (Hsound1 _ Hput) as [Hsel Hp2]. rewrite Hm1, Hd1. auto. }
  assert (Hid1 : forall id, In id (ids_of (put_batches (bw_log bw1))) ->
             exists it, In it (item_select c) /\ item_id it = id
                        /\ is_phase2 (settings c) it = false).
  { intros id (it & Hput & <-)%ids_of_In.
    destruct (Hsound1 _ Hput) as [Hsel Hp2]. eauto. }
  destruct (mode c) eqn:Hmode.
  - (* CommitPhase1 *)
    intros H.
    assert (Hc : c' = c1) by (destruct r1; now injection H as _ <-).
    subst c'. split; [exact Hrows1 |].
    exists [Writer bw1], (ids_of (put_batches (bw_log bw1))).
    split; [exact Htr1 |]. split; [exact Hids1 |].
    split; [constructor; [exact Hev1 | constructor] |].
    split.
    { intros m d batch it Hreq Hit. simpl in Hreq. rewrite app_nil_r in Hreq.
      destruct (Hreq1 _ _ _ _ Hreq Hit) as (? & ? & [? | (_ & ? & _)]);
        [auto | discriminate]. }
    split.
    { intros id Hid. destruct (Hid1 _ Hid) as (it & ? & ? & ?). eauto. }
    split.
    + intros x -> Hy Hb it Hsel Hp2.
      destruct r1 as [finals | e]; [| discriminate].
      destruct (Hret1 _ eq_refl) as (Hclean & _ & Hall).
      apply (clean_written_ok bw1); auto; [| now left].
      apply Hall; auto using partitions_cover.
    + intros e -> _. destruct r1 as [finals | e1]; [discriminate |].
      injection H as <-. exists bw1. split; [reflexivity |].
      destruct (Hraise1 _ eq_refl) as [Hhead | (it & Hsel & Hcheck)];
        [exact Hhead |].
      rewrite (selected_phase1_checked c it) in Hcheck;
        [discriminate | exact Hmode | exact Hsel].
  - (* CommitPhase2 *)
    destruct r1 as [finals | e1].
    + destruct (Hret1 _ eq_refl) as (Hclean1 & Hfinals & Hall1).
      destruct (write_final_items w finals c1) as [r2 c2] eqn:Hfinal.
      destruct (write_final_items_full w _ _ _ _ Hfinal)
        as (bw2 & Htr2 & Hm2 & Hd2 & Hu2 & Hf2 & Hrows2 & Hfl2 & Hids2 & Hincl2
            & Hsound2 & Hret2 & Hraise2).
      destruct Hrows1 as (Hmode1 & Hset1 & Hdb1 & Hst1).
      assert (Hev2 : run_event c (Writer bw2)).
      { simpl. unfold writer_well_tagged. rewrite Hm2, Hd2.
        repeat split; auto; discriminate. }
      assert (Hreq2 : forall m d batch it,
                 In (m, d, batch) (requests_of bw2) -> In it batch ->
                 d = false /\ In it (item_select c)
                 /\ (m = WritingPhase1 /\ is_phase2 (settings c) it = false
                     \/ m = WritingPhase2 /\ mode c = phase2
                        /\ is_phase2 (settings c) it = true)).
      { intros m d batch it Hreq Hit.
        destruct (writer_requests_items _ _ _ _ _ Hu2 Hincl2 Hreq Hit)
          as (-> & -> & Hput).
        apply Hsound2 in Hput. rewrite Hfinals in Hput.
        apply finals_selected in Hput as [Hsel Hp2].
        rewrite Hm2, Hd2. auto 10. }
      assert (Hid2 : forall id, In id (ids_of (put_batches (bw_log bw2))) ->
                 exists it, In it (item_select c) /\ item_id it = id).
      { intros id (it & Hput & <-)%ids_of_In.
        apply Hsound2 in Hput. rewrite Hfinals in Hput.
        apply finals_selected in Hput as [Hsel Hp2]. eauto. }
      intros H.
      assert (Hmid : exists evs3,
                 (trace c' = trace c2 ++ evs3)
                 /\ Forall (run_event c) evs3 /\ kv_requests evs3 = []
                 /\ same_rows c2 c'
                 /\ written_item_ids c' = written_item_ids c2
                 /\ ((exists x, r = Ret x) -> r2 = Ret tt)).
      { destruct r2 as [[] | e2].
        - destruct (flush_cache w c2) as [r3 c3] eqn:Hflush.
          assert (Hc : c' = c3) by (destruct r3; now injection H as _ <-).
          subst c'.
          assert (Hmode2 : mode c2 = phase2)
            by (destruct Hrows2 as (-> & _); congruence).
          destruct (flush_cache_grows w _ _ _ Hflush Hmode2)
            as ((_ & _ & evs3 & Htr3 & Hev3) & Hrows3 & Hids3 & Hkv3).
          exists evs3. split; [exact Htr3 |].
          split.
          { eapply Forall_impl; [exact Hev3 |]. intros ev.
            apply run_event_same; destruct Hrows2 as (? & ? & _); congruence. }
          split.
          { rewrite Htr3, kv_requests_app in Hkv3.
            rewrite <- (app_nil_r (kv_requests (trace c2))) in Hkv3 at 2.
            now apply app_inv_head in Hkv3. }
          auto.
        - injection H as <- <-. exists []. rewrite app_nil_r.
          split; [reflexivity |]. split; [constructor |].
          split; [reflexivity |]. split; [apply same_rows_refl |].
          split; [reflexivity |]. intros [x Hx]; discriminate. }
      destruct Hmid as (evs3 & Htr3 & Hev3 & Hkv3 & Hrows3 & Hids3 & Hr2).
      split.
      { eapply same_rows_trans; [| exact Hrows3].
        eapply same_rows_trans; [| exact Hrows2]. repeat split; assumption. }
      exists (Writer bw1 :: Writer bw2 :: evs3),
        (ids_of (put_batches (bw_log bw1)) ++ ids_of (put_batches (bw_log bw2))).
      split.
      { rewrite Htr3, Htr2, Htr1, <- !app_assoc. reflexivity. }
      split.
      { rewrite Hids3, Hids2, Hids1, <- !app_assoc. reflexivity. }
      split; [constructor; [exact Hev1 | constructor; [exact Hev2 | exact Hev3]] |].
      split.
      { intros m d batch it Hreq Hit. simpl in Hreq. rewrite Hkv3, app_nil_r in Hreq.
        apply in_app_or in Hreq as [Hreq | Hreq]; [eauto |].
        destruct (Hreq2 _ _ _ _ Hreq Hit) as (? & ? & [? | (? & _ & ?)]);
          auto 10. }
      split.
      { intros id [Hid | Hid]%in_app_or.
        - destruct (Hid1 _ Hid) as (it & ? & ? & ?).
          exists it. repeat split; auto; discriminate.
        - destruct (Hid2 _ Hid) as (it & ? & ?).
          exists it. repeat split; auto; discriminate. }
      split.
      * intros x -> Hy Hb it Hsel _.
        destruct (Hret2 (Hr2 (ex_intro _ x eq_refl))) as [Hclean2 Hall2].
        rewrite Hset1 in Hall2.
        destruct (is_phase2 (settings c) it) eqn:Hp2.
        -- destruct (clean_written_ok bw2 it (Writer bw1 :: Writer bw2 :: evs3))
             as [Hok Hid]; auto; [| right; now left |].
           { apply Hall2; [exact Hb |]. rewrite Hfinals.
             apply filter_In. auto using partitions_cover. }
           split; [exact Hok | apply in_or_app; now right].
        -- destruct (clean_written_ok bw1 it (Writer bw1 :: Writer bw2 :: evs3))
             as [Hok Hid]; auto; [| now left |].
           { apply Hall1; auto using partitions_cover. }
           split; [exact Hok | apply in_or_app; now left].
      * intros e _ Habs. discriminate.
    + intros [= <- <-]. split; [exact Hrows1 |].
      exists [Writer bw1], (ids_of (put_batches (bw_log bw1))).
      split; [exact Htr1 |]. split; [exact Hids1 |].
      split; [constructor; [exact Hev1 | constructor] |].
      split.
      { intros m d batch it Hreq Hit. simpl in Hreq. rewrite app_nil_r in Hreq.
        eauto. }
      split.
      { intros id Hid. destruct (Hid1 _ Hid) as (it & ? & ? & ?). eauto. }
      split; [discriminate |].
      intros e _ Habs. discriminate.
Qed.

End WritePublishItems.

Section WritePathTheorems.

Context (w : World).

Lemma written_ok_app (it : Item) (tr evs : list event) :
  written_ok w it evs -> written_ok w it (tr ++ evs).
Proof.
  intros (m & batch & Hreq & Hit & Hok). exists m, batch.
  rewrite kv_requests_app. auto using in_or_app.
Qed.

Lemma to_write_selected (c : Commit) (it : Item) :
  In it (items (db c)) -> to_write c it = true ->
  In it (item_select c)
  /\ (mode c = phase1 -> is_phase2 (settings c) it = false).
Proof.
  unfold to_write. intros Hin [Hsel Hp2]%andb_prop.
  split; [apply item_select_In; auto |].
  intros Hmode. rewrite Hmode in Hp2. now apply negb_true_iff.
Qed.

Lemma selected_to_write (c : Commit) (it : Item) :
  In it (item_select c) ->
  (mode c = phase1 -> is_phase2 (settings c) it = false) ->
  In it (items (db c)) /\ to_write c it = true.
Proof.
  intros [Hin Hsel]%item_select_In Hp2. split; [exact Hin |].
  unfold to_write. rewrite Hsel. simpl.
  destruct (mode c); [| reflexivity]. now rewrite Hp2.
Qed.

End WritePathTheorems.

(** X9. [write_publish_items] asks [write_batch] for writes only, never for
    a delete, and only of items that the commit selects: the writer
    "Writing phase 1 items" is handed no entry point, the writer "Writing
    phase 2 items" exists in [CommitPhase2] only and is handed entry points
    only. *)
Theorem write_requests_by_phase (w : World) (c : Commit) (m : scope)
    (d : bool) (batch : list Item) (it : Item) :
  In (m, d, batch) (kv_requests (trace (write_publish_items w c).2)) ->
  ~ In (m, d, batch) (kv_requests (trace c)) ->
  In it batch ->
  d = false
  /\ In it (items (db c)) /\ item_selected c it = true
  /\ (m = WritingPhase1 /\ is_phase2 (settings c) it = false
      \/ m = WritingPhase2 /\ mode c = phase2
         /\ is_phase2 (settings c) it = true).
Proof.
  destruct (write_publish_items w c) as [r c'] eqn:H. simpl.
  destruct (write_publish_items_full w _ _ _ H)
    as (_ & evs & ids & Htr & _ & _ & Hreq & _).
  rewrite Htr, kv_requests_app. intros [Hold | Hnew]%in_app_or Hfresh Hit;
    [contradiction |].
  destruct (Hreq _ _ _ _ Hnew Hit) as (Hd & Hsel%item_select_In & Hm).
  tauto.
Qed.

(** X10. For a positive [item_yield_size], the write of a [CommitPhase1]
    never fails on the check for a missing [object_key]: when
    [write_publish_items] raises, it raises the first error that its one
    writer has on record. *)
Theorem phase1_write_raises_recorded (w : World) (c : Commit) (e : exc) :
  mode c = phase1 ->
  0 < item_yield_size (settings c) ->
  (write_publish_items w c).1 = Raise e ->
  exists bw,
    trace (write_publish_items w c).2 = trace c ++ [Writer bw]
    /\ bw_message bw = WritingPhase1
    /\ head (errors bw) = Some e.
Proof.
  destruct (write_publish_items w c) as [r c'] eqn:H. simpl.
  intros Hmode _ ->.
  destruct (write_publish_items_full w _ _ _ H)
    as (_ & evs & ids & Htr & _ & Hev & _ & _ & _ & Hraise).
  destruct (Hraise _ eq_refl Hmode) as (bw & -> & Hhead).
  exists bw. split; [exact Htr |]. split; [| exact Hhead].
  unfold write_publish_items, bind in H. rewrite Hmode in H.
  destruct (base_write_publish_items w c) as [r1 c1] eqn:Hbase.
  destruct (base_write_items w _ _ _ Hbase) as (bw1 & Htr1 & Hm1 & _).
  assert (c' = c1) by (destruct r1; now injection H as _ <-). subst c1.
  rewrite Htr1 in Htr. apply app_inv_head in Htr. congruence.
Qed.

(** X11. The ids that [write_publish_items] adds to [written_item_ids] are
    ids of items that the commit is to write: selected items, and no entry
    points in [CommitPhase1]. *)
Theorem written_item_ids_selected (w : World) (c : Commit) (id : string) :
  In id (written_item_ids (write_publish_items w c).2) ->
  ~ In id (written_item_ids c) ->
  exists it,
    In it (items (db c)) /\ to_write c it = true /\ item_id it = id.
Proof.
  destruct (write_publish_items w c) as [r c'] eqn:H. simpl.
  destruct (write_publish_items_full w _ _ _ H)
    as (_ & evs & ids & _ & Hids & _ & _ & Hid & _).
  rewrite Hids. intros [Hold | Hnew]%in_app_or Hfresh; [contradiction |].
  destruct (Hid _ Hnew) as (it & Hsel & <- & Hp2).
  destruct (selected_to_write c it Hsel Hp2). eauto.
Qed.

(** X12. When [write_publish_items] returns, every item that the commit is
    to write was handed to [write_batch] in a write request which did not
    fail with an exception that the workers catch, and its id is in
    [written_item_ids]. *)
Theorem write_returns_all_written (w : World) (c : Commit) (it : Item) :
  (exists x, (write_publish_items w c).1 = Ret x) ->
  0 < item_yield_size (settings c) ->
  0 < write_batch_size (settings c) ->
  In it (items (db c)) ->
  to_write c it = true ->
  written_ok w it (trace (write_publish_items w c).2)
  /\ In (item_id it) (written_item_ids (write_publish_items w c).2).
Proof.
  destruct (write_publish_items w c) as [r c'] eqn:H. simpl.
  intros [x ->] Hy Hb Hin Hto.
  destruct (write_publish_items_full w _ _ _ H)
    as (_ & evs & ids & Htr & Hids & _ & _ & _ & Hret & _).
  destruct (to_write_selected c it Hin Hto) as [Hsel Hp2].
  destruct (Hret _ eq_refl Hy Hb it Hsel Hp2) as [Hok Hid].
  rewrite Htr, Hids. split; [now apply written_ok_app |].
  apply in_or_app. now right.
Qed.

Lemma write_requests_by_phase_witness :
  let c := new_commit (Some phase2) Demo.settings
             (Demo.database ts_in_progress ps_committing None Demo.rows) [] in
  let it := Demo.item "3" "/c/repomd.xml" in
  false = false
  /\ In it (items (db c)) /\ item_selected c it = true
  /\ (WritingPhase2 = WritingPhase1 /\ is_phase2 (settings c) it = false
      \/ WritingPhase2 = WritingPhase2 /\ mode c = phase2
         /\ is_phase2 (settings c) it = true).
Proof.
  intros c it.
  apply (write_requests_by_phase Demo.world c WritingPhase2 false [it] it).
  - vm_compute. right. right. left. reflexivity.
  - simpl. intros [].
  - simpl. left. reflexivity.
Defined.

Lemma phase1_write_raises_recorded_witness :
  let c := new_commit (Some phase1) Demo.settings
             (Demo.database ts_in_progress ps_committing None Demo.rows) [] in
  exists bw,
    trace (write_publish_items Demo.world_kv_fails c).2 = trace c ++ [Writer bw]
    /\ bw_message bw = WritingPhase1
    /\ head (errors bw) = Some (Exc RuntimeError "Unprocessed items").
Proof.
  intros c.
  apply (phase1_write_raises_recorded Demo.world_kv_fails c
           (Exc RuntimeError "Unprocessed items")).
  - reflexivity.
  - simpl. lia.
  - vm_compute. reflexivity.
Defined.

Lemma written_item_ids_selected_witness :
  let c := new_commit (Some phase2) Demo.settings
             (Demo.database ts_in_progress ps_committing None Demo.rows) [] in
  exists it,
    In it (items (db c)) /\ to_write c it = true /\ item_id it = "3"%string.
Proof.
  intros c. apply (written_item_ids_selected Demo.world c "3").
  - vm_compute. right. right. left. reflexivity.
  - simpl. intros [].
Defined.

Lemma write_returns_all_written_witness :
  let c := new_commit (Some phase2) Demo.settings
             (Demo.database ts_in_progress ps_committing None Demo.rows) [] in
  let it := Demo.item "3" "/c/repomd.xml" in
  written_ok Demo.world it (trace (write_publish_items Demo.world c).2)
  /\ In (item_id it) (written_item_ids (write_publish_items Demo.world c).2).
Proof.
  intros c it. apply (write_returns_all_written Demo.world c it).
  - exists []. vm_compute. reflexivity.
  - simpl. lia.
  - simpl. lia.
  - simpl. right. right. left. reflexivity.
  - vm_compute. reflexivity.
Defined.

(* ===================================================================== *)
(** * on_succeeded and the dirty flags *)
(* ===================================================================== *)

Section Clean.

Lemma mark_clean_nil (its : list Item) : mark_clean [] its = its.
Proof. unfold mark_clean. simpl. now rewrite map_id. Qed.

Lemma mark_clean_app (ids1 ids2 : list string) (its : list Item) :
  mark_clean ids2 (mark_clean ids1 its) = mark_clean (ids1 ++ ids2) its.
Proof.
  unfold mark_clean. rewrite map_map. apply map_ext. intros it.
  unfold str_in. rewrite existsb_app.
  destruct (existsb (String.eqb (item_id it)) ids1) eqn:H1; simpl.
  - now destruct (existsb (String.eqb (item_id it)) ids2).
  - reflexivity.
Qed.

Lemma mark_clean_fold (batches : list (list string)) (its : list Item) :
  fold_left (fun its item_ids => mark_clean item_ids its) batches its
  = mark_clean (concat batches) its.
Proof.
  revert its. induction batches as [| b rest IH]; intros its; simpl.
  - now rewrite mark_clean_nil.
  - now rewrite IH, mark_clean_app.
Qed.

Lemma mark_clean_In (ids : list string) (its : list Item) (it : Item) :
  In it its ->
  In (if str_in (item_id it) ids then cleaned it else it) (mark_clean ids its).
Proof.
  intros H. unfold mark_clean. apply in_map_iff. exists it.
  split; [reflexivity | exact H].
Qed.

Lemma chunks_fuel_sizes {A} (fuel n : nat) (l : list A) :
  (0 < n)%nat ->
  Forall (fun chunk => (0 < length chunk <= n)%nat) (BW.chunks_fuel fuel n l).
Proof.
  intros Hn. revert l. induction fuel as [| fuel IH]; intros l; simpl.
  - constructor.
  - destruct l as [| x l']; [constructor |].
    constructor; [| apply IH].
    rewrite length_take. simpl. lia.
Qed.

Lemma chunks_sizes {A} (n : nat) (l : list A) :
  Forall (fun chunk => (0 < length chunk <= n)%nat) (BW.chunks n l).
Proof.
  destruct n as [| n]; [constructor |]. apply chunks_fuel_sizes. lia.
Qed.

End Clean.

(** X13. [written_item_ids_batched] cuts the written ids into chunks of at
    most [item_yield_size] ids, none of them empty, which together are the
    written ids, in their order. *)
Theorem written_item_ids_batched_chunks (c : Commit) :
  0 < item_yield_size (settings c) ->
  exists batches,
    written_item_ids_batched c = (Ret batches, c)
    /\ concat batches = written_item_ids c
    /\ Forall (fun chunk =>
                 (0 < length chunk)%nat
                 /\ Z.of_nat (length chunk) <= item_yield_size (settings c))
         batches.
Proof.
  intros Hy. unfold written_item_ids_batched.
  destruct (Z.eqb_spec (item_yield_size (settings c)) 0) as [| _]; [lia |].
  destruct (Z.ltb_spec (item_yield_size (settings c)) 0) as [| _]; [lia |].
  eexists. split; [reflexivity |].
  split; [apply chunks_concat; lia |].
  eapply Forall_impl; [apply chunks_sizes |].
  intros chunk. simpl. lia.
Qed.

Lemma written_item_ids_batched_chunks_witness :
  let c := CommitBase.with_written_item_ids ["1"; "2"; "3"]%string
             (new_commit (Some phase1) Demo.settings
                (Demo.database ts_in_progress ps_committing None Demo.rows) []) in
  exists batches,
    written_item_ids_batched c = (Ret batches, c)
    /\ concat batches = written_item_ids c
    /\ Forall (fun chunk =>
                 (0 < length chunk)%nat
                 /\ Z.of_nat (length chunk) <= item_yield_size (settings c))
         batches.
Proof.
  intros c. apply (written_item_ids_batched_chunks c). simpl. lia.
Defined.

Section OnSucceeded.

Context (w : World).

Ltac run_gates :=
  repeat (simpl;
          match goal with
          | |- context [Z.eqb ?a ?b] => destruct (Z.eqb_spec a b)
          | |- context [Z.ltb ?a ?b] => destruct (Z.ltb_spec a b)
          | |- context [match uris_with_aliases ?w ?p with _ => _ end] =>
              destruct (uris_with_aliases w p)
          end).

(** [on_succeeded] and the items, for every [item_yield_size]. *)
Lemma on_succeeded_items (c : Commit) r c' :
  on_succeeded w c = (r, c') ->
  (0 < item_yield_size (settings c) ->
   r = Ret tt
   /\ items (db c') = mark_clean (written_item_ids c) (items (db c)))
  /\ (item_yield_size (settings c) < 0 ->
      r = Ret tt /\ items (db c') = items (db c))
  /\ (item_yield_size (settings c) = 0 ->
      r = Raise (Exc ValueError "range() arg 3 must not be zero")
      /\ items (db c') = items (db c)
      /\ publish (db c') = publish (db c)
      /\ published_paths (db c') = published_paths (db c)).
Proof.
  unfold on_succeeded, base_on_succeeded, bind, set_task_state,
    written_item_ids_batched, set_items, set_published_paths,
    set_publish_state.
  destruct (mode c) eqn:Hmode; run_gates;
    intros Hrun; injection Hrun as <- <-; simpl;
    (split; [intros Hy | split; [intros Hy | intros Hy]]);
    try lia; repeat split; try reflexivity;
    rewrite mark_clean_fold, chunks_concat by lia; reflexivity.
Qed.

End OnSucceeded.

(** X14. With a positive [item_yield_size], [on_succeeded] returns with the
    task COMPLETE and with the dirty flag cleared on the items whose id is in
    [written_item_ids], and on no other: the updates of the chunks add up to
    one update by all the written ids. *)
Theorem on_succeeded_marks_clean (w : World) (c : Commit) :
  0 < item_yield_size (settings c) ->
  (on_succeeded w c).1 = Ret tt
  /\ task_state (task (db (on_succeeded w c).2)) = ts_complete
  /\ items (db (on_succeeded w c).2)
     = map (fun it => if str_in (item_id it) (written_item_ids c)
                      then cleaned it else it)
         (items (db c)).
Proof.
  intros Hy. destruct (on_succeeded w c) as [r c'] eqn:H. simpl.
  destruct (on_succeeded_items w _ _ _ H) as (Hpos & _).
  destruct (Hpos Hy) as [-> Hitems].
  destruct (on_succeeded_spec w _ _ _ H) as (_ & _ & _ & _ & _ & Hstate & _).
  auto.
Qed.

Lemma on_succeeded_marks_clean_witness :
  let c := CommitBase.with_written_item_ids ["1"; "2"]%string
             (new_commit (Some phase1) Demo.settings
                (Demo.database ts_in_progress ps_committing None Demo.rows) []) in
  (on_succeeded Demo.world c).1 = Ret tt
  /\ task_state (task (db (on_succeeded Demo.world c).2)) = ts_complete
  /\ items (db (on_succeeded Demo.world c).2)
     = map (fun it => if str_in (item_id it) (written_item_ids c)
                      then cleaned it else it)
         (items (db c)).
Proof.
  intros c. apply (on_succeeded_marks_clean Demo.world c). simpl. lia.
Defined.

(** X15. With an [item_yield_size] that is not positive, [on_succeeded]
    clears no dirty flag: a negative one gives [range] no chunk at all and
    the task is COMPLETE all the same; zero makes [range] raise
    [ValueError], after the task state was set and before anything else
    was. *)
Theorem on_succeeded_no_chunks (w : World) (c : Commit) :
  item_yield_size (settings c) <= 0 ->
  items (db (on_succeeded w c).2) = items (db c)
  /\ task_state (task (db (on_succeeded w c).2)) = ts_complete
  /\ (item_yield_size (settings c) < 0 -> (on_succeeded w c).1 = Ret tt)
  /\ (item_yield_size (settings c) = 0 ->
      (on_succeeded w c).1
      = Raise (Exc ValueError "range() arg 3 must not be zero")
      /\ publish (db (on_succeeded w c).2) = publish (db c)
      /\ published_paths (db (on_succeeded w c).2) = published_paths (db c)).
Proof.
  intros Hy. destruct (on_succeeded w c) as [r c'] eqn:H. simpl.
  destruct (on_succeeded_items w _ _ _ H) as (_ & Hneg & Hzero).
  destruct (on_succeeded_spec w _ _ _ H) as (_ & _ & _ & _ & _ & Hstate & _).
  split.
  { destruct (Z.eq_dec (item_yield_size (settings c)) 0) as [H0 | H0].
    - now destruct (Hzero H0) as (_ & ? & _).
    - apply Hneg. lia. }
  split; [exact Hstate |].
  split.
  - intros Hlt. now destruct (Hneg Hlt).
  - intros H0. destruct (Hzero H0) as (? & _ & ? & ?). auto.
Qed.

Lemma on_succeeded_no_chunks_witness :
  let s := {| item_yield_size := 0; write_batch_size := 1;
              write_max_workers := 1; write_queue_size := 1000;
              entry_point_files := ["repomd.xml"]%string;
              phase2_patterns := [];
              autoindex_filename := ".__exodus_autoindex";
              cdn_flush_on_commit := true; mirror_writes_enabled := true |} in
  let c := CommitBase.with_written_item_ids ["1"; "2"]%string
             (new_commit (Some phase2) s
                (Demo.database ts_in_progress ps_committing None Demo.rows) []) in
  items (db (on_succeeded Demo.world c).2) = items (db c)
  /\ task_state (task (db (on_succeeded Demo.world c).2)) = ts_complete
  /\ (item_yield_size (settings c) < 0 ->
      (on_succeeded Demo.world c).1 = Ret tt)
  /\ (item_yield_size (settings c) = 0 ->
      (on_succeeded Demo.world c).1
      = Raise (Exc ValueError "range() arg 3 must not be zero")
      /\ publish (db (on_succeeded Demo.world c).2) = publish (db c)
      /\ published_paths (db (on_succeeded Demo.world c).2)
         = published_paths (db c)).
Proof.
  intros s c. apply (on_succeeded_no_chunks Demo.world c). simpl. lia.
Defined.

Section CommitTry.

Context (w : World).

(** The body of the actor's [try], when it returns. *)
Lemma commit_try_returns (c : Commit) c' :
  commit_try w c = (Ret tt, c') ->
  exists c1 x,
    write_publish_items w c = (Ret x, c1)
    /\ stored c' = db c'
    /\ task_state (task (db c')) = ts_complete
    /\ trace c' = trace c1 ++ [DbCommit]
    /\ written_item_ids c' = written_item_ids c1
    /\ (0 < item_yield_size (settings c) ->
        items (db c') = mark_clean (written_item_ids c1) (items (db c))).
Proof.
  unfold commit_try, bind.
  destruct (write_publish_items w c) as [[x | e] c1] eqn:Hwrite;
    [| discriminate].
  destruct (write_publish_items_full w _ _ _ Hwrite)
    as ((_ & Hset & Hdb & _) & _).
  destruct (on_succeeded w c1) as [[[] | e] c2] eqn:Hsucc; [| discriminate].
  destruct (on_succeeded_spec w _ _ _ Hsucc)
    as (_ & _ & Htr & _ & Hids & Hstate & _).
  destruct (on_succeeded_items w _ _ _ Hsucc) as (Hpos & _).
  intros [= <-]. exists c1, x. simpl.
  split; [reflexivity |]. split; [reflexivity |]. split; [exact Hstate |].
  split; [now rewrite Htr |]. split; [exact Hids |].
  intros Hy. rewrite Hset in Hpos. destruct (Hpos Hy) as [_ ->].
  now rewrite Hdb.
Qed.

(** What the body of the actor's [try] has done with an item when it
    returns. *)
Lemma commit_try_written (c : Commit) c' (it : Item) :
  commit_try w c = (Ret tt, c') ->
  0 < item_yield_size (settings c) ->
  0 < write_batch_size (settings c) ->
  written_item_ids c = [] ->
  In it (items (db c)) ->
  (to_write c it = true ->
   In (cleaned it) (items (db c')) /\ written_ok w it (trace c'))
  /\ ((forall it', In it' (items (db c)) -> to_write c it' = true ->
                   item_id it' <> item_id it) ->
      In it (items (db c'))).
Proof.
  intros H Hy Hb Hfresh Hin.
  destruct (commit_try_returns _ _ H)
    as (c1 & x & Hwrite & _ & _ & Htr' & _ & Hitems).
  rewrite (Hitems Hy).
  destruct (write_publish_items_full w _ _ _ Hwrite)
    as (_ & evs & ids & Htr & Hids & _ & _ & Hid & Hret & _).
  rewrite Hfresh in Hids. simpl in Hids.
  pose proof (mark_clean_In (written_item_ids c1) _ _ Hin) as Hmark.
  split.
  - intros Hto. destruct (to_write_selected c it Hin Hto) as [Hsel Hp2].
    destruct (Hret _ eq_refl Hy Hb it Hsel Hp2) as [Hok Hwritten].
    rewrite <- Hids in Hwritten. apply str_in_In in Hwritten.
    rewrite Hwritten in Hmark. split; [exact Hmark |].
    rewrite Htr', Htr, <- app_assoc. apply written_ok_app.
    destruct Hok as (m & batch & Hreq & Hit & Hfine). exists m, batch.
    rewrite kv_requests_app. auto using in_or_app.
  - intros Hothers.
    destruct (str_in (item_id it) (written_item_ids c1)) eqn:Hwritten;
      [| exact Hmark].
    apply str_in_In in Hwritten. rewrite Hids in Hwritten.
    destruct (Hid _ Hwritten) as (it' & Hsel & Heq & Hp2).
    destruct (selected_to_write c it' Hsel Hp2) as [Hin' Hto'].
    now destruct (Hothers it' Hin' Hto').
Qed.

End CommitTry.



(* ===================================================================== *)
(** * The actor, event by event *)
(* ===================================================================== *)

Section ActorFull.

Context (w : World).

Ltac settled :=
  first [ apply grows_refl
        | apply (grows_events _ _ [DbCommit]);
          [ reflexivity | reflexivity | reflexivity
          | constructor; [exact I | constructor] ] ].

(** [should_write], in full: it adds nothing but database commits to the
    trace; it leaves the commit object as it is when it says yes; when it
    does not, the rows of the items and of the published paths are as they
    were unless the task is COMPLETE. *)
Lemma should_write_full (c : Commit) r c' :
  should_write w c = (r, c') ->
  grows c c'
  /\ (r = Ret true -> c' = c)
  /\ (r <> Ret true ->
      task_state (task (db c')) = ts_complete
      \/ (items (db c') = items (db c)
          /\ published_paths (db c') = published_paths (db c))).
Proof.
  unfold should_write, bind, task_ready.
  destruct (task_state (task (db c))) eqn:Hstate; simpl;
    try (intros Hrun; injection Hrun as <- <-;
         split; [apply grows_refl |]; split; [discriminate | now right]).
  all: destruct (deadline (task (db c))) as [d |];
    [destruct (Z.ltb_spec d (utcnow w)) as [Hlt | Hge] |].
  all: try (unfold on_failed, db_commit, set_task_state, set_publish_state,
              bind, ret;
            destruct (mode c) eqn:Hmode; simpl;
            intros Hrun; injection Hrun as <- <-;
            (split; [settled | split; [discriminate | now right]])).
  all: simpl; destruct (publish_ready c); simpl;
    [| unfold db_commit, set_task_state, bind, ret; simpl;
       intros Hrun; injection Hrun as <- <-;
       (split; [settled | split; [discriminate | now right]])].
  all: destruct (has_items c); simpl;
    [intros Hrun; injection Hrun as <- <-;
     (split; [apply grows_refl | split; [reflexivity | congruence]]) |].
  all: unfold bind;
    destruct (on_succeeded w c) as [[[] | e] c1] eqn:Hok;
    destruct (on_succeeded_spec w _ _ _ Hok)
      as (Hm & Hset & Htr & _ & _ & Htask & _);
    unfold db_commit, ret; simpl; intros Hrun; injection Hrun as <- <-;
    (split; [| split; [discriminate | now left]]).
  all: first [ now apply grows_quiet
             | apply (grows_events _ _ [DbCommit]); simpl;
               [ exact Hm | exact Hset | now rewrite Htr
               | constructor; [exact I | constructor] ] ].
Qed.

(** [pre_write], in full. *)
Lemma pre_write_full (c : Commit) r c' :
  pre_write w c = (r, c') ->
  grows c c'
  /\ task (db c') = task (db c)
  /\ published_paths (db c') = published_paths (db c)
  /\ (items (db c') = items (db c)
      \/ (mode c = phase2
          /\ items (db c') = items (db c) ++ enricher_items w)).
Proof.
  unfold pre_write, bind, log, set_items, ret, raise.
  destruct (mode c) eqn:Hmode; simpl.
  - intros H. injection H as <- <-. auto using grows_refl.
  - destruct (enricher_run w); intros H; injection H as <- <-; simpl;
      (split; [| auto]);
      apply (grows_events _ _ [Enrich]); simpl; auto;
      (constructor; [exact Hmode | constructor]).
Qed.

(** [rollback_publish_items], event by event. *)
Lemma rollback_grows (e : exc) (c : Commit) r c' :
  rollback_publish_items w e c = (r, c') ->
  same_rows c c' /\ grows c c'.
Proof.
  assert (Hbase : forall c r c',
             base_rollback_publish_items w e c = (r, c') ->
             same_rows c c' /\ grows c c').
  { intros c0 r0 c0' H.
    destruct (base_rollback_spec w _ _ _ _ H)
      as (Hrows & _ & _ & evs & Htr & Hev & _).
    split; [exact Hrows |].
    eapply same_rows_grows; [exact Hrows | exact Htr |].
    constructor; [exact I |].
    eapply Forall_impl; [exact Hev |].
    intros ev. apply rollback_writer_run_event. }
  unfold rollback_publish_items. destruct (mode c) eqn:Hmode.
  - apply Hbase.
  - unfold bind.
    destruct (base_rollback_publish_items w e c) as [[[] | e1] c1] eqn:Hroll;
      destruct (Hbase _ _ _ Hroll) as [Hrows1 Hg1].
    + intros Hflush.
      assert (Hmode1 : mode c1 = phase2)
        by (destruct Hrows1 as (-> & _); exact Hmode).
      destruct (flush_cache_grows w _ _ _ Hflush Hmode1) as (Hg2 & Hrows2 & _).
      eauto using same_rows_trans, grows_trans.
    + intros [= <- <-]. auto.
Qed.

(** The actor's [except] clause, in full: the rows of the items and of the
    published paths stay as they are. *)
Lemma commit_except_full (e : exc) (c : Commit) r c' :
  commit_except w e c = (r, c') ->
  grows c c'
  /\ items (db c') = items (db c)
  /\ published_paths (db c') = published_paths (db c)
  /\ task_state (task (db c')) = ts_failed.
Proof.
  unfold commit_except, bind, try_finally, log.
  destruct (rollback_publish_items w e (traced LogTaskError c))
    as [r1 c1] eqn:Hroll.
  destruct (rollback_grows _ _ _ _ Hroll) as ((Hmode & Hset & Hdb & _) & Hg1).
  simpl in Hmode, Hset, Hdb.
  assert (Hg0 : grows c (traced LogTaskError c)).
  { apply (grows_events _ _ [LogTaskError]); try reflexivity.
    constructor; [exact I | constructor]. }
  assert (Hfin : exists c2,
             (on_failed ;; db_commit)%commit c1 = (Ret tt, c2)
             /\ grows c1 c2
             /\ items (db c2) = items (db c1)
             /\ published_paths (db c2) = published_paths (db c1)
             /\ task_state (task (db c2)) = ts_failed).
  { unfold bind, on_failed, db_commit, set_task_state, set_publish_state.
    destruct (mode c1) eqn:Hm; simpl; eexists;
      (split; [reflexivity |]); (split; [| auto]);
      apply grows_db_commit; simpl; auto. }
  destruct Hfin as (c2 & Hfin & Hg2 & Hitems & Hpaths & Htask).
  unfold bind in Hfin. rewrite Hfin.
  assert (Hc : forall r0 : Res unit,
             (match r0 with
              | Ret _ => ret tt c2
              | Raise e0 => (Raise e0, c2)
              end = (r, c')) -> c' = c2)
    by (intros [[] | ?] [= _ <-]; reflexivity).
  intros H. apply Hc in H. subst c'.
  split; [eauto using grows_trans |].
  rewrite Hitems, Hpaths, Hdb. auto.
Qed.

(** The body of the actor's [try], in full. *)
Lemma commit_try_full (c : Commit) r c' :
  commit_try w c = (r, c') ->
  grows c c'
  /\ (r = Ret tt -> task_state (task (db c')) = ts_complete)
  /\ (forall e, r = Raise e ->
        items (db c') = items (db c)
        /\ published_paths (db c') = published_paths (db c)).
Proof.
  unfold commit_try, bind.
  destruct (write_publish_items w c) as [[x | e] c1] eqn:Hwrite;
    destruct (write_publish_items_full w _ _ _ Hwrite)
      as (Hrows & evs & ids & Htr & _ & Hev & _);
    pose proof (same_rows_grows _ _ _ Hrows Htr Hev) as Hg1;
    destruct Hrows as (Hmode & Hset & Hdb & _).
  - destruct (on_succeeded w c1) as [[[] | e] c2] eqn:Hsucc;
      destruct (on_succeeded_spec w _ _ _ Hsucc)
        as (Hm2 & Hs2 & Htr2 & _ & _ & Hstate & Hres & _);
      pose proof (grows_quiet _ _ Hm2 Hs2 Htr2) as Hg2.
    + intros [= <- <-]. split; [| split; [auto | discriminate]].
      eapply grows_trans; [exact Hg1 |]. eapply grows_trans; [exact Hg2 |].
      apply (grows_events _ _ [DbCommit]); try reflexivity.
      constructor; [exact I | constructor].
    + intros [= <- <-]. split; [eauto using grows_trans |].
      split; [discriminate |]. intros e' _.
      destruct Hres as [Habs | (e'' & _ & Hzero)]; [discriminate |].
      destruct (on_succeeded_items w _ _ _ Hsucc) as (_ & _ & Hz).
      destruct (Hz Hzero) as (_ & -> & _ & ->). now rewrite Hdb.
  - intros [= <- <-]. split; [exact Hg1 |]. split; [discriminate |].
    intros _ _. now rewrite Hdb.
Qed.

(** The actor, in full. *)
Lemma commit_full (c : Commit) r c' :
  commit w c = (r, c') ->
  grows c c'
  /\ (r = Ret tt -> terminal (task_state (task (db c'))))
  /\ (task_state (task (db c')) <> ts_complete ->
      published_paths (db c') = published_paths (db c)
      /\ (items (db c') = items (db c)
          \/ (mode c = phase2
              /\ items (db c') = items (db c) ++ enricher_items w))).
Proof.
  intros Hrun. unfold commit in Hrun.
  apply bind_inv in Hrun as [(write & c1 & Hsw & Hrun) | (e & Hsw & ->)];
    pose proof (should_write_verdict w _ _ _ Hsw) as Hverdict;
    destruct (should_write_full _ _ _ Hsw) as (Hg1 & Hyes & Hno).
  2: { split; [exact Hg1 |]. split; [discriminate |].
       intros Hlive. destruct Hno as [Hdone | [-> ->]];
         [discriminate | contradiction | auto]. }
  destruct write; simpl in Hrun.
  - (* the write path *)
    rewrite (Hyes eq_refl) in *. clear Hyes Hno Hg1 Hverdict Hsw c1.
    apply bind_inv in Hrun as [([] & c2 & Hset & Hrun) | (e & Habs & _)];
      [| discriminate].
    unfold set_task_state in Hset. injection Hset as <-.
    apply bind_inv in Hrun as [([] & c3 & Hcommit & Hrun) | (e & Habs & _)];
      [| discriminate].
    unfold db_commit in Hcommit. injection Hcommit as <-.
    match type of Hrun with
    | bind _ _ ?c0 = _ => set (c3 := c0) in *
    end.
    assert (Hg3 : grows c c3).
    { apply (grows_events _ _ [DbCommit]); try reflexivity.
      constructor; [exact I | constructor]. }
    assert (Hframe : forall c4,
               published_paths (db c4) = published_paths (db c3)
               /\ (items (db c4) = items (db c3)
                   \/ (mode c3 = phase2
                       /\ items (db c4) = items (db c3) ++ enricher_items w)) ->
               published_paths (db c4) = published_paths (db c)
               /\ (items (db c4) = items (db c)
                   \/ (mode c = phase2
                       /\ items (db c4) = items (db c) ++ enricher_items w)))
      by (intros c4 H; exact H).
    apply bind_inv in Hrun as [([] & c4 & Hpre & Hrun) | (e & Hpre & ->)];
      destruct (pre_write_full _ _ _ Hpre) as (Hg4 & Htask4 & Hpaths4 & Hitems4).
    2: { split; [eauto using grows_trans |]. split; [discriminate |].
         intros _. apply Hframe. auto. }
    unfold try_except in Hrun.
    destruct (commit_try w c4) as [[[] | e] c5] eqn:Htry;
      destruct (commit_try_full _ _ _ Htry) as (Hg5 & Hok & Hkeep).
    + injection Hrun as <- <-.
      split; [eauto using grows_trans |].
      split; [intros _; left; auto |].
      intros Hlive. now destruct (Hlive (Hok eq_refl)).
    + destruct (commit_except_full _ _ _ _ Hrun)
        as (Hg6 & Hitems6 & Hpaths6 & Hfailed).
      split; [eauto using grows_trans |].
      split; [intros _; right; exact Hfailed |].
      intros _. apply Hframe.
      destruct (Hkeep _ eq_refl) as [Hitems5 Hpaths5].
      rewrite Hitems6, Hpaths6, Hitems5, Hpaths5. auto.
  - (* a gate said no *)
    injection Hrun as <- <-.
    split; [exact Hg1 |].
    split.
    + intros _.
      inversion Hverdict as [| Hterm | c1' Hterm | ]; subst; assumption.
    + intros Hlive. destruct Hno as [Hdone | [-> ->]];
        [discriminate | contradiction | auto].
Qed.

(** Nothing is done for a task that is over. *)
Lemma commit_terminal (c : Commit) :
  terminal (task_state (task (db c))) -> commit w c = (Ret tt, c).
Proof.
  intros Hterm. unfold commit, bind, should_write, task_ready, bind.
  destruct Hterm as [-> | ->]; reflexivity.
Qed.

End ActorFull.

(** X17. Every event of a run of [commit] is one that the class of the
    commit allows: every request of a writer carries the [delete] flag of
    the writer, and only the writers of the rollback delete; a
    [CommitPhase1] runs no "Writing phase 2 items" writer, no autoindex
    enricher and no cache flush; the cache is flushed only when
    [cdn_flush_on_commit] is set. *)
Theorem commit_events (w : World) (commit_mode : option CommitModes)
    (s : Settings) (d : Db) (schedule : list tick) :
  Forall (run_event (new_commit commit_mode s d schedule))
    (trace (commit w (new_commit commit_mode s d schedule)).2).
Proof.
  destruct (commit w (new_commit commit_mode s d schedule)) as [r c'] eqn:H.
  destruct (commit_full w _ _ _ H) as ((_ & _ & evs & Htr & Hev) & _).
  simpl in *. now rewrite Htr.
Qed.

(** X18. Unless [commit] leaves the task COMPLETE, it clears no dirty flag
    and records no published path: the rows of the items are those it
    found, with the rows that the autoindex enricher added in
    [CommitPhase2]. *)
Theorem commit_keeps_rows_unless_complete (w : World) (c : Commit) :
  task_state (task (db (commit w c).2)) <> ts_complete ->
  published_paths (db (commit w c).2) = published_paths (db c)
  /\ (items (db (commit w c).2) = items (db c)
      \/ (mode c = phase2
          /\ items (db (commit w c).2) = items (db c) ++ enricher_items w)).
Proof.
  destruct (commit w c) as [r c'] eqn:H. simpl.
  now destruct (commit_full w _ _ _ H) as (_ & _ & Hkeep).
Qed.

Lemma commit_keeps_rows_unless_complete_witness :
  let c := new_commit (Some phase2) Demo.settings
             (Demo.database ts_not_started ps_committing (Some 200) Demo.rows)
             [] in
  published_paths (db (commit Demo.world_kv_fails c).2) = published_paths (db c)
  /\ (items (db (commit Demo.world_kv_fails c).2) = items (db c)
      \/ (mode c = phase2
          /\ items (db (commit Demo.world_kv_fails c).2)
             = items (db c) ++ enricher_items Demo.world_kv_fails)).
Proof.
  intros c. apply (commit_keeps_rows_unless_complete Demo.world_kv_fails c).
  vm_compute. discriminate.
Defined.

(** X19. A commit that has returned is not done again: when [commit]
    returns, the task is COMPLETE or FAILED, and a second run of [commit] on
    what the first one left returns at once and changes nothing. *)
Theorem commit_twice (w : World) (c : Commit) :
  (commit w c).1 = Ret tt ->
  terminal (task_state (task (db (commit w c).2)))
  /\ commit w (commit w c).2 = (Ret tt, (commit w c).2).
Proof.
  destruct (commit w c) as [r c'] eqn:H. simpl. intros ->.
  destruct (commit_full w _ _ _ H) as (_ & Hterm & _).
  split; [auto |]. apply commit_terminal. auto.
Qed.

Lemma commit_twice_witness :
  let c := new_commit (Some phase2) Demo.settings
             (Demo.database ts_not_started ps_committing (Some 200) Demo.rows)
             [] in
  terminal (task_state (task (db (commit Demo.world c).2)))
  /\ commit Demo.world (commit Demo.world c).2
     = (Ret tt, (commit Demo.world c).2).
Proof.
  intros c. apply (commit_twice Demo.world c). vm_compute. reflexivity.
Defined.

(** X20. A live task whose publish is in a state that the class does not
    accept is failed without anything else being touched: the task is
    FAILED and committed, the publish keeps its state also in
    [CommitPhase2], and there is no writer, no flush and no change to the
    items. *)
Theorem publish_not_ready_fails_task (w : World) (c : Commit) :
  ~ terminal (task_state (task (db c))) ->
  (forall d, deadline (task (db c)) = Some d -> utcnow w <= d) ->
  publish_ready c = false ->
  (commit w c).1 = Ret tt
  /\ task_state (task (db (commit w c).2)) = ts_failed
  /\ stored (commit w c).2 = db (commit w c).2
  /\ publish (db (commit w c).2) = publish (db c)
  /\ items (db (commit w c).2) = items (db c)
  /\ published_paths (db (commit w c).2) = published_paths (db c)
  /\ trace (commit w c).2 = trace c ++ [DbCommit].
Proof.
  intros Hlive Hdeadline Hready.
  unfold commit, bind, should_write, bind, task_ready.
  destruct (task_state (task (db c))) eqn:Hstate;
    try (exfalso; apply Hlive; unfold terminal; now auto).
  all: destruct (deadline (task (db c))) as [d |] eqn:Hd;
    [specialize (Hdeadline d eq_refl);
     destruct (Z.ltb_spec d (utcnow w)) as [Hlt | _]; [lia |] |].
  all: simpl; rewrite Hready; simpl; auto 10.
Qed.

Lemma publish_not_ready_fails_task_witness :
  let c := new_commit (Some phase2) Demo.settings
             (Demo.database ts_not_started ps_pending (Some 200) Demo.rows)
             [] in
  (commit Demo.world c).1 = Ret tt
  /\ task_state (task (db (commit Demo.world c).2)) = ts_failed
  /\ stored (commit Demo.world c).2 = db (commit Demo.world c).2
  /\ publish (db (commit Demo.world c).2) = publish (db c)
  /\ items (db (commit Demo.world c).2) = items (db c)
  /\ published_paths (db (commit Demo.world c).2) = published_paths (db c)
  /\ trace (commit Demo.world c).2 = trace c ++ [DbCommit].
Proof.
  intros c. apply (publish_not_ready_fails_task Demo.world c).
  - simpl. intros [H | H]; discriminate.
  - simpl. intros d [= <-]. lia.
  - reflexivity.
Defined.

Section Complete.

Context (w : World).

Lemma should_write_complete (c : Commit) r c' :
  should_write w c = (r, c') ->
  ~ terminal (task_state (task (db c))) ->
  task_state (task (db c')) = ts_complete ->
  r <> Ret true ->
  has_items c = false.
Proof.
  unfold should_write, bind, task_ready.
  destruct (task_state (task (db c))) eqn:Hstate; simpl;
    try (intros _ Hlive; exfalso; apply Hlive; unfold terminal; now auto).
  all: destruct (deadline (task (db c))) as [d |];
    [destruct (Z.ltb_spec d (utcnow w)) as [Hlt | Hge] |].
  all: try (unfold on_failed, db_commit, set_task_state, set_publish_state,
              bind, ret;
            destruct (mode c) eqn:Hmode; simpl;
            intros Hrun; injection Hrun as <- <-; simpl;
            intros; discriminate).
  all: simpl; destruct (publish_ready c); simpl;
    [| unfold db_commit, set_task_state, bind, ret; simpl;
       intros Hrun; injection Hrun as <- <-; simpl; intros; discriminate].
  all: destruct (has_items c); simpl; [| reflexivity].
  all: intros Hrun; injection Hrun as <- <-; intros; congruence.
Qed.

Lemma no_items_none_to_write (c : Commit) (it : Item) :
  has_items c = false -> In it (items (db c)) -> to_write c it = false.
Proof.
  unfold has_items, item_count. intros Hnone Hin.
  apply Z.ltb_ge in Hnone.
  destruct (List.filter _ (items (db c))) as [| x l] eqn:Hfilter;
    [| simpl in Hnone; lia].
  unfold to_write, item_selected.
  destruct (String.eqb (item_publish_id it) (publish_id (publish (db c))))
    eqn:Hid; [| reflexivity].
  assert (Habs : In it []); [| destruct Habs].
  rewrite <- Hfilter. apply filter_In. auto.
Qed.

Lemma to_write_same (c c' : Commit) (it : Item) :
  mode c' = mode c -> settings c' = settings c ->
  publish (db c') = publish (db c) ->
  to_write c' it = to_write c it.
Proof.
  unfold to_write, item_selected. now intros -> -> ->.
Qed.

(** The actor, when it leaves a task COMPLETE that was not over before. *)
Lemma commit_complete (c : Commit) r c' (it : Item) :
  commit w c = (r, c') ->
  ~ terminal (task_state (task (db c))) ->
  task_state (task (db c')) = ts_complete ->
  0 < item_yield_size (settings c) ->
  0 < write_batch_size (settings c) ->
  written_item_ids c = [] ->
  In it (items (db c)) ->
  to_write c it = true ->
  In (cleaned it) (items (db c')) /\ written_ok w it (trace c').
Proof.
  intros Hrun Hlive Hdone Hy Hb Hfresh Hin Hto. unfold commit in Hrun.
  assert (Hgate : forall r1 c1,
             should_write w c = (r1, c1) -> c' = c1 -> r1 <> Ret true -> False).
  { intros r1 c1 Hsw -> Hr1.
    pose proof (should_write_complete _ _ _ Hsw Hlive Hdone Hr1) as Hnone.
    rewrite (no_items_none_to_write _ _ Hnone Hin) in Hto. discriminate. }
  apply bind_inv in Hrun as [(write & c1 & Hsw & Hrun) | (e & Hsw & ->)].
  2: { exfalso. eapply Hgate; eauto; discriminate. }
  destruct write; simpl in Hrun.
  2: { injection Hrun as <- <-. exfalso. eapply Hgate; eauto; discriminate. }
  destruct (should_write_full w _ _ _ Hsw) as (_ & Hyes & _).
  rewrite (Hyes eq_refl) in *. clear Hyes Hsw Hgate c1.
  apply bind_inv in Hrun as [([] & c2 & Hset & Hrun) | (e & Habs & _)];
    [| discriminate].
  unfold set_task_state in Hset. injection Hset as <-.
  apply bind_inv in Hrun as [([] & c3 & Hcommit & Hrun) | (e & Habs & _)];
    [| discriminate].
  unfold db_commit in Hcommit. injection Hcommit as <-.
  apply bind_inv in Hrun as [([] & c4 & Hpre & Hrun) | (e & Hpre & ->)];
    destruct (pre_write_spec w _ _ _ Hpre)
      as (Hm4 & Hs4 & _ & Htask4 & Hpub4 & Hids4 & _);
    destruct (pre_write_full w _ _ _ Hpre) as (_ & _ & _ & Hitems4);
    simpl in Hm4, Hs4, Htask4, Hpub4, Hids4, Hitems4.
  2: { rewrite Htask4 in Hdone. discriminate. }
  unfold try_except in Hrun.
  destruct (commit_try w c4) as [[[] | e] c5] eqn:Htry.
  - injection Hrun as <- <-.
    assert (Hin4 : In it (items (db c4))).
    { destruct Hitems4 as [-> | [_ ->]]; [exact Hin |].
      apply in_or_app. now left. }
    assert (Hto4 : to_write c4 it = true)
      by (rewrite (to_write_same c c4); auto).
    rewrite <- Hs4 in Hy, Hb. rewrite <- Hids4 in Hfresh.
    destruct (commit_try_written w _ _ it Htry Hy Hb Hfresh Hin4) as [Hclean _].
    auto.
  - destruct (commit_except_full w _ _ _ _ Hrun) as (_ & _ & _ & Hfailed).
    rewrite Hfailed in Hdone. discriminate.
Qed.

End Complete.

(** X21. A task that [commit] takes from a state that is not over to
    COMPLETE has written all it was to write: every item that the commit
    was to write was handed to [write_batch] in a write request which did
    not fail with an exception that the workers catch, and has its dirty
    flag cleared. *)
Theorem commit_complete_all_written (w : World) (c : Commit) (it : Item) :
  ~ terminal (task_state (task (db c))) ->
  task_state (task (db (commit w c).2)) = ts_complete ->
  0 < item_yield_size (settings c) ->
  0 < write_batch_size (settings c) ->
  written_item_ids c = [] ->
  In it (items (db c)) ->
  to_write c it = true ->
  In (cleaned it) (items (db (commit w c).2))
  /\ written_ok w it (trace (commit w c).2).
Proof.
  destruct (commit w c) as [r c'] eqn:H. simpl. intros.
  eapply commit_complete; eassumption.
Qed.

Lemma commit_complete_all_written_witness :
  let c := new_commit (Some phase2) Demo.settings
             (Demo.database ts_not_started ps_committing (Some 200) Demo.rows)
             [] in
  let it := Demo.item "1" "/a/x.rpm" in
  In (cleaned it) (items (db (commit Demo.world c).2))
  /\ written_ok Demo.world it (trace (commit Demo.world c).2).
Proof.
  intros c it. apply (commit_complete_all_written Demo.world c it).
  - simpl. intros [H | H]; discriminate.
  - vm_compute. reflexivity.
  - simpl. lia.
  - simpl. lia.
  - reflexivity.
  - simpl. left. reflexivity.
  - vm_compute. reflexivity.
Defined.

(* ===================================================================== *)
(** * The cache flush and the published paths *)
(* ===================================================================== *)

Section FlushPaths.

Context (w : World).



End FlushPaths.



Section Upsert.









End Upsert.



Section Paths.

Local Open Scope string_scope.

Lemma rfind_slash_from_app (a b : string) (pos last : Z) :
  rfind_slash_from (a ++ b) pos last
  = rfind_slash_from b (pos + Z.of_nat (String.length a))
      (rfind_slash_from a pos last).
Proof.
  revert pos last. induction a as [| c a IH]; intros pos last.
  - simpl. now rewrite Z.add_0_r.
  - cbn [append rfind_slash_from String.length]. rewrite IH.
    f_equal. lia.
Qed.

Lemma rfind_slash_from_none (b : string) (pos last : Z) :
  no_slash b = true -> rfind_slash_from b pos last = last.
Proof.
  revert pos. induction b as [| c b IH]; intros pos; simpl; [reflexivity |].
  intros [Hc Hb]%andb_prop. apply negb_true_iff in Hc. rewrite Hc. auto.
Qed.

Lemma rfind_slash_dir (dir name : string) :
  no_slash name = true ->
  rfind_slash (dir ++ "/" ++ name) = Z.of_nat (String.length dir).
Proof.
  intros Hname. unfold rfind_slash. rewrite rfind_slash_from_app.
  cbn [append rfind_slash_from]. simpl (Ascii.eqb _ _).
  now rewrite rfind_slash_from_none.
Qed.

Lemma substring_zero (s : string) : substring 0 0 s = "".
Proof. now destruct s. Qed.

Lemma substring_all (s : string) : substring 0 (String.length s) s = s.
Proof. induction s as [| c s IH]; simpl; [reflexivity | now rewrite IH]. Qed.

Lemma substring_after (dir name : string) (c : ascii) (n : nat) :
  substring (S (String.length dir)) n (dir ++ String c name)
  = substring 0 n name.
Proof. induction dir as [| x dir IH]; simpl; auto. Qed.

Lemma substring_upto (dir name : string) (c : ascii) :
  substring 0 (S (String.length dir)) (dir ++ String c name)
  = dir ++ String c "".
Proof.
  induction dir as [| x dir IH]; simpl.
  - now rewrite substring_zero.
  - f_equal. exact IH.
Qed.

Lemma length_after (dir name : string) (c : ascii) :
  (String.length (dir ++ String c name) - S (String.length dir))%nat
  = String.length name.
Proof. induction dir as [| x dir IH]; simpl; [lia | exact IH]. Qed.

Lemma basename_join (dir name : string) :
  no_slash name = true -> basename (dir ++ "/" ++ name) = name.
Proof.
  intros Hname. unfold basename, str_from. rewrite (rfind_slash_dir _ _ Hname).
  replace (Z.to_nat (Z.of_nat (String.length dir) + 1))
    with (S (String.length dir)) by lia.
  cbn [append]. rewrite length_after, substring_after. apply substring_all.
Qed.

Lemma rstrip_slash_snoc (dir : string) :
  rstrip_slash (dir ++ "/") = rstrip_slash dir.
Proof.
  induction dir as [| c dir IH]; [reflexivity |].
  cbn [append rstrip_slash]. now rewrite IH.
Qed.

Lemma rstrip_slash_id (dir : string) :
  endswith_slash dir = false -> rstrip_slash dir = dir.
Proof.
  induction dir as [| c dir IH]; [reflexivity |].
  destruct dir as [| c' dir'].
  - simpl. now intros ->.
  - intros H.
    change (rstrip_slash (String c (String c' dir')))
      with (match rstrip_slash (String c' dir') with
            | "" => if Ascii.eqb c "/" then "" else String c ""
            | String x r => String c (String x r)
            end).
    rewrite IH by exact H. reflexivity.
Qed.

Lemma dirname_join (dir name : string) :
  no_slash name = true ->
  endswith_slash dir = false ->
  dirname (dir ++ "/" ++ name) = match dir with "" => "/" | _ => dir end.
Proof.
  intros Hname Hdir. unfold dirname, str_upto.
  rewrite (rfind_slash_dir _ _ Hname).
  replace (Z.to_nat (Z.of_nat (String.length dir) + 1))
    with (S (String.length dir)) by lia.
  cbn [append]. rewrite substring_upto.
  change (dir ++ String "/" "") with (dir ++ "/").
  rewrite rstrip_slash_snoc, (rstrip_slash_id _ Hdir).
  now destruct dir.
Qed.

End Paths.

(** X24. The cache is flushed for the directory of an index file, not for
    the file: for a directory written without a slash at its end,
    [add_flush_paths] turns the path of the directory's index file into the
    directory with one slash at its end. *)
Theorem autoindex_flushes_directory (s : Settings) (dir : string) :
  no_slash (autoindex_filename s) = true ->
  endswith_slash dir = false ->
  flush_path s (dir ++ "/" ++ autoindex_filename s) = (dir ++ "/")%string.
Proof.
  intros Hname Hdir. unfold flush_path.
  rewrite (basename_join _ _ Hname), String.eqb_refl.
  rewrite (dirname_join _ _ Hname Hdir).
  destruct dir as [| c dir']; [reflexivity |].
  now rewrite Hdir.
Qed.

Lemma autoindex_flushes_directory_witness :
  flush_path Demo.settings
    ("/some/dir" ++ "/" ++ autoindex_filename Demo.settings)
  = ("/some/dir" ++ "/")%string.
Proof.
  apply (autoindex_flushes_directory Demo.settings "/some/dir");
    reflexivity.
Defined.

(* ===================================================================== *)
(** * What the rollback deletes *)
(* ===================================================================== *)

Section RollbackSound.

Context (w : World).

(** The loop of the rollback asks for deletes only, and only of items whose
    id is in one of the chunks. *)
Lemma rollback_chunks_sound (chunks : list (list string)) (c : Commit) r c' :
  rollback_chunks w chunks c = (r, c') ->
  exists evs,
    trace c' = trace c ++ evs
    /\ forall m d batch it,
         In (m, d, batch) (kv_requests evs) -> In it batch ->
         m = RollingBack /\ d = true /\ In it (items (db c))
         /\ exists chunk, In chunk chunks /\ In (item_id it) chunk.
Proof.
  revert c. induction chunks as [| item_ids rest IH]; intros c H; simpl in H.
  - injection H as <- <-. exists []. rewrite app_nil_r.
    split; [reflexivity | intros ? ? ? ? []].
  - unfold bind in H.
    destruct (BW.queue_batches w (items_by_id item_ids c)
                (BW.enter (settings c) (Z.of_nat (length item_ids))
                   RollingBack true) (sched c))
      as [[ids bw] s] eqn:Hq.
    unfold BW.queue_batches in Hq.
    destruct (queue_batches_loop_full w _ _ _ _ _ _ _ Hq (reach_enter w _ _ _ _))
      as (Hr & (_ & Hm0 & Hd0 & _) & queued & Hput & _ & Hsub & _).
    simpl in Hput, Hsub.
    destruct (exit_writer w (Ret tt) bw (with_sched s c)) as [r1 c1] eqn:Hexit.
    destruct (exit_writer_full w _ _ _ _ _ Hexit Hr)
      as (bw' & Htr & (_ & Hm & Hd & _) & (_ & _ & Hdb & _) & _ & _ & Hput'
          & Hu & Hincl & _).
    simpl in Htr, Hdb.
    assert (Hhere : forall m d batch it,
               In (m, d, batch) (requests_of bw') -> In it batch ->
               m = RollingBack /\ d = true /\ In it (items (db c))
               /\ In (item_id it) item_ids).
    { intros m d batch it Hreq Hit.
      destruct (writer_requests_items _ _ _ _ _ Hu Hincl Hreq Hit)
        as (-> & -> & Hin).
      rewrite Hput', Hput in Hin. apply in_concat in Hin as (b & Hb & Hib).
      apply (sublist_In _ _ _ Hsub) in Hb. unfold BW.get_batches in Hb.
      pose proof (chunks_incl _ _ _ _ Hb Hib) as Hsel.
      apply filter_In in Hsel as [Hitems Hid%str_in_In].
      rewrite Hm, Hm0, Hd, Hd0. auto. }
    assert (Hfirst : exists evs1,
               trace c1 = trace c ++ evs1
               /\ forall m d batch it,
                    In (m, d, batch) (kv_requests evs1) -> In it batch ->
                    m = RollingBack /\ d = true /\ In it (items (db c))
                    /\ In (item_id it) item_ids).
    { exists [Writer bw']. split; [exact Htr |].
      intros m d batch it Hreq. simpl in Hreq. rewrite app_nil_r in Hreq.
      eauto. }
    destruct Hfirst as (evs1 & Htr1 & Hreq1).
    destruct r1 as [[] | e1].
    + destruct (IH _ H) as (evs2 & Htr2 & Hreq2).
      exists (evs1 ++ evs2). split; [now rewrite Htr2, Htr1, app_assoc |].
      intros m d batch it Hreq Hit. rewrite kv_requests_app in Hreq.
      apply in_app_or in Hreq as [Hreq | Hreq].
      * destruct (Hreq1 _ _ _ _ Hreq Hit) as (? & ? & ? & ?).
        repeat split; auto. exists item_ids. split; [now left | assumption].
      * destruct (Hreq2 _ _ _ _ Hreq Hit) as (? & ? & Hitems & chunk & ? & ?).
        rewrite Hdb in Hitems. repeat split; auto.
        exists chunk. split; [now right | assumption].
    + injection H as <- <-. exists evs1. split; [exact Htr1 |].
      intros m d batch it Hreq Hit.
      destruct (Hreq1 _ _ _ _ Hreq Hit) as (? & ? & ? & ?).
      repeat split; auto. exists item_ids. split; [now left | assumption].
Qed.

(** [rollback_publish_items] of the two classes asks for deletes only, and
    only of items whose id is in [written_item_ids]. *)
Lemma rollback_sound (e : exc) (c : Commit) r c' :
  rollback_publish_items w e c = (r, c') ->
  exists evs,
    trace c' = trace c ++ evs
    /\ forall m d batch it,
         In (m, d, batch) (kv_requests evs) -> In it batch ->
         m = RollingBack /\ d = true /\ In it (items (db c))
         /\ In (item_id it) (written_item_ids c).
Proof.
  assert (Hbase : forall c r c',
             base_rollback_publish_items w e c = (r, c') ->
             exists evs,
               trace c' = trace c ++ evs
               /\ forall m d batch it,
                    In (m, d, batch) (kv_requests evs) -> In it batch ->
                    m = RollingBack /\ d = true /\ In it (items (db c))
                    /\ In (item_id it) (written_item_ids c)).
  { clear c r c'. intros c r0 c0. unfold base_rollback_publish_items, bind, log,
      written_item_ids_batched.
    cbn [settings traced written_item_ids].
    destruct (Z.eqb_spec (item_yield_size (settings c)) 0) as [Hz | Hnz].
    - intros [= <- <-]. exists [LogRollingBack (length (written_item_ids c))].
      split; [reflexivity | intros ? ? ? ? []].
    - destruct (Z.ltb_spec (item_yield_size (settings c)) 0) as [Hneg | Hpos];
        intros H.
      + simpl in H. injection H as <- <-.
        exists [LogRollingBack (length (written_item_ids c))].
        split; [reflexivity | intros ? ? ? ? []].
      + destruct (rollback_chunks_sound _ _ _ _ H) as (evs & Htr & Hreq).
        simpl in Htr, Hreq.
        exists (LogRollingBack (length (written_item_ids c)) :: evs).
        split; [now rewrite Htr, <- app_assoc |].
        intros m d batch it Hin Hit.
        destruct (Hreq _ _ _ _ Hin Hit) as (? & ? & ? & chunk & Hchunk & Hid).
        repeat split; auto. eapply chunks_incl; eassumption. }
  unfold rollback_publish_items. destruct (mode c) eqn:Hmode.
  - apply Hbase.
  - unfold bind.
    destruct (base_rollback_publish_items w e c) as [[[] | e1] c1] eqn:Hroll;
      destruct (Hbase _ _ _ Hroll) as (evs & Htr & Hreq).
    + intros Hflush.
      destruct (base_rollback_spec w _ _ _ _ Hroll) as ((Hm1 & _) & _).
      assert (Hmode1 : mode c1 = phase2) by congruence.
      destruct (flush_cache_grows w _ _ _ Hflush Hmode1)
        as ((_ & _ & evs2 & Htr2 & _) & _ & _ & Hkv).
      exists (evs ++ evs2). split; [now rewrite Htr2, Htr, app_assoc |].
      intros m d batch it Hin Hit. apply (Hreq m d batch it); [| exact Hit].
      rewrite Htr2, kv_requests_app in Hkv.
      rewrite <- (app_nil_r (kv_requests (trace c1))) in Hkv at 2.
      apply app_inv_head in Hkv.
      rewrite kv_requests_app, Hkv, app_nil_r in Hin. exact Hin.
    + intros [= <- <-]. eauto.
Qed.

End RollbackSound.

(** X25. The rollback deletes nothing that was not written:
    [rollback_publish_items] asks [write_batch] for deletes only, through
    writers "Rolling back", and only of items whose id is in
    [written_item_ids]. *)
Theorem rollback_deletes_only_written (w : World) (e : exc) (c : Commit)
    (m : scope) (d : bool) (batch : list Item) (it : Item) :
  In (m, d, batch) (kv_requests (trace (rollback_publish_items w e c).2)) ->
  ~ In (m, d, batch) (kv_requests (trace c)) ->
  In it batch ->
  m = RollingBack /\ d = true
  /\ In it (items (db c)) /\ In (item_id it) (written_item_ids c).
Proof.
  destruct (rollback_publish_items w e c) as [r c'] eqn:H. simpl.
  destruct (rollback_sound w _ _ _ _ H) as (evs & Htr & Hreq).
  rewrite Htr, kv_requests_app.
  intros [Hold | Hnew]%in_app_or Hfresh Hit; [contradiction | eauto].
Qed.

Lemma rollback_deletes_only_written_witness :
  let c := CommitBase.with_written_item_ids ["1"]%string
             (new_commit (Some phase2) Demo.settings
                (Demo.database ts_in_progress ps_committing None Demo.rows) []) in
  let it := Demo.item "1" "/a/x.rpm" in
  RollingBack = RollingBack /\ true = true
  /\ In it (items (db c)) /\ In (item_id it) (written_item_ids c).
Proof.
  intros c it.
  apply (rollback_deletes_only_written Demo.world
           (Exc RuntimeError "Unprocessed items") c RollingBack true [it] it).
  - vm_compute. left. reflexivity.
  - simpl. intros [].
  - simpl. left. reflexivity.
Defined.

(* ===================================================================== *)
(** * [stop], on the queue itself *)
(* ===================================================================== *)

Section Fifo.

Context (w : World).

Lemma entries_put_app (l1 l2 : list bw_event) :
  entries_put (l1 ++ l2) = entries_put l1 ++ entries_put l2.
Proof. unfold entries_put. apply flat_map_app. Qed.

Lemma exited_count_insert (ts : list thread) (i : nat) (old new : thread) :
  ts !! i = Some old ->
  (exited_count (<[i:=new]> ts) + (if is_exited old then 1 else 0)
   = exited_count ts + (if is_exited new then 1 else 0))%nat.
Proof.
  unfold exited_count. revert i.
  induction ts as [| t ts IH]; intros i; [discriminate |].
  destruct i as [| i]; simpl.
  - intros [= ->]. destruct (is_exited old), (is_exited new); simpl; lia.
  - intros H. specialize (IH i H). destruct (is_exited t); simpl; lia.
Qed.

Lemma put_batches_entries (log : list bw_event) :
  put_batches log = queued_batches (entries_put log).
Proof.
  unfold put_batches, queued_batches, entries_put.
  induction log as [| [x | d b o] log IH]; simpl; [reflexivity | | exact IH].
  destruct x; simpl; now rewrite IH.
Qed.

Lemma queued_batches_app (q1 q2 : list entry) :
  queued_batches (q1 ++ q2) = queued_batches q1 ++ queued_batches q2.
Proof. unfold queued_batches. apply flat_map_app. Qed.

(** The queue is first in, first out, and only a worker that goes on to
    write, or to end, takes anything from it. *)
Lemma move_taken (bw bw' : BatchWriter) :
  move w bw bw' ->
  (exists taken,
     entries_put (bw_log bw) = taken ++ queue bw
     /\ (length (List.filter is_sentinel taken) <= exited_count (threads bw))%nat) ->
  exists taken,
    entries_put (bw_log bw') = taken ++ queue bw'
    /\ (length (List.filter is_sentinel taken) <= exited_count (threads bw'))%nat.
Proof.
  destruct 1; intros (taken & Htaken & Hcount); unfold BW.worker_raise;
    try match goal with
        | |- context [isinstance ?e ?cs] => destruct (isinstance e cs)
        end;
    unfold BW.worker_except;
    try match goal with
        | |- context [is_ ?a ?b] => destruct (is_ a b)
        end;
    simpl; rewrite ?entries_put_app; simpl; rewrite ?app_nil_r;
    match goal with
    | Hi : threads ?b !! ?i = Some ?old
      |- context [exited_count (<[?i:=?new]> (threads ?b))] =>
        pose proof (exited_count_insert _ _ _ new Hi) as Hins; simpl in Hins
    end;
    try (exists taken; split; [exact Htaken | lia]);
    match goal with
    | Hq : queue _ = ?x :: _ |- _ =>
        exists (taken ++ [x]); split;
        [ rewrite Htaken, Hq, <- app_assoc; reflexivity
        | rewrite List.filter_app, length_app; simpl; lia ]
    end.
Qed.

Lemma reachable_taken (ph : phase) (bw : BatchWriter) :
  reachable w ph bw -> exists taken, taken_by_workers bw taken.
Proof.
  intros Hr.
  assert (Hfifo : exists taken,
             entries_put (bw_log bw) = taken ++ queue bw
             /\ (length (List.filter is_sentinel taken)
                 <= exited_count (threads bw))%nat).
  { induction Hr as [s n m d | ph bw bw' _ IH Hm | bw b _ IH Hfull | bw k _ IH
                    | ph bw err _ IH | bw _ IH | bw _ IH Hfull].
    - exists []. split; [reflexivity | simpl; lia].
    - eapply move_taken; eassumption.
    - destruct IH as (taken & Htaken & Hcount). exists taken. simpl.
      rewrite entries_put_app, Htaken, <- app_assoc. auto.
    - exact IH.
    - exact IH.
    - exact IH.
    - destruct IH as (taken & Htaken & Hcount). exists taken. simpl.
      rewrite entries_put_app, Htaken, <- app_assoc. auto. }
  destruct Hfifo as (taken & Htaken & Hcount).
  exists taken. split; [exact Htaken |]. split; [| exact Hcount].
  destruct (reachable_invariant w _ _ Hr) as (Ha & _).
  unfold accounted in Ha.
  rewrite put_batches_entries, Htaken, queued_batches_app, app_assoc in Ha.
  now apply Permutation_app_inv_r in Ha.
Qed.

Lemma sentinels_put_entries (log : list bw_event) :
  sentinels_put log = length (List.filter is_sentinel (entries_put log)).
Proof.
  unfold sentinels_put, entries_put.
  induction log as [| [x | d b o] log IH]; simpl; auto.
  destruct x; simpl; auto.
Qed.

Lemma check_queue_quiet (bw : BatchWriter) :
  queued_batches (queue bw) = [] ->
  errors (BW.check_queue bw) = errors bw.
Proof.
  unfold BW.check_queue. destruct (queue bw) as [| x q]; [reflexivity |].
  destruct x; simpl; [reflexivity | discriminate].
Qed.

End Fifo.

(** C6. [stop], on a writer whose [with] block is running. It tries to put
    one sentinel per thread on the queue: every sentinel is appended to the
    queue, behind the batches, and is there after the puts unless a worker
    has taken it from the head of the queue, which ends the worker (all
    that was put on the queue is on it, in order, but for what the workers
    took: the batches they wrote or hold, and one sentinel at most for
    every thread that is over); each sentinel that did not get there left a
    [Full] on record. It then joins the threads, after which all of them
    are over. If the queue still holds a batch after the join, "Commit
    incomplete, queue not empty" goes on record; if it holds sentinels
    only, or nothing, no error is added. And it raises the first error on
    record, if there is one, and returns otherwise: errors recorded
    earlier, a [Full] of a sentinel among them, stay on record in their
    order, so that an error recorded before [stop] is the one raised, and a
    [Full] of a sentinel makes [stop] raise. *)
Theorem stop_spec (w : World) (bw : BatchWriter) (sched : list tick) :
  reachable w Open bw ->
  let '(pushed, sched1) := BW.put_sentinels w (length (threads bw)) bw sched in
  let '(joined, sched2) := BW.join w pushed sched1 in
  let checked := BW.check_queue joined in
  BW.stop w bw sched = (head (errors checked), checked, sched2)
  /\ (sentinels_put (bw_log pushed) = length (threads bw)
      \/ (sentinels_put (bw_log pushed) < length (threads bw)
          /\ In (Exc Full "") (errors pushed)))%nat
  /\ (exists taken,
        taken_by_workers pushed taken
        /\ length (List.filter is_sentinel (taken ++ queue pushed))
           = sentinels_put (bw_log pushed))
  /\ sentinels_last (queue pushed) = true
  /\ length (threads joined) = length (threads bw)
  /\ Forall (fun t => t = Exited) (threads joined)
  /\ (queued_batches (queue joined) <> [] ->
      In BW.incomplete (errors checked))
  /\ (queued_batches (queue joined) = [] ->
      errors checked = errors joined)
  /\ errors bw `prefix_of` errors pushed
  /\ errors pushed `prefix_of` errors checked
  /\ (forall e, head (errors bw) = Some e -> head (errors checked) = Some e)
  /\ (In (Exc Full "") (errors pushed) -> head (errors checked) <> None).
Proof.
  intros Hr.
  destruct (BW.put_sentinels w (length (threads bw)) bw sched)
    as [bw1 s1] eqn:Hput.
  destruct (BW.join w bw1 s1) as [bw2 s2] eqn:Hjoin.
  cbv zeta.
  destruct (put_sentinels_spec w _ _ _ _ _ Hput (reach_stop w _ Hr))
    as (Hr1 & Hs1 & _ & Hn).
  destruct (join_spec w _ _ _ _ Hjoin) as (Hm & Hex).
  pose proof (reachable_moves w _ _ _ Hm Hr1) as Hr2.
  destruct (moves_frame w _ _ Hm) as (Hs2 & _).
  destruct (reachable_invariant w _ _ Hr) as (_ & _ & _ & _ & Hzero).
  destruct (reachable_invariant w _ _ Hr1) as (_ & _ & _ & Hshape1).
  destruct (reachable_invariant w _ _ Hr2) as (_ & _ & _ & Hshape).
  rewrite Hzero in Hn. simpl in Hn, Hshape, Hshape1.
  assert (Hp1 : errors bw `prefix_of` errors bw1) by apply Hs1.
  assert (Hp2 : errors bw1 `prefix_of` errors (BW.check_queue bw2)).
  { etrans; [apply Hs2 | apply check_queue_same_writer]. }
  split; [unfold BW.stop; now rewrite Hput, Hjoin |].
  split; [exact Hn |].
  split.
  { destruct (reachable_taken w _ _ Hr1) as [taken Htaken].
    exists taken. split; [exact Htaken |].
    destruct Htaken as (<- & _). now rewrite sentinels_put_entries. }
  split; [exact Hshape1 |].
  split.
  { destruct Hs1 as (_ & _ & _ & Hl1 & _), Hs2 as (_ & _ & _ & Hl2 & _).
    congruence. }
  split; [exact Hex |].
  split; [now apply check_queue_incomplete |].
  split; [apply check_queue_quiet |].
  split; [exact Hp1 |].
  split; [exact Hp2 |].
  split.
  - intros e He. destruct Hp1 as [k1 Hk1], Hp2 as [k2 Hk2].
    rewrite Hk2, Hk1. destruct (errors bw); [discriminate | exact He].
  - intros HFull. destruct Hp2 as [k2 Hk2]. rewrite Hk2.
    destruct (errors bw1); [destruct HFull | discriminate].
Qed.

Lemma stop_spec_witness :
  let w := Demo.world_kv_fails in
  let bw := (BW.queue_batches w Demo.rows
               (BW.enter Demo.settings 3 WritingPhase1 false) []).1.2 in
  (let '(pushed, sched1) := BW.put_sentinels w (length (threads bw)) bw [] in
   let '(joined, sched2) := BW.join w pushed sched1 in
   let checked := BW.check_queue joined in
   BW.stop w bw [] = (head (errors checked), checked, sched2)
   /\ (sentinels_put (bw_log pushed) = length (threads bw)
       \/ (sentinels_put (bw_log pushed) < length (threads bw)
           /\ In (Exc Full "") (errors pushed)))%nat
   /\ (exists taken,
         taken_by_workers pushed taken
         /\ length (List.filter is_sentinel (taken ++ queue pushed))
            = sentinels_put (bw_log pushed))
   /\ sentinels_last (queue pushed) = true
   /\ length (threads joined) = length (threads bw)
   /\ Forall (fun t => t = Exited) (threads joined)
   /\ (queued_batches (queue joined) <> [] ->
       In BW.incomplete (errors checked))
   /\ (queued_batches (queue joined) = [] ->
       errors checked = errors joined)
   /\ errors bw `prefix_of` errors pushed
   /\ errors pushed `prefix_of` errors checked
   /\ (forall e, head (errors bw) = Some e -> head (errors checked) = Some e)
   /\ (In (Exc Full "") (errors pushed) -> head (errors checked) <> None))
  /\ queue bw
     = [Batch [Demo.item "1" "/a/x.rpm"]; Batch [Demo.item "2" "/b/y.rpm"];
        Batch [Demo.item "3" "/c/repomd.xml"]]
  /\ (BW.stop w bw []).1.1 = Some (Exc RuntimeError "Unprocessed items")
  /\ errors (BW.stop w bw []).1.2
     = [Exc RuntimeError "Unprocessed items"; BW.incomplete]
  /\ queue (BW.stop w bw []).1.2 = [Sentinel].
Proof.
  intros w bw. split.
  - apply (stop_spec w bw []).
    subst bw. unfold BW.queue_batches.
    destruct (BW.queue_batches_loop _ _ _ _ _) as [[ids bw'] s'] eqn:Hq.
    simpl. eapply queue_batches_loop_full; [exact Hq | apply reach_enter].
  - vm_compute. repeat split; reflexivity.
Defined.

(* ===================================================================== *)
(** * The two writers of a phase-2 commit *)
(* ===================================================================== *)

Section TwoWriters.

Context (w : World).



End TwoWriters.




(* ===================================================================== *)
(** * The rollback, chunk by chunk *)
(* ===================================================================== *)

Section RollbackFull.

Context (w : World).










End RollbackFull.



(** C10, as the spec has it, fails: the deadline branch is not reached by
    a task that is COMPLETE already. Such a phase-2 task, past its
    deadline, leaves the publish as it was, and nothing is committed. *)
Lemma expired_phase2_complete_counterexample :
  let c := new_commit (Some phase2) Demo.settings
             (Demo.database ts_complete ps_committing (Some 50) Demo.rows) [] in
  mode c = phase2
  /\ deadline (task (db c)) = Some 50
  /\ 50 < utcnow Demo.world
  /\ (commit Demo.world c).1 = Ret tt
  /\ publish_state (publish (db (commit Demo.world c).2)) = ps_committing
  /\ task_state (task (db (commit Demo.world c).2)) = ts_complete
  /\ trace (commit Demo.world c).2 = [].
Proof. vm_compute. repeat split; reflexivity. Qed.
